(** * Batch-scan and compaction kernels of [simd_impl.h]

    A shallow embedding of the kernels in
    [include/pstl/_internal/simd_impl.h] (namespace [__icp_algorithm]) and
    theorems about them.

    Conventions of the embedding.

    - A buffer (the storage behind an iterator) is a [list]; an iterator
      or pointer into it is an index of type [Z], so that [first - 1] and
      a counter running down to [-1] are ordinary values.  Difference
      types are modelled by unbounded [Z].
    - Dereferencing outside the buffer is undefined behaviour in C++; the
      embedding makes it the outcome [Fault].
    - Predicates are side-effect free total functions.  Where a kernel
      only tests the result of its predicate ([if (pred(x))], [!pred(x)],
      [bool m = pred(x)]) the predicate is a function to [bool].  The
      block scans of [simd_first] and [simd_adjacent_find] also convert
      the result to [int] ([int t = pred(x)]); their predicate is a
      function to any type [R] with the two conversions, [truth] and
      [to_int] (class [PredResult]).
    - A counted [for (i = lo; i < hi; ++i)] loop is a recursion on its
      trip count ([for_range]; [scan_range] and [simd_or_scan] when the
      body leaves it by [break] or [return]; [for_int] when the counter
      is declared [int] and the bound is not a constant).  A [while]
      loop, and a [for] loop whose header is not a plain count, is a
      recursive function on a fuel argument that returns [OutOfFuel] when
      the fuel is used up.  The theorems show that the stated fuel is
      enough.
    - The macro [__PSTL_EARLYEXIT_PRESENT] of [pstl_config.h], which
      selects one of two bodies of the search kernels at compile time, is
      the boolean argument [earlyexit].
    - The vectorisation pragmas ([omp simd], with or without a
      reduction) let the iterations of a loop run in any order and a
      reduction combine its operands in any grouping.  The embedding runs
      every loop in index order.  For the loops whose body only reads
      the buffer and combines integers with [|], [&] or [+], or writes
      to positions of its own, the order makes no difference.  Where a
      callable with a state of its own, or an addition of the caller,
      could tell the order (the walks, [simd_generate_n],
      [simd_transform_reduce]), the theorems are stated for callables and
      additions that cannot. *)

From Stdlib Require Import ZArith QArith List Permutation Bool Lia.
Import ListNotations.

Local Open Scope Z_scope.

(** ** Outcomes *)

Inductive outcome (R : Type) : Type :=
| Ret (r : R)
| Fault
| OutOfFuel.

Arguments Ret {R} r.
Arguments Fault {R}.
Arguments OutOfFuel {R}.

Definition bind {R T : Type} (c : outcome R) (k : R -> outcome T) : outcome T :=
  match c with
  | Ret r => k r
  | Fault => Fault
  | OutOfFuel => OutOfFuel
  end.

Notation "x <- c ;; k" := (bind c (fun x => k))
  (at level 61, c at next level, right associativity).
Notation "' p <- c ;; k" := (bind c (fun p => k))
  (at level 61, p pattern, c at next level, right associativity).

(** ** Buffers *)

Section Buffers.
Context {A : Type}.

(** [*(base + p)] as an rvalue. *)
Definition load (m : list A) (p : Z) : outcome A :=
  if p <? 0 then Fault
  else match nth_error m (Z.to_nat p) with
       | Some x => Ret x
       | None => Fault
       end.

Fixpoint upd (k : nat) (v : A) (m : list A) : list A :=
  match m, k with
  | [], _ => []
  | _ :: m', O => v :: m'
  | x :: m', S k' => x :: upd k' v m'
  end.

(** [*(base + p) = v]. *)
Definition store (m : list A) (p : Z) (v : A) : outcome (list A) :=
  if (0 <=? p) && (p <? Z.of_nat (length m))
  then Ret (upd (Z.to_nat p) v m)
  else Fault.

(** The elements of the range [[first, first + n)]. *)
Definition slice (m : list A) (first n : Z) : list A :=
  firstn (Z.to_nat n) (skipn (Z.to_nat first) m).

(** [[first, first + n)] lies inside the buffer. *)
Definition valid (m : list A) (first n : Z) : Prop :=
  0 <= first /\ 0 <= n /\ first + n <= Z.of_nat (length m).

(** The buffer [m] with the list [l] written at [result], [result + 1], ... *)
Definition splice (m : list A) (result : Z) (l : list A) : list A :=
  firstn (Z.to_nat result) m ++ l ++ skipn (Z.to_nat result + length l) m.
End Buffers.

(** ** Counted loops *)

Section Loops.
Context {S : Type}.

(** [k] iterations of [body], the counter starting at [i]. *)
Fixpoint for_loop (k : nat) (i : Z) (body : Z -> S -> outcome S) (s : S)
  : outcome S :=
  match k with
  | O => Ret s
  | Datatypes.S k' => s' <- body i s ;; for_loop k' (i + 1) body s'
  end.

(** [for (i = lo; i < hi; ++i) body]. *)
Definition for_range (lo hi : Z) (body : Z -> S -> outcome S) (s : S)
  : outcome S :=
  for_loop (Z.to_nat (hi - lo)) lo body s.

(** The largest value of an [int] (32 bits). *)
Definition int_max : Z := 2147483647.

(** [for (int i = 0; i < hi; ++i) body], where [hi] is of a type wider
    than [int]: the counter is compared with [hi] after a conversion to
    the wider type, so the body runs for every [i] up to [int_max], and
    the increment after that is a signed overflow, which is undefined. *)
Definition for_int (hi : Z) (body : Z -> S -> outcome S) (s : S)
  : outcome S :=
  s' <- for_range 0 (Z.min hi (int_max + 1)) body s ;;
  if hi >? int_max then Fault else Ret s'.
End Loops.

(** [for (i = lo; i < hi; ++i) if (test(i)) break;]: the value of [i]
    after the loop. *)
Fixpoint scan_loop (k : nat) (i : Z) (test : Z -> outcome bool) : outcome Z :=
  match k with
  | O => Ret i
  | S k' =>
      b <- test i ;;
      if (b : bool) then Ret i else scan_loop k' (i + 1) test
  end.

Definition scan_range (lo hi : Z) (test : Z -> outcome bool) : outcome Z :=
  scan_loop (Z.to_nat (hi - lo)) lo test.

(** ** Results of predicates *)

(** A predicate of the search kernels is a callable of any result type.
    The source uses a result in two ways: as a condition
    ([if (pred(x))]), which converts it to [bool], and as the initialiser
    of an [int] ([int t = pred(x)]).  [truth] and [to_int] are these two
    conversions. *)
Class PredResult (R : Type) : Type := {
  truth : R -> bool;
  to_int : R -> Z
}.

(** A predicate that returns [bool]: [true] converts to 1 and [false]
    to 0. *)
#[export] Instance bool_result : PredResult bool :=
  {| truth := fun b => b; to_int := Z.b2z |}.

(** A predicate that returns an [int]: every value but 0 is true. *)
#[export] Instance int_result : PredResult Z :=
  {| truth := fun z => negb (z =? 0); to_int := fun z => z |}.

(** A predicate that returns a fraction, as one that returns [double]
    does: every value but 0 is true, and the conversion to [int] drops
    the fractional part. *)
#[export] Instance Q_result : PredResult Q :=
  {| truth := fun q => negb (Qnum q =? 0);
     to_int := fun q => Z.quot (Qnum q) (Z.pos (Qden q)) |}.

(** ** The kernels *)

(** Lane width of the block scans ([const int block_size = 8]). *)
Definition block_size : Z := 8.

(** [alignas(64) int lane[block_size] = {0}]. *)
Definition lane0 : list Z := repeat 0 8.

(** [for (i = 0; i < block_size; ++i) if (lane[i]) break;] *)
Definition lane_scan (lane : list Z) : outcome Z :=
  scan_range 0 block_size (fun i => t <- load lane i ;; Ret (negb (t =? 0))).

(** Modelled from the spec: [not_pred] of [common.h], which is not among
    the sources; section 4.9 calls it the negated equivalence predicate. *)
Definition not_pred {A B : Type} (p : A -> B -> bool) : A -> B -> bool :=
  fun a b => negb (p a b).

Section OneStream.
Context {A : Type}.
Variable pred : A -> bool.
Variable m : list A.

(** *** [simd_or] *)

(** [for (i = 0; i < n; ++i) if (pred(first[i])) return true; return false;] *)
Fixpoint simd_or_scan (k : nat) (first i : Z) : outcome bool :=
  match k with
  | O => Ret false
  | S k' =>
      x <- load m (first + i) ;;
      if pred x then Ret true else simd_or_scan k' first (i + 1)
  end.

(** The [while (last != first)] loop of the block-doubling body. *)
Fixpoint simd_or_blocks (fuel : nat) (last first bsize : Z) : outcome bool :=
  match fuel with
  | O => OutOfFuel
  | S fuel' =>
      if last =? first then Ret false
      else
        flag <- for_int bsize
                  (fun i flag =>
                     x <- load m (first + i) ;;
                     Ret (if pred x then 0 else flag)) 1 ;;
        if flag =? 0 then Ret true
        else
          let first := first + bsize in
          if last - first >=? Z.shiftl bsize 1
          then simd_or_blocks fuel' last first (Z.shiftl bsize 1)
          else simd_or_blocks fuel' last first (last - first)
  end.

Definition simd_or (fuel : nat) (earlyexit : bool) (first n : Z)
  : outcome bool :=
  if earlyexit then simd_or_scan (Z.to_nat n) first 0
  else simd_or_blocks fuel (first + n) first (Z.min 4 n).

(** *** [simd_count] *)

Definition simd_count (first n : Z) : outcome Z :=
  for_range 0 n
    (fun i count =>
       x <- load m (first + i) ;;
       Ret (if pred x then count + 1 else count)) 0.

(** *** [simd_copy_if] *)

Definition simd_copy_if (first n : Z) (out : list A) (result : Z)
  : outcome (list A * Z) :=
  '(out, cnt) <-
    for_range 0 n
      (fun i '(out, cnt) =>
         x <- load m (first + i) ;;
         if pred x then
           v <- load m (first + i) ;;
           out <- store out (result + cnt) v ;;
           Ret (out, cnt + 1)
         else Ret (out, cnt)) (out, 0) ;;
  Ret (out, result + cnt).

(** *** [simd_calc_mask_1] *)

Definition simd_calc_mask_1 (first n : Z) (mk : list bool) (mask : Z)
  : outcome (list bool * Z) :=
  for_range 0 n
    (fun i '(mk, count) =>
       x <- load m (first + i) ;;
       mk <- store mk (mask + i) (pred x) ;;
       b <- load mk (mask + i) ;;
       Ret (mk, count + Z.b2z b)) (mk, 0).
End OneStream.

Section First.
Context {A R : Type} `{PredResult R}.
Variable pred : A -> R.
Variable m : list A.

(** *** [simd_first], one stream *)

(** The scalar remainder: [while (last != first)]. *)
Fixpoint simd_first_rest (fuel : nat) (last first : Z) : outcome Z :=
  match fuel with
  | O => OutOfFuel
  | S fuel' =>
      if last =? first then Ret last
      else
        x <- load m first ;;
        if truth (pred x) then Ret first
        else simd_first_rest fuel' last (first + 1)
  end.

(** The block loop [while (last - first >= block_size)], followed by
    the remainder. *)
Fixpoint simd_first_blocks (fuel : nat) (last first : Z) (lane : list Z)
  : outcome Z :=
  match fuel with
  | O => OutOfFuel
  | S fuel' =>
      if last - first >=? block_size then
        '(lane, found) <-
          for_range 0 block_size
            (fun i '(lane, found) =>
               x <- load m (first + i) ;;
               let t := to_int (pred x) in
               lane <- store lane i t ;;
               Ret (lane, Z.lor found t)) (lane, 0) ;;
        if found =? 0
        then simd_first_blocks fuel' last (first + block_size) lane
        else i <- lane_scan lane ;; Ret (first + i)
      else simd_first_rest fuel last first
  end.

Definition simd_first (fuel : nat) (earlyexit : bool) (first n : Z)
  : outcome Z :=
  if earlyexit then
    i <- scan_range 0 n
           (fun i => x <- load m (first + i) ;; Ret (truth (pred x))) ;;
    Ret (first + i)
  else simd_first_blocks fuel (first + n) first lane0.
End First.

Section PairKernels.
Context {A : Type}.
Variable pred : A -> A -> bool.
Variable m : list A.

(** *** [simd_unique_copy] *)

Definition simd_unique_copy (first n : Z) (out : list A) (result : Z)
  : outcome (list A * Z) :=
  if n =? 0 then Ret (out, result)
  else
    x0 <- load m (first + 0) ;;
    out <- store out (result + 0) x0 ;;
    '(out, cnt) <-
      for_range 1 n
        (fun i '(out, cnt) =>
           x <- load m (first + i) ;;
           y <- load m (first + (i - 1)) ;;
           if negb (pred x y) then
             v <- load m (first + i) ;;
             out <- store out (result + cnt) v ;;
             Ret (out, cnt + 1)
           else Ret (out, cnt)) (out, 1) ;;
    Ret (out, result + cnt).

(** *** [simd_calc_mask_2] *)

Definition simd_calc_mask_2 (first n : Z) (mk : list bool) (mask : Z)
  : outcome (list bool * Z) :=
  for_range 0 n
    (fun i '(mk, count) =>
       x <- load m (first + i) ;;
       y <- load m (first + (i - 1)) ;;
       mk <- store mk (mask + i) (negb (pred x y)) ;;
       b <- load mk (mask + i) ;;
       Ret (mk, count + Z.b2z b)) (mk, 0).
End PairKernels.

Section AdjacentFind.
Context {A R : Type} `{PredResult R}.
Variable pred : A -> A -> R.
Variable m : list A.

(** *** [simd_adjacent_find] *)

(** [for (; last - first > 1; ++first)], the rest elements. *)
Fixpoint simd_adjacent_find_rest (fuel : nat) (last first : Z) : outcome Z :=
  match fuel with
  | O => OutOfFuel
  | S fuel' =>
      if last - first >? 1 then
        x <- load m first ;;
        y <- load m (first + 1) ;;
        if truth (pred x y) then Ret first
        else simd_adjacent_find_rest fuel' last (first + 1)
      else Ret last
  end.

(** The block loop [while (last - first >= block_size)], followed by
    the rest. *)
Fixpoint simd_adjacent_find_blocks (fuel : nat) (or_semantic : bool)
    (last first : Z) (lane : list Z) : outcome Z :=
  match fuel with
  | O => OutOfFuel
  | S fuel' =>
      if last - first >=? block_size then
        '(lane, found) <-
          for_range 0 (block_size - 1)
            (fun i '(lane, found) =>
               x <- load m (first + i) ;;
               y <- load m (first + i + 1) ;;
               let t := to_int (pred x y) in
               lane <- store lane i t ;;
               Ret (lane, Z.lor found t)) (lane, 0) ;;
        (* the counter after the loop *)
        let i := block_size - 1 in
        (* a pair of elements on a boundary of a data block *)
        '(lane, found) <-
          (if first + block_size <? last then
             x <- load m (first + i) ;;
             y <- load m (first + i + 1) ;;
             if truth (pred x y) then
               lane <- store lane i 1 ;; Ret (lane, 1)
             else Ret (lane, found)
           else Ret (lane, found)) ;;
        if found =? 0
        then simd_adjacent_find_blocks fuel' or_semantic last
               (first + block_size) lane
        else if or_semantic then Ret first
        else i <- lane_scan lane ;; Ret (first + i)
      else simd_adjacent_find_rest fuel last first
  end.

Definition simd_adjacent_find (fuel : nat) (earlyexit : bool)
    (first last : Z) (or_semantic : bool) : outcome Z :=
  if last - first <? 2 then Ret last
  else if earlyexit then
    let n := last - first - 1 in
    i <- scan_range 0 n
           (fun i =>
              x <- load m (first + i) ;;
              y <- load m (first + i + 1) ;;
              Ret (truth (pred x y))) ;;
    Ret (if i <? n then first + i else last)
  else simd_adjacent_find_blocks fuel or_semantic last first lane0.
End AdjacentFind.

Section CopyByMask.
Context {A : Type}.
Variable m : list A.

(** *** [simd_copy_by_mask] *)

(** The loop of the kernel, with the final value of its counter [cnt]. *)
Definition simd_copy_by_mask_loop (first n : Z) (out : list A) (result : Z)
    (mk : list bool) (mask : Z) : outcome (list A * Z) :=
  for_range 0 n
    (fun i '(out, cnt) =>
       b <- load mk (mask + i) ;;
       if (b : bool) then
         v <- load m (first + i) ;;
         out <- store out (result + cnt) v ;;
         Ret (out, cnt + 1)
       else Ret (out, cnt)) (out, 0).

(** The kernel is declared [void]: the counter is dropped. *)
Definition simd_copy_by_mask (first n : Z) (out : list A) (result : Z)
    (mk : list bool) (mask : Z) : outcome (list A * unit) :=
  '(out, _) <- simd_copy_by_mask_loop first n out result mk mask ;;
  Ret (out, tt).
End CopyByMask.

Section TwoStreams.
Context {A B R : Type} `{PredResult R}.
Variable pred : A -> B -> R.
Variable m1 : list A.
Variable m2 : list B.

(** *** [simd_first], two streams *)

(** [for (; last1 != first1; ++first1, ++first2)]. *)
Fixpoint simd_first2_rest (fuel : nat) (last1 first1 first2 : Z)
  : outcome Z :=
  match fuel with
  | O => OutOfFuel
  | S fuel' =>
      if last1 =? first1 then Ret last1
      else
        x <- load m1 first1 ;;
        y <- load m2 first2 ;;
        if truth (pred x y) then Ret first1
        else simd_first2_rest fuel' last1 (first1 + 1) (first2 + 1)
  end.

Fixpoint simd_first2_blocks (fuel : nat) (last1 first1 first2 : Z)
    (lane : list Z) : outcome Z :=
  match fuel with
  | O => OutOfFuel
  | S fuel' =>
      if last1 - first1 >=? block_size then
        '(lane, found) <-
          for_range 0 block_size
            (fun i '(lane, found) =>
               x <- load m1 (first1 + i) ;;
               y <- load m2 (first2 + i) ;;
               let t := to_int (pred x y) in
               lane <- store lane i t ;;
               Ret (lane, Z.lor found t)) (lane, 0) ;;
        if found =? 0
        then simd_first2_blocks fuel' last1 (first1 + block_size)
               (first2 + block_size) lane
        else i <- lane_scan lane ;; Ret (first1 + i)
      else simd_first2_rest fuel last1 first1 first2
  end.

Definition simd_first2 (fuel : nat) (earlyexit : bool)
    (first1 n first2 : Z) : outcome Z :=
  if earlyexit then
    i <- scan_range 0 n
           (fun i =>
              x <- load m1 (first1 + i) ;;
              y <- load m2 (first2 + i) ;;
              Ret (truth (pred x y))) ;;
    Ret (first1 + i)
  else simd_first2_blocks fuel (first1 + n) first1 first2 lane0.
End TwoStreams.

Section Search.
Context {A B : Type}.
Variable p : B -> A -> bool.
Variable m : list A.   (* the sequence searched in *)
Variable sm : list B.  (* the sequence searched for *)

(** *** [simd_search] *)

(** [for (auto i = n1 - n2; i >= 0; --i, ++first)].  [fuel] is the fuel
    of this loop, [fuel1] the fuel of each call of [simd_first]. *)
Fixpoint simd_search_loop (fuel fuel1 : nat) (earlyexit : bool)
    (s_first s_last : Z) (b_first : bool) (i first result : Z) : outcome Z :=
  match fuel with
  | O => OutOfFuel
  | S fuel' =>
      if i >=? 0 then
        r <- simd_first2 (not_pred p) sm m fuel1 earlyexit
               s_first (s_last - s_first) first ;;
        if r =? s_last then
          (* result = first *)
          if b_first then Ret first
          else simd_search_loop fuel' fuel1 earlyexit s_first s_last b_first
                 (i - 1) (first + 1) first
        else simd_search_loop fuel' fuel1 earlyexit s_first s_last b_first
               (i - 1) (first + 1) result
      else Ret result
  end.

Definition simd_search (fuel : nat) (earlyexit : bool)
    (first last s_first s_last : Z) (b_first : bool) : outcome Z :=
  let n2 := s_last - s_first in
  if n2 <? 1 then Ret last
  else
    let n1 := last - first in
    if n1 <? n2 then Ret last
    else simd_search_loop fuel fuel earlyexit s_first s_last b_first
           (n1 - n2) first last.

(** The same loop, returning the start positions at which a window was
    compared with the searched-for sequence, in the order of the
    comparisons. *)
Fixpoint simd_search_probes (fuel fuel1 : nat) (earlyexit : bool)
    (s_first s_last : Z) (b_first : bool) (i first : Z) : list Z :=
  match fuel with
  | O => []
  | S fuel' =>
      if i >=? 0 then
        match simd_first2 (not_pred p) sm m fuel1 earlyexit
                s_first (s_last - s_first) first with
        | Ret r =>
            if (r =? s_last) && b_first then [first]
            else first :: simd_search_probes fuel' fuel1 earlyexit
                            s_first s_last b_first (i - 1) (first + 1)
        | _ => [first]
        end
      else []
  end.
End Search.

(** ** The element-wise kernels *)

(** A callable that is applied to elements by reference is a function that
    takes its own state and the elements and returns its new state and
    the new values of the elements.  The streams of one call are in
    separate buffers.  The loops are under [omp simd], which does not fix
    the order of the calls; the embedding calls in the order of the
    indices, and the theorems are about callables that leave their state
    as it is, for which every order gives the same buffers. *)

Section Walk1.
Context {A St : Type}.
Variable f : St -> A -> St * A.

(** *** [simd_walk_1] *)

Definition simd_walk_1 (m : list A) (first n : Z) (s : St)
  : outcome (list A * St) :=
  for_range 0 n
    (fun i '(m, s) =>
       x <- load m (first + i) ;;
       let '(s, x) := f s x in
       m <- store m (first + i) x ;;
       Ret (m, s)) (m, s).
End Walk1.

Section Walk2.
Context {A B St : Type}.
Variable f : St -> A -> B -> St * (A * B).

(** *** [simd_walk_2] *)

Definition simd_walk_2 (m1 : list A) (m2 : list B) (first1 n first2 : Z)
    (s : St) : outcome (list A * list B * St * Z) :=
  '(m1, m2, s) <-
    for_range 0 n
      (fun i '(m1, m2, s) =>
         x <- load m1 (first1 + i) ;;
         y <- load m2 (first2 + i) ;;
         let '(s, (x, y)) := f s x y in
         m1 <- store m1 (first1 + i) x ;;
         m2 <- store m2 (first2 + i) y ;;
         Ret (m1, m2, s)) (m1, m2, s) ;;
  Ret (m1, m2, s, first2 + n).
End Walk2.

Section Walk3.
Context {A B C St : Type}.
Variable f : St -> A -> B -> C -> St * (A * B * C).

(** *** [simd_walk_3] *)

Definition simd_walk_3 (m1 : list A) (m2 : list B) (m3 : list C)
    (first1 n first2 first3 : Z) (s : St)
  : outcome (list A * list B * list C * St * Z) :=
  '(m1, m2, m3, s) <-
    for_range 0 n
      (fun i '(m1, m2, m3, s) =>
         x <- load m1 (first1 + i) ;;
         y <- load m2 (first2 + i) ;;
         z <- load m3 (first3 + i) ;;
         let '(s, (x, y, z)) := f s x y z in
         m1 <- store m1 (first1 + i) x ;;
         m2 <- store m2 (first2 + i) y ;;
         m3 <- store m3 (first3 + i) z ;;
         Ret (m1, m2, m3, s)) (m1, m2, m3, s) ;;
  Ret (m1, m2, m3, s, first3 + n).
End Walk3.

Section CopyFillGenerate.
Context {A : Type}.

(** *** [simd_copy_n] *)

Definition simd_copy_n (m : list A) (first n : Z) (out : list A) (result : Z)
  : outcome (list A * Z) :=
  out <- for_range 0 n
           (fun i out =>
              x <- load m (first + i) ;;
              store out (result + i) x) out ;;
  Ret (out, result + n).

(** *** [simd_fill_n], [simd_fill] *)

Definition simd_fill_n (m : list A) (first n : Z) (value : A)
  : outcome (list A * Z) :=
  m <- for_range 0 n (fun i m => store m (first + i) value) m ;;
  Ret (m, first + n).

Definition simd_fill (m : list A) (first last : Z) (value : A)
  : outcome (list A) :=
  '(m, _) <- simd_fill_n m first (last - first) value ;;
  Ret m.

(** *** [simd_generate_n], [simd_generate] *)

(** A generator is a function from its state to its next state and the
    value it returns.  The loop is under [omp simd]; the theorems are
    about generators that leave their state as it is. *)
Definition simd_generate_n {St : Type} (g : St -> St * A) (m : list A)
    (first size : Z) (s : St) : outcome (list A * St * Z) :=
  '(m, s) <-
    for_range 0 size
      (fun i '(m, s) =>
         let '(s, v) := g s in
         m <- store m (first + i) v ;;
         Ret (m, s)) (m, s) ;;
  Ret (m, s, first + size).

Definition simd_generate {St : Type} (g : St -> St * A) (m : list A)
    (first last : Z) (s : St) : outcome (list A * St) :=
  '(m, s, _) <- simd_generate_n g m first (last - first) s ;;
  Ret (m, s).
End CopyFillGenerate.

Section TransformReduce.
Context {A B T : Type}.
(** [operator+=] of the accumulator type.  The loops are under
    [omp simd reduction(+:init)], which lets the images be added in any
    grouping and order, to copies of the accumulator that start from the
    neutral element.  The embedding adds them to [init] one after the
    other; the theorems are about an addition that is associative and
    commutative and has a neutral element, for which all groupings give
    the same sum. *)
Variable plus : T -> T -> T.

(** *** [simd_transform_reduce], two streams *)

Definition simd_transform_reduce2 (binary_op : A -> B -> T) (m1 : list A)
    (m2 : list B) (first1 n first2 : Z) (init : T) : outcome T :=
  for_range 0 n
    (fun i init =>
       x <- load m1 (first1 + i) ;;
       y <- load m2 (first2 + i) ;;
       Ret (plus init (binary_op x y))) init.

(** *** [simd_transform_reduce], one stream *)

Definition simd_transform_reduce (unary_op : A -> T) (m : list A)
    (first n : Z) (init : T) : outcome T :=
  for_range 0 n
    (fun i init =>
       x <- load m (first + i) ;;
       Ret (plus init (unary_op x))) init.
End TransformReduce.

(** * Vocabulary of the specification *)

(** [r] is the first index of [[lo, hi)] at which [b] holds, or [hi] when
    there is none. *)
Definition first_hit (b : Z -> bool) (lo hi r : Z) : Prop :=
  lo <= r <= hi /\
  (forall j, lo <= j < r -> b j = false) /\
  (r < hi -> b r = true).

(** [lo, lo + 1, ..., lo + len - 1]. *)
Definition zrange (lo : Z) (len : nat) : list Z :=
  map (fun k => lo + Z.of_nat k) (seq 0 len).

Section ListVocabulary.
Context {A : Type}.

(** The elements of [l] whose index, counted from [i], satisfies [keep]. *)
Fixpoint select (keep : Z -> bool) (i : Z) (l : list A) : list A :=
  match l with
  | [] => []
  | x :: l' =>
      if keep i then x :: select keep (i + 1) l' else select keep (i + 1) l'
  end.

End ListVocabulary.

Section OneStreamVocabulary.
Context {A : Type}.
Variable pred : A -> bool.
Variable m : list A.
Variable first : Z.

(** Whether the element at index [p] of the buffer satisfies [pred]. *)
Definition sat (p : Z) : bool :=
  match load m p with
  | Ret x => pred x
  | _ => false
  end.

(** Whether the element at offset [j] of the range satisfies [pred]. *)
Definition hit (j : Z) : bool :=
  match load m (first + j) with
  | Ret x => pred x
  | _ => false
  end.

End OneStreamVocabulary.

Section PairVocabulary.
Context {A : Type}.
Variable pred : A -> A -> bool.

(** Consecutive duplicates removed: the first element is kept, and an
    element after it is kept when [pred] does not relate it to the
    element before it. *)
Fixpoint uniq_from (prev : A) (l : list A) : list A :=
  match l with
  | [] => []
  | x :: l' =>
      if pred x prev then uniq_from x l' else x :: uniq_from x l'
  end.

Definition unique (l : list A) : list A :=
  match l with
  | [] => []
  | x :: l' => x :: uniq_from x l'
  end.

Variable m : list A.
Variable first : Z.

(** Whether the element at offset [j] starts a new run. *)
Definition fresh (j : Z) : bool :=
  match load m (first + j), load m (first + (j - 1)) with
  | Ret x, Ret y => negb (pred x y)
  | _, _ => false
  end.

(** The mask entries the kernel computes for the offsets [0 .. j - 1]. *)
Definition pair_flags (j : Z) : list bool :=
  map fresh (map Z.of_nat (seq 0 (Z.to_nat j))).

(** Whether the elements at the indices [j] and [j + 1] satisfy [pred]. *)
Definition adj (j : Z) : bool :=
  match load m j, load m (j + 1) with
  | Ret x, Ret y => pred x y
  | _, _ => false
  end.

(** What the kernel returns for the pairs that start in
    [[lo, last - 1)]: [last] when no pair matches; otherwise, with
    [k] the start of the first matching pair, [k] itself in the exact
    mode and some position of [[lo, k]] in the existence-only mode. *)
Definition adj_result (or_semantic : bool) (lo last r : Z) : Prop :=
  (r = last /\ forall j, lo <= j < last - 1 -> adj j = false) \/
  (exists k, lo <= k < last - 1 /\ adj k = true /\
             (forall j, lo <= j < k -> adj j = false) /\
             if or_semantic then lo <= r <= k else r = k).

End PairVocabulary.

Section LaneVocabulary.
Context {A B R : Type} `{PredResult R}.

(** The [int] that a lane records for the element at index [p]. *)
Definition lane_int (pred : A -> R) (m : list A) (p : Z) : Z :=
  match load m p with
  | Ret x => to_int (pred x)
  | _ => 0
  end.

(** The same for the elements at offset [k] of two ranges. *)
Definition lane_int2 (pred : A -> B -> R) (m1 : list A) (m2 : list B)
    (f1 f2 k : Z) : Z :=
  match load m1 (f1 + k), load m2 (f2 + k) with
  | Ret x, Ret y => to_int (pred x y)
  | _, _ => 0
  end.

End LaneVocabulary.

Section ResultVocabulary.
Context {R : Type} `{PredResult R}.

(** The result [r] of a predicate converts to a non-zero [int] exactly
    when it is true as a condition.  Every [bool] does. *)
Definition int_faithful (r : R) : Prop :=
  truth r = negb (to_int r =? 0).

(** A predicate as the conditions of the source see it. *)
Definition as_cond {A : Type} (pred : A -> R) : A -> bool :=
  fun x => truth (pred x).

Definition as_cond2 {A B : Type} (pred : A -> B -> R) : A -> B -> bool :=
  fun x y => truth (pred x y).

End ResultVocabulary.

(** [r] is what a scan of the pairs that start in [[lo, last - 1)]
    returns when it takes the pair at [j] for a match exactly when
    [det j] holds and answers [ret k] for a first match at [k]: [last]
    when there is no match. *)
Definition scan_result (det : Z -> bool) (ret : Z -> Z) (lo last r : Z)
  : Prop :=
  (r = last /\ forall j, lo <= j < last - 1 -> det j = false) \/
  (exists k, lo <= k < last - 1 /\ det k = true /\
             (forall j, lo <= j < k -> det j = false) /\
             r = ret k).

(** The end of the last whole block of eight of [[first, last)], where
    the rest of the block body of [simd_adjacent_find] starts. *)
Definition blocks_end (first last : Z) : Z :=
  first + 8 * ((last - first) / 8).

(** The start of the block of eight that holds [k], for [k] before
    [blocks_end]; [k] itself from there on. *)
Definition block_start (first last k : Z) : Z :=
  if k <? blocks_end first last then first + 8 * ((k - first) / 8) else k.

Section PairBlockVocabulary.
Context {A R : Type} `{PredResult R}.
Variable pred : A -> A -> R.
Variable m : list A.

(** The [int] that a lane records for the pair at [j] and [j + 1]. *)
Definition pair_int (j : Z) : Z :=
  match load m j, load m (j + 1) with
  | Ret x, Ret y => to_int (pred x y)
  | _, _ => 0
  end.

(** The content of the lane buffer after one block at [first]: the lanes
    0 to 6 hold the converted results; lane 7, for the pair on the
    boundary of the block, is set to 1 when that pair is tested and its
    result is true. *)
Definition adj_lane (first last i : Z) : Z :=
  if i <? 7 then pair_int (first + i)
  else Z.b2z ((first + 8 <? last) && adj (as_cond2 pred) m (first + 7)).

(** Whether the block body of [simd_adjacent_find] takes the pair at [j]
    for a match: by the converted result in the lanes 0 to 6 of a whole
    block, by the result as a condition on a block boundary and in the
    rest. *)
Definition adj_seen (first last j : Z) : bool :=
  if (j <? blocks_end first last) && ((j - first) mod 8 <? 7)
  then negb (pair_int j =? 0)
  else adj (as_cond2 pred) m j.

End PairBlockVocabulary.

Section TwoStreamVocabulary.
Context {A B : Type}.
Variable pred : A -> B -> bool.
Variable m1 : list A.
Variable m2 : list B.
Variables f1 f2 : Z.

(** Whether the elements at offset [k] of the two ranges satisfy [pred]. *)
Definition sat2 (k : Z) : bool :=
  match load m1 (f1 + k), load m2 (f2 + k) with
  | Ret x, Ret y => pred x y
  | _, _ => false
  end.

End TwoStreamVocabulary.

Section MaskVocabulary.
Variable mk : list bool.
Variable mask : Z.

(** The mask entry of offset [j]. *)
Definition mask_bit (j : Z) : bool :=
  match load mk (mask + j) with
  | Ret b => b
  | _ => false
  end.

End MaskVocabulary.

Section SearchVocabulary.
Context {A B : Type}.
Variable p : B -> A -> bool.
Variable m : list A.
Variable sm : list B.
Variables first last s_first s_last : Z.

Local Abbreviation n1 := (last - first).
Local Abbreviation n2 := (s_last - s_first).

(** The window of the searched sequence that starts at offset [k]
    agrees with the whole searched-for sequence. *)
Definition match_at (k : Z) : Prop :=
  forall j, 0 <= j < n2 ->
    exists y x, load sm (s_first + j) = Ret y /\
                load m (first + k + j) = Ret x /\
                p y x = true.

(** What the loop returns when [d] start positions have been tried and
    [result] holds the value assigned so far. *)
Definition search_result (b_first : bool) (d result r : Z) : Prop :=
  (r = result /\ forall k, d <= k <= n1 - n2 -> ~ match_at k) \/
  (exists k, d <= k <= n1 - n2 /\ match_at k /\ r = first + k /\
             if b_first then forall k', d <= k' < k -> ~ match_at k'
             else forall k', k < k' <= n1 - n2 -> ~ match_at k').

End SearchVocabulary.

Section WalkVocabulary.
Context {E St : Type}.

(** The callable [h] applied to the elements of [l] from left to right:
    its final state and the new elements. *)
Fixpoint walk_list (h : St -> E -> St * E) (s : St) (l : list E)
  : St * list E :=
  match l with
  | [] => (s, [])
  | x :: l' =>
      let '(s1, x') := h s x in
      let '(s2, r) := walk_list h s1 l' in
      (s2, x' :: r)
  end.

(** [k] successive values of the generator [g]: its final state and the
    values. *)
Fixpoint gen_list (g : St -> St * E) (s : St) (k : nat) : St * list E :=
  match k with
  | O => (s, [])
  | S k' =>
      let '(s1, v) := g s in
      let '(s2, r) := gen_list g s1 k' in
      (s2, v :: r)
  end.
End WalkVocabulary.

(** A callable of two, or of three, elements as a callable of the pair,
    or of the triple. *)
Definition pair_call {A B St : Type} (f : St -> A -> B -> St * (A * B))
  : St -> A * B -> St * (A * B) :=
  fun s p => f s (fst p) (snd p).

Definition triple_call {A B C St : Type}
    (f : St -> A -> B -> C -> St * (A * B * C))
  : St -> A * B * C -> St * (A * B * C) :=
  fun s t => f s (fst (fst t)) (snd (fst t)) (snd t).

(** No element of [l] is related by [pred] to the element before it,
    [prev] being the element before the first. *)
Fixpoint chain_free {A : Type} (pred : A -> A -> bool) (prev : A)
    (l : list A) : Prop :=
  match l with
  | [] => True
  | y :: r => pred y prev = false /\ chain_free pred y r
  end.

(** The sum of the elements of [l], from [zero]. *)
Definition sum_of {T : Type} (plus : T -> T -> T) (zero : T) (l : list T)
  : T :=
  fold_left plus l zero.

(** Two predicates whose results are fractions: 1/2 where the element
    is 7, or where the two elements are equal, and 0 elsewhere. *)
Definition is_seven_half (x : Z) : Q :=
  if x =? 7 then (1 # 2)%Q else 0%Q.

Definition equal_half (x y : Z) : Q :=
  if x =? y then (1 # 2)%Q else 0%Q.

(** * Properties *)

(** ** Buffers *)

Section BufferFacts.
Context {A : Type}.
Implicit Types (m : list A) (p : Z) (x v : A).

Lemma load_Ret m p x :
  load m p = Ret x <-> 0 <= p /\ nth_error m (Z.to_nat p) = Some x.
Proof.
  unfold load. destruct (Z.ltb_spec p 0).
  - split; [discriminate | lia].
  - destruct (nth_error m (Z.to_nat p)) eqn:E; split; intros H1.
    + inversion H1; subst; auto.
    + destruct H1 as [_ H1]; inversion H1; reflexivity.
    + discriminate.
    + destruct H1; discriminate.
Qed.

Lemma load_bounds m p x : load m p = Ret x -> 0 <= p < Z.of_nat (length m).
Proof.
  intros H. apply load_Ret in H. destruct H as [H0 H].
  assert (Z.to_nat p < length m)%nat by (apply nth_error_Some; congruence).
  lia.
Qed.

Lemma load_in_range m p :
  0 <= p < Z.of_nat (length m) -> exists x, load m p = Ret x.
Proof.
  intros H. destruct (nth_error m (Z.to_nat p)) eqn:E.
  - exists a. apply load_Ret. split; [lia | assumption].
  - apply nth_error_None in E. lia.
Qed.

Lemma load_out_of_range m p :
  p < 0 \/ Z.of_nat (length m) <= p -> load m p = Fault.
Proof.
  intros H. unfold load. destruct (Z.ltb_spec p 0); [reflexivity |].
  destruct (nth_error m (Z.to_nat p)) eqn:E; [| reflexivity].
  assert (Z.to_nat p < length m)%nat by (apply nth_error_Some; congruence).
  lia.
Qed.

Lemma length_upd k v m : length (upd k v m) = length m.
Proof.
  revert k; induction m as [| a m IH]; intros [| k]; simpl; auto.
Qed.

Lemma nth_error_upd_same k v m :
  (k < length m)%nat -> nth_error (upd k v m) k = Some v.
Proof.
  revert k; induction m as [| a m IH]; intros [| k]; simpl; intros H;
    try lia; auto.
  apply IH; lia.
Qed.

Lemma nth_error_upd_other k j v m :
  k <> j -> nth_error (upd k v m) j = nth_error m j.
Proof.
  revert k j; induction m as [| a m IH]; intros [| k] [| j]; simpl;
    intros H; auto; try congruence.
Qed.

Lemma store_in_range m p v :
  0 <= p < Z.of_nat (length m) -> store m p v = Ret (upd (Z.to_nat p) v m).
Proof.
  intros H. unfold store.
  destruct (Z.leb_spec 0 p); [| lia].
  destruct (Z.ltb_spec p (Z.of_nat (length m))); [reflexivity | lia].
Qed.

Lemma store_Ret m p v m' :
  store m p v = Ret m' ->
  0 <= p < Z.of_nat (length m) /\ m' = upd (Z.to_nat p) v m.
Proof.
  unfold store.
  destruct (Z.leb_spec 0 p); destruct (Z.ltb_spec p (Z.of_nat (length m)));
    simpl; intros H1; inversion H1; split; [lia | reflexivity].
Qed.

Lemma load_upd_same m p v :
  0 <= p < Z.of_nat (length m) -> load (upd (Z.to_nat p) v m) p = Ret v.
Proof.
  intros H. apply load_Ret. split; [lia |].
  apply nth_error_upd_same. lia.
Qed.

Lemma load_upd_other m p q v :
  0 <= p -> p <> q -> load (upd (Z.to_nat p) v m) q = load m q.
Proof.
  intros H0 H. unfold load. destruct (Z.ltb_spec q 0); [reflexivity |].
  rewrite nth_error_upd_other by lia. reflexivity.
Qed.

Lemma length_slice m first n :
  valid m first n -> length (slice m first n) = Z.to_nat n.
Proof.
  intros (H0 & H1 & H2). unfold slice.
  rewrite length_firstn, length_skipn. lia.
Qed.

Lemma slice_zero m first : slice m first 0 = [].
Proof. reflexivity. Qed.

Lemma firstn_snoc_nth (l : list A) k x :
  nth_error l k = Some x -> firstn (S k) l = firstn k l ++ [x].
Proof.
  revert k; induction l as [| a l IH]; intros [| k]; simpl; intros H;
    try discriminate.
  - inversion H; reflexivity.
  - f_equal. apply IH. assumption.
Qed.

Lemma firstn_plus (l : list A) a b :
  firstn (a + b) l = firstn a l ++ firstn b (skipn a l).
Proof.
  revert l; induction a as [| a IH]; intros [| x l]; simpl; auto.
  - rewrite firstn_nil. reflexivity.
  - f_equal. apply IH.
Qed.

Lemma slice_snoc m first j x :
  0 <= first -> 0 <= j -> load m (first + j) = Ret x ->
  slice m first (j + 1) = slice m first j ++ [x].
Proof.
  intros H0 Hj H. apply load_Ret in H. destruct H as [_ H].
  unfold slice. replace (Z.to_nat (j + 1)) with (S (Z.to_nat j)) by lia.
  apply firstn_snoc_nth. rewrite nth_error_skipn.
  replace (Z.to_nat first + Z.to_nat j)%nat with (Z.to_nat (first + j)) by lia.
  assumption.
Qed.

Lemma load_slice m first n j :
  0 <= first -> 0 <= j < n ->
  load (slice m first n) j = load m (first + j).
Proof.
  intros H0 Hj. unfold load, slice.
  destruct (Z.ltb_spec j 0); [lia |].
  destruct (Z.ltb_spec (first + j) 0); [lia |].
  rewrite nth_error_firstn.
  destruct (Nat.ltb_spec (Z.to_nat j) (Z.to_nat n)); [| lia].
  rewrite nth_error_skipn.
  replace (Z.to_nat first + Z.to_nat j)%nat with (Z.to_nat (first + j)) by lia.
  reflexivity.
Qed.

Lemma splice_nil m result : splice m result [] = m.
Proof.
  unfold splice. simpl. rewrite Nat.add_0_r. apply firstn_skipn.
Qed.

Lemma length_splice m result l :
  0 <= result -> result + Z.of_nat (length l) <= Z.of_nat (length m) ->
  length (splice m result l) = length m.
Proof.
  intros H0 H. unfold splice.
  rewrite !length_app, length_firstn, length_skipn. lia.
Qed.

Lemma upd_app_r (l1 l2 : list A) k v :
  (length l1 <= k)%nat -> upd k v (l1 ++ l2) = l1 ++ upd (k - length l1) v l2.
Proof.
  revert k; induction l1 as [| a l1 IH]; intros k H; simpl in *.
  - rewrite Nat.sub_0_r. reflexivity.
  - destruct k as [| k]; [lia |]. simpl. f_equal. apply IH. lia.
Qed.

Lemma upd_skipn_head (l : list A) k v :
  (k < length l)%nat -> upd 0 v (skipn k l) = v :: skipn (S k) l.
Proof.
  revert k; induction l as [| a l IH]; intros k H; simpl in *; [lia |].
  destruct k as [| k]; simpl; [reflexivity |].
  apply IH. lia.
Qed.

Lemma store_splice_snoc m result l x :
  0 <= result ->
  result + Z.of_nat (length l) < Z.of_nat (length m) ->
  store (splice m result l) (result + Z.of_nat (length l)) x
  = Ret (splice m result (l ++ [x])).
Proof.
  intros H0 H. rewrite store_in_range
    by (rewrite length_splice by lia; lia).
  f_equal. unfold splice.
  rewrite upd_app_r by (rewrite length_firstn; lia).
  rewrite length_firstn.
  rewrite upd_app_r by lia.
  replace (Z.to_nat (result + Z.of_nat (length l))
           - Nat.min (Z.to_nat result) (length m) - length l)%nat
    with O by lia.
  rewrite (upd_skipn_head m (Z.to_nat result + length l) x) by lia.
  rewrite <- app_assoc, length_app.
  replace (Z.to_nat result + (length l + length [x]))%nat
    with (S (Z.to_nat result + length l)) by (simpl; lia).
  reflexivity.
Qed.

Lemma slice_splice m result l :
  0 <= result -> result + Z.of_nat (length l) <= Z.of_nat (length m) ->
  slice (splice m result l) result (Z.of_nat (length l)) = l.
Proof.
  intros H0 H. unfold slice, splice.
  rewrite skipn_app, length_firstn.
  replace (Z.to_nat result - Nat.min (Z.to_nat result) (length m))%nat
    with O by lia.
  rewrite skipn_all2 by (rewrite length_firstn; lia).
  simpl. rewrite Nat2Z.id. rewrite firstn_app, Nat.sub_diag. simpl.
  rewrite firstn_all, app_nil_r. reflexivity.
Qed.
End BufferFacts.

(** ** Loop rules *)

Section LoopFacts.
Context {S : Type}.

(** The invariant rule for counted loops. *)
Lemma for_loop_inv (I : Z -> S -> Prop) (body : Z -> S -> outcome S) :
  forall k i s,
    I i s ->
    (forall j t, i <= j < i + Z.of_nat k -> I j t ->
                 exists t', body j t = Ret t' /\ I (j + 1) t') ->
    exists s', for_loop k i body s = Ret s' /\ I (i + Z.of_nat k) s'.
Proof.
  induction k as [| k IH]; intros i s Hi Hstep.
  - exists s. simpl. rewrite Z.add_0_r. auto.
  - destruct (Hstep i s) as (t' & Hb & Ht'); [lia | assumption |].
    destruct (IH (i + 1) t') as (s' & Hl & Hs'); [assumption | |].
    + intros j t Hj Ht. apply Hstep; [lia | assumption].
    + exists s'. split.
      * cbn [for_loop]. rewrite Hb. exact Hl.
      * replace (i + Z.of_nat (Datatypes.S k)) with (i + 1 + Z.of_nat k) by lia.
        assumption.
Qed.

Lemma for_range_inv (I : Z -> S -> Prop) (body : Z -> S -> outcome S) lo hi s :
  lo <= hi ->
  I lo s ->
  (forall j t, lo <= j < hi -> I j t ->
               exists t', body j t = Ret t' /\ I (j + 1) t') ->
  exists s', for_range lo hi body s = Ret s' /\ I hi s'.
Proof.
  intros Hle Hi Hstep. unfold for_range.
  destruct (for_loop_inv I body (Z.to_nat (hi - lo)) lo s) as (s' & H1 & H2).
  - assumption.
  - intros j t Hj. apply Hstep. lia.
  - exists s'. split; [assumption |].
    replace hi with (lo + Z.of_nat (Z.to_nat (hi - lo))) at 1 by lia.
    assumption.
Qed.

End LoopFacts.


Lemma scan_loop_first_hit (test : Z -> outcome bool) (b : Z -> bool) :
  forall k i,
    (forall j, i <= j < i + Z.of_nat k -> test j = Ret (b j)) ->
    exists r, scan_loop k i test = Ret r /\ first_hit b i (i + Z.of_nat k) r.
Proof.
  induction k as [| k IH]; intros i Ht.
  - exists i. simpl. split; [reflexivity |]. unfold first_hit.
    split; [lia |]. split; intros; lia.
  - simpl. rewrite Ht by lia. simpl. destruct (b i) eqn:Eb.
    + exists i. split; [reflexivity |]. unfold first_hit.
      split; [lia |]. split; [intros; lia | auto].
    + destruct (IH (i + 1)) as (r & Hr & H1 & H2 & H3).
      { intros j Hj. apply Ht. lia. }
      exists r. split; [assumption |]. unfold first_hit.
      split; [lia |]. split.
      * intros j Hj. destruct (Z.eq_dec j i); [subst; assumption |].
        apply H2. lia.
      * intros Hlt. apply H3. lia.
Qed.

Lemma scan_range_first_hit (test : Z -> outcome bool) (b : Z -> bool) lo hi :
  lo <= hi ->
  (forall j, lo <= j < hi -> test j = Ret (b j)) ->
  exists r, scan_range lo hi test = Ret r /\ first_hit b lo hi r.
Proof.
  intros Hle Ht. unfold scan_range.
  destruct (scan_loop_first_hit test b (Z.to_nat (hi - lo)) lo)
    as (r & H1 & H2).
  - intros j Hj. apply Ht. lia.
  - exists r. split; [assumption |].
    replace (lo + Z.of_nat (Z.to_nat (hi - lo))) with hi in H2 by lia.
    assumption.
Qed.

(** ** Compaction *)

Section Select.
Context {A : Type}.

Lemma select_app keep i (l1 l2 : list A) :
  select keep i (l1 ++ l2)
  = select keep i l1 ++ select keep (i + Z.of_nat (length l1)) l2.
Proof.
  revert i; induction l1 as [| x l1 IH]; intros i.
  - simpl. rewrite Z.add_0_r. reflexivity.
  - cbn [select app length]. rewrite IH.
    replace (i + 1 + Z.of_nat (length l1))
      with (i + Z.of_nat (Datatypes.S (length l1))) by lia.
    destruct (keep i); reflexivity.
Qed.

Lemma length_select keep i (l : list A) :
  (length (select keep i l) <= length l)%nat.
Proof.
  revert i; induction l as [| x l IH]; intros i; simpl; [lia |].
  specialize (IH (i + 1)). destruct (keep i); simpl; lia.
Qed.

Lemma select_filter (pred : A -> bool) keep i (l : list A) :
  (forall j x, 0 <= j -> load l j = Ret x -> keep (i + j) = pred x) ->
  select keep i l = filter pred l.
Proof.
  revert i; induction l as [| x l IH]; intros i H; [reflexivity |].
  cbn [select filter]. rewrite <- (Z.add_0_r i) at 1.
  rewrite (H 0 x) by (try lia; reflexivity).
  rewrite (IH (i + 1)); [reflexivity |].
  intros j y Hj Hl. replace (i + 1 + j) with (i + (j + 1)) by lia.
  apply H; [lia |]. apply load_Ret. apply load_Ret in Hl.
  destruct Hl as [_ Hl]. split; [lia |].
  replace (Z.to_nat (j + 1)) with (Datatypes.S (Z.to_nat j)) by lia.
  exact Hl.
Qed.
End Select.

Section BufferSplit.
Context {A : Type}.

Lemma slice_split (m : list A) first j n :
  0 <= first -> 0 <= j <= n ->
  slice m first n = slice m first j ++ slice m (first + j) (n - j).
Proof.
  intros H0 Hj. unfold slice.
  replace (Z.to_nat n) with (Z.to_nat j + Z.to_nat (n - j))%nat by lia.
  rewrite firstn_plus, skipn_skipn.
  replace (Z.to_nat j + Z.to_nat first)%nat with (Z.to_nat (first + j)) by lia.
  reflexivity.
Qed.

Lemma valid_load (m : list A) first n j :
  valid m first n -> 0 <= j < n -> exists x, load m (first + j) = Ret x.
Proof.
  intros (H0 & H1 & H2) Hj. apply load_in_range. lia.
Qed.
End BufferSplit.

Section CompactionLoop.
Context {A : Type}.
Variable m : list A.
Variables first n lo result : Z.
Variable out : list A.
Variable keep : Z -> bool.
Variable body : Z -> list A * Z -> outcome (list A * Z).
Variable done : list A.

Local Abbreviation tail j := (select keep lo (slice m (first + lo) (j - lo))).

Hypothesis Hvalid : valid m first n.
Hypothesis Hlo : 0 <= lo <= n.
Hypothesis Hresult : 0 <= result.
Hypothesis Hcap :
  result + Z.of_nat (length (done ++ tail n)) <= Z.of_nat (length out).
Hypothesis Hbody :
  forall j o cnt x,
    lo <= j < n -> load m (first + j) = Ret x ->
    body j (o, cnt)
    = if keep j then o' <- store o (result + cnt) x ;; Ret (o', cnt + 1)
      else Ret (o, cnt).

Lemma tail_step j x :
  lo <= j < n -> load m (first + j) = Ret x ->
  tail (j + 1) = tail j ++ (if keep j then [x] else []).
Proof.
  intros Hj Hx. destruct Hvalid as (H0 & H1 & H2).
  replace (j + 1 - lo) with (j - lo + 1) by lia.
  rewrite (slice_snoc m (first + lo) (j - lo) x); try lia.
  2:{ replace (first + lo + (j - lo)) with (first + j) by lia. exact Hx. }
  rewrite select_app. f_equal.
  rewrite length_slice by (unfold valid; lia).
  replace (lo + Z.of_nat (Z.to_nat (j - lo))) with j by lia.
  cbn [select]. destruct (keep j); reflexivity.
Qed.

Lemma tail_mono j :
  lo <= j <= n -> (length (tail j) <= length (tail n))%nat.
Proof.
  intros Hj. destruct Hvalid as (H0 & H1 & H2).
  rewrite (slice_split m (first + lo) (j - lo) (n - lo)) by lia.
  rewrite select_app, length_app. lia.
Qed.

(** A compaction loop over [[lo, n)] that starts with [done] already
    written appends the selected elements. *)
Lemma compaction_loop :
  for_range lo n body (splice out result done, Z.of_nat (length done))
  = Ret (splice out result (done ++ tail n),
         Z.of_nat (length (done ++ tail n))).
Proof.
  destruct
    (for_range_inv
       (fun j s => lo <= j <= n /\
                   s = (splice out result (done ++ tail j),
                        Z.of_nat (length (done ++ tail j))))
       body lo n (splice out result done, Z.of_nat (length done)))
    as (s' & Hs' & _ & ->).
  - lia.
  - split; [lia |]. rewrite Z.sub_diag, slice_zero. simpl.
    rewrite app_nil_r. reflexivity.
  - intros j t Hj (_ & ->).
    destruct (valid_load m first n j Hvalid) as (x & Hx); [lia |].
    rewrite (Hbody _ _ _ x Hj Hx). rewrite (tail_step j x Hj Hx).
    destruct (keep j) eqn:Ek.
    + assert (Hm := tail_mono (j + 1) ltac:(lia)).
      rewrite (tail_step j x Hj Hx), Ek in Hm.
      rewrite !length_app in Hm, Hcap. cbn [length] in Hm.
      rewrite store_splice_snoc by (rewrite ?length_app; lia).
      cbn [bind]. eexists. split; [reflexivity |]. split; [lia |].
      rewrite app_assoc. f_equal. rewrite !length_app. cbn [length]. lia.
    + rewrite app_nil_r. eexists. split; [reflexivity |].
      split; [lia | reflexivity].
  - exact Hs'.
Qed.
End CompactionLoop.

Section BufferMore.
Context {A : Type}.

Lemma store_load (m m' : list A) p v :
  store m p v = Ret m' -> load m' p = Ret v.
Proof.
  intros H. apply store_Ret in H. destruct H as [Hp ->].
  apply load_upd_same. assumption.
Qed.

Lemma load_cons_succ (x : A) (l : list A) j :
  0 <= j -> load (x :: l) (j + 1) = load l j.
Proof.
  intros Hj. unfold load.
  destruct (Z.ltb_spec (j + 1) 0); [lia |].
  destruct (Z.ltb_spec j 0); [lia |].
  replace (Z.to_nat (j + 1)) with (S (Z.to_nat j)) by lia. reflexivity.
Qed.

Lemma slice_cons (m : list A) first n x :
  0 <= first -> 0 < n -> load m first = Ret x ->
  slice m first n = x :: slice m (first + 1) (n - 1).
Proof.
  intros H0 Hn Hx. rewrite (slice_split m first 1 n) by lia.
  replace 1 with (0 + 1) at 1 by lia.
  rewrite (slice_snoc m first 0 x) by (rewrite ?Z.add_0_r; auto; lia).
  rewrite slice_zero. reflexivity.
Qed.
End BufferMore.

(** ** [simd_count], [simd_copy_if], [simd_copy_by_mask] *)

Section CopyIfFacts.
Context {A : Type}.
Variable pred : A -> bool.
Variable m : list A.
Variables first n : Z.
Hypothesis Hvalid : valid m first n.

Local Abbreviation hit := (hit pred m first).

Lemma select_hit :
  select hit 0 (slice m first n) = filter pred (slice m first n).
Proof.
  destruct Hvalid as (H0 & H1 & H2).
  apply select_filter. intros j x Hj Hx.
  assert (Hb := load_bounds (slice m first n) j x Hx).
  rewrite length_slice in Hb by assumption.
  rewrite load_slice in Hx by lia.
  unfold hit. rewrite Z.add_0_l, Hx. reflexivity.
Qed.

Lemma simd_count_spec :
  simd_count pred m first n
  = Ret (Z.of_nat (length (filter pred (slice m first n)))).
Proof.
  destruct Hvalid as (H0 & H1 & H2). unfold simd_count.
  match goal with |- for_range _ _ ?b _ = _ => set (body := b) end.
  destruct
    (for_range_inv
       (fun j c => 0 <= j <= n /\
                   c = Z.of_nat (length (filter pred (slice m first j))))
       body 0 n 0) as (c & Hc & _ & ->).
  - lia.
  - split; [lia | reflexivity].
  - intros j c Hj (_ & ->).
    destruct (valid_load m first n j Hvalid) as (x & Hx); [lia |].
    unfold body. rewrite Hx. cbn [bind].
    eexists. split; [reflexivity |]. split; [lia |].
    rewrite (slice_snoc m first j x) by (auto; lia).
    rewrite filter_app, length_app. cbn [filter].
    destruct (pred x); cbn [length]; lia.
  - exact Hc.
Qed.

Lemma simd_copy_if_spec out result :
  0 <= result ->
  result + Z.of_nat (length (filter pred (slice m first n)))
  <= Z.of_nat (length out) ->
  simd_copy_if pred m first n out result
  = Ret (splice out result (filter pred (slice m first n)),
         result + Z.of_nat (length (filter pred (slice m first n)))).
Proof.
  intros Hr Hcap. destruct Hvalid as (H0 & H1 & H2). unfold simd_copy_if.
  match goal with |- bind (for_range _ _ ?b _) _ = _ => set (body := b) end.
  pose proof (compaction_loop m first n 0 result out hit body []) as L.
  rewrite Z.add_0_r, Z.sub_0_r, select_hit, splice_nil in L.
  cbn [app length Z.of_nat] in L.
  rewrite L; try assumption; try lia; [reflexivity |].
  intros j o cnt x Hj Hx. unfold body, hit. rewrite Hx. cbn [bind].
  reflexivity.
Qed.

Lemma simd_copy_by_mask_loop_spec out result mk mask :
  0 <= result ->
  result + Z.of_nat (length (filter pred (slice m first n)))
  <= Z.of_nat (length out) ->
  (forall i x, 0 <= i < n -> load m (first + i) = Ret x ->
               load mk (mask + i) = Ret (pred x)) ->
  simd_copy_by_mask_loop m first n out result mk mask
  = Ret (splice out result (filter pred (slice m first n)),
         Z.of_nat (length (filter pred (slice m first n)))).
Proof.
  intros Hr Hcap Hmask. destruct Hvalid as (H0 & H1 & H2).
  unfold simd_copy_by_mask_loop.
  match goal with |- for_range _ _ ?b _ = _ => set (body := b) end.
  pose proof (compaction_loop m first n 0 result out hit body []) as L.
  rewrite Z.add_0_r, Z.sub_0_r, select_hit, splice_nil in L.
  cbn [app length Z.of_nat] in L.
  apply L; try assumption; try lia.
  intros j o cnt x Hj Hx. unfold body, hit.
  rewrite (Hmask j x) by (auto; lia). rewrite Hx. cbn [bind].
  reflexivity.
Qed.

Lemma simd_calc_mask_1_spec mk mask :
  valid mk mask n ->
  simd_calc_mask_1 pred m first n mk mask
  = Ret (splice mk mask (map pred (slice m first n)),
         Z.of_nat (length (filter pred (slice m first n)))).
Proof.
  intros (M0 & M1 & M2). destruct Hvalid as (H0 & H1 & H2).
  unfold simd_calc_mask_1.
  match goal with |- for_range _ _ ?b _ = _ => set (body := b) end.
  destruct
    (for_range_inv
       (fun j s => 0 <= j <= n /\
                   s = (splice mk mask (map pred (slice m first j)),
                        Z.of_nat (length (filter pred (slice m first j)))))
       body 0 n (mk, 0)) as (s & Hs & _ & ->).
  - lia.
  - split; [lia |]. rewrite slice_zero. cbn [map filter length].
    rewrite splice_nil. reflexivity.
  - intros j s Hj (_ & ->).
    destruct (valid_load m first n j Hvalid) as (x & Hx); [lia |].
    unfold body. rewrite Hx. cbn [bind].
    assert (Hlen : Z.of_nat (length (map pred (slice m first j))) = j).
    { rewrite length_map, length_slice by (unfold valid; lia). lia. }
    pose proof (store_splice_snoc mk mask (map pred (slice m first j))
                  (pred x) M0 ltac:(lia)) as St.
    rewrite Hlen in St. rewrite St. cbn [bind].
    rewrite (store_load _ _ _ _ St). cbn [bind].
    eexists. split; [reflexivity |]. split; [lia |].
    rewrite (slice_snoc m first j x) by (auto; lia).
    rewrite map_app, filter_app, length_app. cbn [map filter].
    f_equal. destruct (pred x); cbn [length Z.b2z]; lia.
  - exact Hs.
Qed.
End CopyIfFacts.

(** ** [simd_unique_copy] *)

Section UniqueFacts.
Context {A : Type}.
Variable pred : A -> A -> bool.

Local Abbreviation uniq_from := (uniq_from pred).
Local Abbreviation unique := (unique pred).

Lemma length_uniq_from prev l : (length (uniq_from prev l) <= length l)%nat.
Proof.
  revert prev; induction l as [| x l IH]; intros prev; simpl; [lia |].
  specialize (IH x). destruct (pred x prev); simpl; lia.
Qed.

Lemma length_unique l : (length (unique l) <= length l)%nat.
Proof.
  destruct l as [| x l]; simpl; [lia |].
  pose proof (length_uniq_from x l). lia.
Qed.

Hypothesis pred_sym : forall a b, pred a b = true -> pred b a = true.
Hypothesis pred_trans :
  forall a b c, pred a b = true -> pred b c = true -> pred a c = true.

Lemma pred_same_class a b z : pred a b = true -> pred z a = pred z b.
Proof.
  intros H. destruct (pred z a) eqn:E1, (pred z b) eqn:E2; try reflexivity.
  - rewrite (pred_trans z a b E1 H) in E2. discriminate.
  - rewrite (pred_trans z b a E2 (pred_sym a b H)) in E1. discriminate.
Qed.

Lemma uniq_from_stable l :
  forall prev prev',
    (forall z, pred z prev' = pred z prev) ->
    uniq_from prev' (uniq_from prev l) = uniq_from prev l.
Proof.
  induction l as [| x l IH]; intros prev prev' Heq; [reflexivity |].
  cbn [uniq_from]. destruct (pred x prev) eqn:E.
  - apply IH. intros z. rewrite Heq. symmetry.
    apply pred_same_class. assumption.
  - cbn [uniq_from]. rewrite Heq, E. f_equal. apply IH. reflexivity.
Qed.

Lemma unique_idempotent l : unique (unique l) = unique l.
Proof.
  destruct l as [| x l]; [reflexivity |].
  cbn [unique]. f_equal. apply uniq_from_stable. reflexivity.
Qed.
End UniqueFacts.

Section UniqueCopyFacts.
Context {A : Type}.
Variable pred : A -> A -> bool.
Variable m : list A.
Variables first n : Z.
Hypothesis Hvalid : valid m first n.

Local Abbreviation fresh := (fresh pred m first).

Lemma select_fresh l :
  forall i prev,
    load m (first + (i - 1)) = Ret prev ->
    (forall j, 0 <= j < Z.of_nat (length l) ->
               load m (first + i + j) = load l j) ->
    select fresh i l = uniq_from pred prev l.
Proof.
  induction l as [| x l IH]; intros i prev Hprev Hl; [reflexivity |].
  cbn [select uniq_from].
  assert (Hx : load m (first + i) = Ret x).
  { rewrite <- (Z.add_0_r (first + i)), Hl by (cbn [length]; lia).
    reflexivity. }
  assert (IH' : select fresh (i + 1) l = uniq_from pred x l).
  { apply IH.
    - replace (i + 1 - 1) with i by lia. assumption.
    - intros j Hj. rewrite <- (load_cons_succ x l j) by lia.
      rewrite <- Hl by (cbn [length]; lia). f_equal. lia. }
  unfold fresh at 1. rewrite Hx, Hprev, IH'.
  destruct (pred x prev); reflexivity.
Qed.

Lemma simd_unique_copy_spec out result :
  0 <= result ->
  result + Z.of_nat (length (unique pred (slice m first n)))
  <= Z.of_nat (length out) ->
  simd_unique_copy pred m first n out result
  = Ret (splice out result (unique pred (slice m first n)),
         result + Z.of_nat (length (unique pred (slice m first n)))).
Proof.
  intros Hr Hcap. destruct Hvalid as (H0 & H1 & H2). unfold simd_unique_copy.
  destruct (Z.eqb_spec n 0) as [-> | Hn].
  - rewrite slice_zero. cbn [unique length Z.of_nat].
    rewrite splice_nil, Z.add_0_r. reflexivity.
  - destruct (valid_load m first n 0 Hvalid) as (x0 & Hx0); [lia |].
    rewrite Hx0. cbn [bind]. rewrite Z.add_0_r in Hx0.
    rewrite (slice_cons m first n x0) in * by (auto; lia).
    cbn [unique] in *. cbn [length] in Hcap.
    pose proof (store_splice_snoc out result [] x0 Hr) as St.
    cbn [length Z.of_nat app] in St. rewrite splice_nil in St.
    rewrite St by lia. cbn [bind].
    match goal with |- bind (for_range _ _ ?b _) _ = _ => set (body := b) end.
    pose proof (compaction_loop m first n 1 result out fresh body [x0]) as L.
    rewrite (select_fresh (slice m (first + 1) (n - 1)) 1 x0) in L.
    + change (Z.of_nat (length [x0])) with 1 in L.
      cbn [app length] in L. rewrite L; try assumption; try lia.
      * cbn [bind]. reflexivity.
      * intros j o cnt x Hj Hx. unfold body, fresh. rewrite Hx. cbn [bind].
        destruct (valid_load m first n (j - 1) Hvalid) as (y & Hy); [lia |].
        rewrite Hy. cbn [bind]. destruct (pred x y); reflexivity.
    + replace (first + (1 - 1)) with first by lia. assumption.
    + intros j Hj. rewrite length_slice in Hj by (unfold valid; lia).
      rewrite load_slice by lia. reflexivity.
Qed.
End UniqueCopyFacts.

(** ** [simd_calc_mask_2] *)

Section PairMaskFacts.
Context {A : Type}.
Variable pred : A -> A -> bool.
Variable m : list A.
Variables first n : Z.

Local Abbreviation pair_flags := (pair_flags pred m first).

Lemma pair_flags_snoc j :
  0 <= j -> pair_flags (j + 1) = pair_flags j ++ [fresh pred m first j].
Proof.
  intros Hj. unfold pair_flags.
  replace (Z.to_nat (j + 1)) with (Z.to_nat j + 1)%nat by lia.
  rewrite seq_app, !map_app. cbn [seq map Nat.add].
  rewrite Z2Nat.id by lia. reflexivity.
Qed.

Lemma length_pair_flags j : length (pair_flags j) = Z.to_nat j.
Proof. unfold pair_flags. rewrite !length_map, length_seq. reflexivity. Qed.

Lemma simd_calc_mask_2_spec mk mask :
  0 <= n -> 1 <= first -> first + n <= Z.of_nat (length m) ->
  valid mk mask n ->
  simd_calc_mask_2 pred m first n mk mask
  = Ret (splice mk mask (pair_flags n),
         Z.of_nat (length (filter (fun b : bool => b) (pair_flags n)))).
Proof.
  intros Hn Hf Hl (M0 & M1 & M2). unfold simd_calc_mask_2.
  match goal with |- for_range _ _ ?b _ = _ => set (body := b) end.
  destruct
    (for_range_inv
       (fun j s => 0 <= j <= n /\
                   s = (splice mk mask (pair_flags j),
                        Z.of_nat (length (filter (fun b : bool => b)
                                            (pair_flags j)))))
       body 0 n (mk, 0)) as (s & Hs & _ & ->).
  - lia.
  - split; [lia |]. cbn. rewrite splice_nil. reflexivity.
  - intros j s Hj (_ & ->).
    destruct (load_in_range m (first + j)) as (x & Hx); [lia |].
    destruct (load_in_range m (first + (j - 1))) as (y & Hy); [lia |].
    unfold body. rewrite Hx, Hy. cbn [bind].
    assert (Hlen : Z.of_nat (length (pair_flags j)) = j).
    { rewrite length_pair_flags. lia. }
    pose proof (store_splice_snoc mk mask (pair_flags j)
                  (negb (pred x y)) M0 ltac:(lia)) as St.
    rewrite Hlen in St. rewrite St. cbn [bind].
    rewrite (store_load _ _ _ _ St). cbn [bind].
    eexists. split; [reflexivity |]. split; [lia |].
    rewrite pair_flags_snoc by lia. unfold fresh. rewrite Hx, Hy.
    rewrite filter_app, length_app. cbn [filter].
    f_equal. destruct (negb (pred x y)); cbn [length Z.b2z]; lia.
  - exact Hs.
Qed.
End PairMaskFacts.

(** ** Lane buffers *)

Section LaneFacts.
Variable v : Z -> Z.

(** The lane-filling loop of a block scan over the offsets [0 .. K - 1]:
    it records [v i] in [lane[i]] and accumulates the bitwise
    disjunction. *)
Lemma lane_fill (body : Z -> list Z * Z -> outcome (list Z * Z)) K lane :
  0 <= K <= 8 -> length lane = 8%nat ->
  (forall i l f, 0 <= i < K ->
     body i (l, f)
     = (l' <- store l i (v i) ;; Ret (l', Z.lor f (v i)))) ->
  exists lane' found,
    for_range 0 K body (lane, 0) = Ret (lane', found) /\
    length lane' = 8%nat /\
    (forall i, 0 <= i < K -> load lane' i = Ret (v i)) /\
    (forall i, K <= i -> load lane' i = load lane i) /\
    (found = 0 <-> forall i, 0 <= i < K -> v i = 0).
Proof.
  intros HK Hlen Hbody.
  destruct
    (for_range_inv
       (fun j s =>
          0 <= j <= K /\ length (fst s) = 8%nat /\
          (forall i, 0 <= i < j -> load (fst s) i = Ret (v i)) /\
          (forall i, j <= i -> load (fst s) i = load lane i) /\
          (snd s = 0 <-> forall i, 0 <= i < j -> v i = 0))
       body 0 K (lane, 0)) as ((lane', found) & Hs & HI).
  - lia.
  - cbn [fst snd]. repeat split; auto; try lia; intros; lia.
  - intros j (l, f) Hj (_ & Hl & Hlo & Hhi & Hz). cbn [fst snd] in *.
    rewrite Hbody by lia.
    rewrite store_in_range by (rewrite Hl; lia). cbn [bind].
    eexists. split; [reflexivity |]. cbn [fst snd].
    split; [lia |]. split; [rewrite length_upd; assumption |].
    split; [| split].
    + intros i Hi. destruct (Z.eq_dec i j) as [-> | Hne].
      * apply load_upd_same. rewrite Hl. lia.
      * rewrite load_upd_other by lia. apply Hlo. lia.
    + intros i Hi. rewrite load_upd_other by lia. apply Hhi. lia.
    + rewrite Z.lor_eq_0_iff, Hz. split.
      * intros (Ha & Hb) i Hi. destruct (Z.eq_dec i j) as [-> | Hne];
          [assumption | apply Ha; lia].
      * intros Ha. split; [intros i Hi |]; apply Ha; lia.
  - cbn [fst snd] in HI. destruct HI as (_ & HI).
    exists lane', found. split; [exact Hs | exact HI].
Qed.

(** The re-scan of the lane buffer finds the first lane that is not 0. *)
Lemma lane_scan_first_hit lane :
  (forall i, 0 <= i < 8 -> load lane i = Ret (v i)) ->
  exists r, lane_scan lane = Ret r /\
            first_hit (fun i => negb (v i =? 0)) 0 8 r.
Proof.
  intros Hl. unfold lane_scan, block_size.
  apply scan_range_first_hit; [lia |].
  intros j Hj. rewrite Hl by lia. reflexivity.
Qed.
End LaneFacts.

Lemma first_hit_ext b b' lo hi r :
  (forall j, lo <= j < hi -> b j = b' j) ->
  first_hit b lo hi r -> first_hit b' lo hi r.
Proof.
  intros He (H1 & H2 & H3). unfold first_hit. split; [assumption |]. split.
  - intros j Hj. rewrite <- He by lia. apply H2. assumption.
  - intros Hlt. rewrite <- He by lia. apply H3. assumption.
Qed.

Lemma first_hit_shift b lo hi k r :
  first_hit (fun i => b (k + i)) lo hi r ->
  first_hit b (k + lo) (k + hi) (k + r).
Proof.
  intros (H1 & H2 & H3). unfold first_hit. split; [lia |]. split.
  - intros j Hj. replace j with (k + (j - k)) by lia. apply H2. lia.
  - intros Hlt. apply H3. lia.
Qed.

Lemma first_hit_skip b lo mid hi r :
  lo <= mid ->
  (forall j, lo <= j < mid -> b j = false) ->
  first_hit b mid hi r -> first_hit b lo hi r.
Proof.
  intros Hle Hno (H1 & H2 & H3). unfold first_hit. split; [lia |]. split.
  - intros j Hj. destruct (Z.lt_ge_cases j mid); [apply Hno | apply H2]; lia.
  - assumption.
Qed.

Lemma first_hit_within b lo mid hi r :
  mid <= hi -> r < mid ->
  first_hit b lo mid r -> first_hit b lo hi r.
Proof.
  intros Hle Hlt (H1 & H2 & H3). unfold first_hit. split; [lia |]. split.
  - assumption.
  - intros _. apply H3. assumption.
Qed.

(** A block of eight offsets starting at [k]: when some recorded lane is
    set, the first set lane is the first hit of the whole range. *)
Lemma first_hit_block b k hi r :
  k + 8 <= hi ->
  ~ (forall i, 0 <= i < 8 -> b (k + i) = false) ->
  first_hit (fun i => b (k + i)) 0 8 r ->
  first_hit b k hi (k + r).
Proof.
  intros Hle Hsome Hr.
  assert (r < 8).
  { destruct Hr as (H1 & H2 & _).
    destruct (Z.lt_ge_cases r 8); [assumption |].
    exfalso. apply Hsome. intros i Hi. apply H2. lia. }
  apply first_hit_shift in Hr. rewrite Z.add_0_r in Hr.
  apply first_hit_within with (mid := k + 8); [lia | lia | assumption].
Qed.

(** ** Results of predicates *)

Lemma bool_int_faithful (b : bool) : int_faithful b.
Proof. destruct b; reflexivity. Qed.

(** ** [simd_first] *)

Section FirstFacts.
Context {A R : Type} `{PredResult R}.
Variable pred : A -> R.
Variable m : list A.

Local Abbreviation sat := (sat (as_cond pred) m).
Local Abbreviation lane_int := (lane_int pred m).

(** The scalar remainder tests the results as conditions. *)
Lemma simd_first_rest_spec fuel :
  forall last first,
    0 <= first <= last -> last <= Z.of_nat (length m) ->
    (Z.to_nat (last - first) < fuel)%nat ->
    exists r, simd_first_rest pred m fuel last first = Ret r /\
              first_hit sat first last r.
Proof.
  induction fuel as [| fuel IH]; intros last first Hf Hl Hfuel; [lia |].
  cbn [simd_first_rest]. destruct (Z.eqb_spec last first) as [-> | Hne].
  - exists first. split; [reflexivity |]. unfold first_hit.
    split; [lia |]. split; intros; lia.
  - destruct (load_in_range m first) as (x & Hx); [lia |].
    rewrite Hx. cbn [bind]. destruct (truth (pred x)) eqn:Ep.
    + exists first. split; [reflexivity |]. unfold first_hit.
      split; [lia |]. split; [intros; lia |].
      intros _. unfold sat, as_cond. rewrite Hx. assumption.
    + destruct (IH last (first + 1)) as (r & Hr & Hh); try lia.
      exists r. split; [assumption |].
      apply first_hit_skip with (mid := first + 1); [lia | | assumption].
      intros j Hj. replace j with first by lia. unfold sat, as_cond.
      rewrite Hx. assumption.
Qed.

(** A range shorter than a block goes straight to the scalar remainder. *)
Lemma simd_first_blocks_short fuel last first lane :
  last - first < block_size ->
  simd_first_blocks pred m (S fuel) last first lane
  = simd_first_rest pred m (S fuel) last first.
Proof.
  intros Hlt. cbn [simd_first_blocks].
  destruct (Z.geb_spec (last - first) block_size); [lia | reflexivity].
Qed.

Hypothesis Hfaithful : forall x, int_faithful (pred x).

Lemma lane_int_sat p : negb (lane_int p =? 0) = sat p.
Proof.
  unfold lane_int, sat. destruct (load m p) as [x | |]; try reflexivity.
  symmetry. apply Hfaithful.
Qed.

Lemma simd_first_blocks_spec fuel :
  forall last first lane,
    0 <= first <= last -> last <= Z.of_nat (length m) ->
    length lane = 8%nat ->
    (Z.to_nat (last - first) < fuel)%nat ->
    exists r, simd_first_blocks pred m fuel last first lane = Ret r /\
              first_hit sat first last r.
Proof.
  induction fuel as [| fuel IH]; intros last first lane Hf Hl Hlen Hfuel;
    [lia |].
  cbn [simd_first_blocks]. unfold block_size.
  destruct (Z.geb_spec (last - first) 8) as [Hge | Hlt].
  - match goal with |- context [for_range _ _ ?b _] => set (body := b) end.
    destruct (lane_fill (fun i => lane_int (first + i)) body 8 lane)
      as (lane' & found & Hfill & Hlen' & Hlo & _ & Hz);
      [lia | assumption | |].
    { intros i l f Hi. unfold body, lane_int.
      destruct (load_in_range m (first + i)) as (x & Hx); [lia |].
      rewrite Hx. reflexivity. }
    rewrite Hfill. cbn [bind]. destruct (Z.eqb_spec found 0) as [H0 | H0].
    + destruct (IH last (first + 8) lane') as (r & Hr & Hh); try lia;
        try assumption.
      exists r. split; [assumption |].
      apply first_hit_skip with (mid := first + 8); [lia | | assumption].
      intros j Hj. replace j with (first + (j - first)) by lia.
      rewrite <- lane_int_sat, (proj1 Hz H0) by lia. reflexivity.
    + destruct (lane_scan_first_hit (fun i => lane_int (first + i)) lane'
                  Hlo) as (r & Hr & Hh).
      rewrite Hr. cbn [bind]. exists (first + r). split; [reflexivity |].
      apply first_hit_ext with (b' := fun i => sat (first + i)) in Hh;
        [| intros; apply lane_int_sat].
      apply first_hit_block; [lia | | assumption].
      intros Hnone. apply H0. apply Hz. intros i Hi.
      specialize (Hnone i Hi). rewrite <- lane_int_sat in Hnone.
      destruct (Z.eqb_spec (lane_int (first + i)) 0);
        [assumption | discriminate].
  - apply simd_first_rest_spec; lia.
Qed.

Lemma simd_first_faithful fuel earlyexit first n :
  valid m first n -> (Z.to_nat n < fuel)%nat ->
  exists r, simd_first pred m fuel earlyexit first n = Ret r /\
            first_hit sat first (first + n) r.
Proof.
  intros (H0 & H1 & H2) Hfuel. unfold simd_first. destruct earlyexit.
  - destruct (scan_range_first_hit
                (fun i => x <- load m (first + i) ;; Ret (truth (pred x)))
                (fun i => sat (first + i)) 0 n) as (r & Hr & Hh).
    { lia. }
    { intros j Hj. unfold sat, as_cond.
      destruct (load_in_range m (first + j)) as (x & Hx); [lia |].
      rewrite Hx. reflexivity. }
    rewrite Hr. cbn [bind]. exists (first + r). split; [reflexivity |].
    apply first_hit_shift in Hh. rewrite Z.add_0_r in Hh. assumption.
  - apply simd_first_blocks_spec; try lia; reflexivity.
Qed.
End FirstFacts.

Lemma sat2_loads {A B : Type} (pred : A -> B -> bool) (m1 : list A)
    (m2 : list B) f1 f2 n :
  valid m1 f1 n -> valid m2 f2 n ->
  forall k, 0 <= k < n ->
  exists x y, load m1 (f1 + k) = Ret x /\ load m2 (f2 + k) = Ret y /\
              sat2 pred m1 m2 f1 f2 k = pred x y.
Proof.
  intros Hvalid1 Hvalid2 k Hk.
  destruct (valid_load m1 f1 n k Hvalid1 Hk) as (x & Hx).
  destruct (valid_load m2 f2 n k Hvalid2 Hk) as (y & Hy).
  exists x, y. unfold sat2. rewrite Hx, Hy. auto.
Qed.

Section First2Facts.
Context {A B R : Type} `{PredResult R}.
Variable pred : A -> B -> R.
Variable m1 : list A.
Variable m2 : list B.
Variables f1 f2 n : Z.
Hypothesis Hvalid1 : valid m1 f1 n.
Hypothesis Hvalid2 : valid m2 f2 n.

Local Abbreviation sat2 := (sat2 (as_cond2 pred) m1 m2 f1 f2).
Local Abbreviation lane_int2 := (lane_int2 pred m1 m2 f1 f2).

Lemma cond2_loads k :
  0 <= k < n ->
  exists x y, load m1 (f1 + k) = Ret x /\ load m2 (f2 + k) = Ret y /\
              sat2 k = truth (pred x y) /\ lane_int2 k = to_int (pred x y).
Proof.
  intros Hk.
  destruct (valid_load m1 f1 n k Hvalid1 Hk) as (x & Hx).
  destruct (valid_load m2 f2 n k Hvalid2 Hk) as (y & Hy).
  exists x, y. unfold sat2, lane_int2, as_cond2. rewrite Hx, Hy. auto.
Qed.

Lemma simd_first2_rest_spec fuel :
  forall d,
    0 <= d <= n -> (Z.to_nat (n - d) < fuel)%nat ->
    exists k, simd_first2_rest pred m1 m2 fuel (f1 + n) (f1 + d) (f2 + d)
              = Ret (f1 + k) /\
              first_hit sat2 d n k.
Proof.
  induction fuel as [| fuel IH]; intros d Hd Hfuel; [lia |].
  cbn [simd_first2_rest]. destruct (Z.eqb_spec (f1 + n) (f1 + d)) as [He | Hne].
  - exists n. split; [reflexivity |]. unfold first_hit.
    split; [lia |]. split; intros; lia.
  - destruct (cond2_loads d) as (x & y & Hx & Hy & Hs & _); [lia |].
    rewrite Hx, Hy. cbn [bind]. rewrite <- Hs. destruct (sat2 d) eqn:Ep.
    + exists d. split; [reflexivity |]. unfold first_hit.
      split; [lia |]. split; [intros; lia | auto].
    + destruct (IH (d + 1)) as (k & Hk & Hh); try lia.
      exists k. split.
      * rewrite <- Hk. f_equal; lia.
      * apply first_hit_skip with (mid := d + 1); [lia | | assumption].
        intros j Hj. replace j with d by lia. assumption.
Qed.

Hypothesis Hfaithful : forall x y, int_faithful (pred x y).

Lemma lane_int2_sat k : negb (lane_int2 k =? 0) = sat2 k.
Proof.
  unfold lane_int2, sat2, as_cond2.
  destruct (load m1 (f1 + k)) as [x | |]; try reflexivity.
  destruct (load m2 (f2 + k)) as [y | |]; try reflexivity.
  symmetry. apply Hfaithful.
Qed.

Lemma simd_first2_blocks_spec fuel :
  forall d lane,
    0 <= d <= n -> length lane = 8%nat ->
    (Z.to_nat (n - d) < fuel)%nat ->
    exists k, simd_first2_blocks pred m1 m2 fuel (f1 + n) (f1 + d) (f2 + d)
                lane = Ret (f1 + k) /\
              first_hit sat2 d n k.
Proof.
  induction fuel as [| fuel IH]; intros d lane Hd Hlen Hfuel; [lia |].
  cbn [simd_first2_blocks]. unfold block_size.
  destruct (Z.geb_spec (f1 + n - (f1 + d)) 8) as [Hge | Hlt].
  - match goal with |- context [for_range _ _ ?b _] => set (body := b) end.
    destruct (lane_fill (fun i => lane_int2 (d + i)) body 8 lane)
      as (lane' & found & Hfill & Hlen' & Hlo & _ & Hz);
      [lia | assumption | |].
    { intros i l f Hi. unfold body.
      destruct (cond2_loads (d + i)) as (x & y & Hx & Hy & _ & Hs); [lia |].
      rewrite Z.add_assoc in Hx, Hy. rewrite Hx, Hy, Hs. reflexivity. }
    rewrite Hfill. cbn [bind]. destruct (Z.eqb_spec found 0) as [H0 | H0].
    + destruct (IH (d + 8) lane') as (k & Hk & Hh); try lia; try assumption.
      exists k. split.
      * rewrite <- Hk. f_equal; lia.
      * apply first_hit_skip with (mid := d + 8); [lia | | assumption].
        intros j Hj. replace j with (d + (j - d)) by lia.
        rewrite <- lane_int2_sat, (proj1 Hz H0) by lia. reflexivity.
    + destruct (lane_scan_first_hit (fun i => lane_int2 (d + i)) lane' Hlo)
        as (r & Hr & Hh).
      rewrite Hr. cbn [bind]. exists (d + r). split; [f_equal; lia |].
      apply first_hit_ext with (b' := fun i => sat2 (d + i)) in Hh;
        [| intros; apply lane_int2_sat].
      apply first_hit_block; [lia | | assumption].
      intros Hnone. apply H0. apply Hz. intros i Hi.
      specialize (Hnone i Hi). rewrite <- lane_int2_sat in Hnone.
      destruct (Z.eqb_spec (lane_int2 (d + i)) 0);
        [assumption | discriminate].
  - apply simd_first2_rest_spec; lia.
Qed.

Lemma simd_first2_faithful fuel earlyexit :
  (Z.to_nat n < fuel)%nat ->
  exists k, simd_first2 pred m1 m2 fuel earlyexit f1 n f2 = Ret (f1 + k) /\
            first_hit sat2 0 n k.
Proof.
  intros Hfuel. assert (0 <= n) by (destruct Hvalid1; lia).
  unfold simd_first2. destruct earlyexit.
  - destruct (scan_range_first_hit
                (fun i => x <- load m1 (f1 + i) ;;
                          y <- load m2 (f2 + i) ;; Ret (truth (pred x y)))
                sat2 0 n) as (r & Hr & Hh).
    { lia. }
    { intros j Hj.
      destruct (cond2_loads j) as (x & y & Hx & Hy & Hs & _); [lia |].
      rewrite Hx, Hy, Hs. reflexivity. }
    rewrite Hr. cbn [bind]. exists r. split; [reflexivity | assumption].
  - destruct (simd_first2_blocks_spec fuel 0 lane0) as (k & Hk & Hh);
      try lia; try reflexivity.
    rewrite !Z.add_0_r in Hk. exists k. split; assumption.
Qed.
End First2Facts.

(** For a predicate that returns [bool]. *)
Lemma simd_first2_spec {A B : Type} (pred : A -> B -> bool) (m1 : list A)
    (m2 : list B) f1 f2 n :
  valid m1 f1 n -> valid m2 f2 n ->
  forall fuel earlyexit,
  (Z.to_nat n < fuel)%nat ->
  exists k, simd_first2 pred m1 m2 fuel earlyexit f1 n f2 = Ret (f1 + k) /\
            first_hit (sat2 pred m1 m2 f1 f2) 0 n k.
Proof.
  intros Hv1 Hv2 fuel earlyexit.
  exact (simd_first2_faithful pred m1 m2 f1 f2 n Hv1 Hv2
           (fun x y => bool_int_faithful (pred x y)) fuel earlyexit).
Qed.

(** ** [simd_or] *)

Section OrFacts.
Context {A : Type}.
Variable pred : A -> bool.
Variable m : list A.

Lemma simd_or_scan_spec k :
  forall first i,
    0 <= first + i -> first + i + Z.of_nat k <= Z.of_nat (length m) ->
    exists b, simd_or_scan pred m k first i = Ret b /\
              (b = true <->
               exists j, first + i <= j < first + i + Z.of_nat k /\
                         sat pred m j = true).
Proof.
  induction k as [| k IH]; intros first i H0 Hl.
  - exists false. split; [reflexivity |]. split; [discriminate |].
    intros (j & Hj & _). lia.
  - cbn [simd_or_scan].
    destruct (load_in_range m (first + i)) as (x & Hx); [lia |].
    rewrite Hx. cbn [bind]. destruct (pred x) eqn:Ep.
    + exists true. split; [reflexivity |]. split; [| reflexivity].
      intros _. exists (first + i). split; [lia |].
      unfold sat. rewrite Hx. assumption.
    + destruct (IH first (i + 1)) as (b & Hb & Hiff); try lia.
      exists b. split; [assumption |]. rewrite Hiff. split.
      * intros (j & Hj & Hs). exists j. split; [lia | assumption].
      * intros (j & Hj & Hs). exists j. split; [| assumption].
        destruct (Z.eq_dec j (first + i)) as [-> | Hne]; [| lia].
        unfold sat in Hs. rewrite Hx, Ep in Hs. discriminate.
Qed.

(** The reduction over the elements [[first, first + bsize)]: [flag] is
    cleared exactly when one of them satisfies [pred]. *)
Lemma simd_or_block_range first bsize :
  0 <= first -> 0 <= bsize -> first + bsize <= Z.of_nat (length m) ->
  exists flag,
    for_range 0 bsize
      (fun i flag => x <- load m (first + i) ;;
                     Ret (if pred x then 0 else flag)) 1 = Ret flag /\
    (flag = 0 <-> exists j, first <= j < first + bsize /\ sat pred m j = true).
Proof.
  intros H0 Hb Hl.
  match goal with |- context [for_range _ _ ?b _] => set (body := b) end.
  destruct
    (for_range_inv
       (fun j f => 0 <= j <= bsize /\ (f = 0 \/ f = 1) /\
                   (f = 0 <-> exists i, first <= i < first + j /\
                                        sat pred m i = true))
       body 0 bsize 1) as (flag & Hs & _ & _ & HI).
  - lia.
  - split; [lia |]. split; [auto |]. split; [lia |].
    intros (i & Hi & _). lia.
  - intros j f Hj (_ & Hf & Hz). unfold body.
    destruct (load_in_range m (first + j)) as (x & Hx); [lia |].
    rewrite Hx. cbn [bind]. eexists. split; [reflexivity |].
    split; [lia |]. destruct (pred x) eqn:Ep.
    + split; [auto |]. split; [| reflexivity]. intros _.
      exists (first + j). split; [lia |].
      unfold sat. rewrite Hx. assumption.
    + split; [assumption |]. rewrite Hz. split.
      * intros (i & Hi & Hs). exists i. split; [lia | assumption].
      * intros (i & Hi & Hs). exists i. split; [| assumption].
        destruct (Z.eq_dec i (first + j)) as [-> | Hne]; [| lia].
        unfold sat in Hs. rewrite Hx, Ep in Hs. discriminate.
  - exists flag. split; assumption.
Qed.

(** One block whose size an [int] counter can count. *)
Lemma simd_or_block first bsize :
  0 <= first -> 0 <= bsize <= int_max ->
  first + bsize <= Z.of_nat (length m) ->
  exists flag,
    for_int bsize
      (fun i flag => x <- load m (first + i) ;;
                     Ret (if pred x then 0 else flag)) 1 = Ret flag /\
    (flag = 0 <-> exists j, first <= j < first + bsize /\ sat pred m j = true).
Proof.
  intros H0 Hb Hl.
  destruct (simd_or_block_range first bsize) as (flag & Hflag & Hz); try lia.
  exists flag. split; [| assumption]. unfold for_int.
  replace (Z.min bsize (int_max + 1)) with bsize by (unfold int_max in *; lia).
  rewrite Hflag. cbn [bind].
  destruct (Z.gtb_spec bsize int_max); [lia | reflexivity].
Qed.

(** One block of more than [int_max] elements: the counter overflows
    once the elements up to [int_max] have been read. *)
Lemma simd_or_block_overflow first bsize :
  0 <= first -> int_max < bsize ->
  first + int_max + 1 <= Z.of_nat (length m) ->
  for_int bsize
    (fun i flag => x <- load m (first + i) ;;
                   Ret (if pred x then 0 else flag)) 1 = Fault.
Proof.
  intros H0 Hb Hl.
  destruct (simd_or_block_range first (int_max + 1)) as (flag & Hflag & _);
    try (unfold int_max in *; lia).
  unfold for_int.
  replace (Z.min bsize (int_max + 1)) with (int_max + 1) by lia.
  rewrite Hflag. cbn [bind].
  destruct (Z.gtb_spec bsize int_max); [reflexivity | lia].
Qed.



(** The early-exit body counts with the difference type. *)
Lemma simd_or_earlyexit_spec fuel first n :
  valid m first n ->
  exists b, simd_or pred m fuel true first n = Ret b /\
            (b = true <->
             exists j, first <= j < first + n /\ sat pred m j = true).
Proof.
  intros (H0 & H1 & H2). unfold simd_or.
  destruct (simd_or_scan_spec (Z.to_nat n) first 0) as (b & Hb & Hiff);
    try lia.
  exists b. split; [assumption |]. rewrite Hiff. split.
  - intros (j & Hj & Hs). exists j. split; [lia | assumption].
  - intros (j & Hj & Hs). exists j. split; [lia | assumption].
Qed.

(** A block without a match, when the sizes still double. *)
Lemma simd_or_blocks_double fuel last first bsize :
  0 <= first -> last <= Z.of_nat (length m) ->
  0 < bsize <= int_max -> 3 * bsize <= last - first ->
  (forall j, first <= j < first + bsize -> sat pred m j = false) ->
  simd_or_blocks pred m (S fuel) last first bsize
  = simd_or_blocks pred m fuel last (first + bsize) (2 * bsize).
Proof.
  intros H0 Hl Hb Hrem Hnone. cbn [simd_or_blocks].
  destruct (Z.eqb_spec last first) as [-> | Hne]; [lia |].
  destruct (simd_or_block first bsize) as (flag & Hflag & Hz); try lia.
  rewrite Hflag. cbn [bind]. destruct (Z.eqb_spec flag 0) as [Hf | Hf].
  - destruct (proj1 Hz Hf) as (j & Hj & Hs). rewrite Hnone in Hs by lia.
    discriminate.
  - assert (Hsh : Z.shiftl bsize 1 = 2 * bsize).
    { rewrite Z.shiftl_mul_pow2 by lia. lia. }
    rewrite Hsh.
    destruct (Z.geb_spec (last - (first + bsize)) (2 * bsize));
      [reflexivity | lia].
Qed.

(** The block of [2 ^ 31] elements. *)
Lemma simd_or_blocks_overflow fuel last first bsize :
  0 <= first -> last <= Z.of_nat (length m) ->
  int_max < bsize -> int_max + 1 <= last - first ->
  simd_or_blocks pred m (S fuel) last first bsize = Fault.
Proof.
  intros H0 Hl Hb Hrem. cbn [simd_or_blocks].
  destruct (Z.eqb_spec last first) as [-> | Hne]; [unfold int_max in *; lia |].
  rewrite simd_or_block_overflow by lia. reflexivity.
Qed.

(** From [2 ^ 32 - 4] elements on, none of the first [2 ^ 32 - 4]
    satisfying the predicate, the block-doubling body reaches a block of
    [2 ^ 31] elements, which its [int] counter cannot count. *)
Lemma simd_or_counter_overflow fuel first n :
  valid m first n -> 4294967292 <= n -> (30 <= fuel)%nat ->
  (forall j, first <= j < first + 4294967292 -> sat pred m j = false) ->
  simd_or pred m fuel false first n = Fault.
Proof.
  intros (H0 & H1 & H2) Hn Hfuel Hnone. unfold simd_or.
  replace (Z.min 4 n) with 4 by lia.
  do 30 (destruct fuel as [| fuel]; [lia |]). clear Hfuel.
  do 29 (rewrite simd_or_blocks_double;
         [| unfold int_max; lia ..
          | intros j Hj; apply Hnone; lia]).
  apply simd_or_blocks_overflow; unfold int_max; lia.
Qed.
End OrFacts.

(** ** [simd_adjacent_find] *)

Lemma scan_result_skip det ret lo lo' last r :
  lo <= lo' ->
  (forall j, lo <= j < lo' -> j < last - 1 -> det j = false) ->
  scan_result det ret lo' last r -> scan_result det ret lo last r.
Proof.
  intros Hle Hno [(-> & Hnone) | (k & Hk & Hdet & Hbefore & Hr)].
  - left. split; [reflexivity |]. intros j Hj.
    destruct (Z.lt_ge_cases j lo'); [apply Hno | apply Hnone]; lia.
  - right. exists k. split; [lia |]. split; [assumption |]. split.
    + intros j Hj.
      destruct (Z.lt_ge_cases j lo'); [apply Hno | apply Hbefore]; lia.
    + assumption.
Qed.

Lemma scan_result_ext det det' ret ret' lo last r :
  (forall j, lo <= j < last - 1 -> det j = det' j) ->
  (forall k, lo <= k < last - 1 -> ret k = ret' k) ->
  scan_result det ret lo last r -> scan_result det' ret' lo last r.
Proof.
  intros Hd Hr [(-> & Hnone) | (k & Hk & Hdet & Hbefore & ->)].
  - left. split; [reflexivity |]. intros j Hj. rewrite <- Hd by lia.
    apply Hnone. assumption.
  - right. exists k. split; [assumption |].
    split; [rewrite <- Hd by lia; assumption |].
    split; [| apply Hr; assumption].
    intros j Hj. rewrite <- Hd by lia. apply Hbefore. assumption.
Qed.

(** Two scans with the same test find the same first match. *)
Lemma scan_result_same det ret ret' lo last r r' :
  scan_result det ret lo last r -> scan_result det ret' lo last r' ->
  (r = last /\ r' = last) \/
  (exists k, lo <= k < last - 1 /\ det k = true /\
             (forall j, lo <= j < k -> det j = false) /\
             r = ret k /\ r' = ret' k).
Proof.
  intros [(-> & Hnone) | (k & Hk & Hdet & Hbefore & ->)]
         [(-> & Hnone') | (k' & Hk' & Hdet' & Hbefore' & ->)].
  - left. split; reflexivity.
  - rewrite Hnone in Hdet' by assumption. discriminate.
  - rewrite Hnone' in Hdet by assumption. discriminate.
  - right. exists k. assert (k' = k).
    { destruct (Z.lt_trichotomy k' k) as [Hlt | [He | Hgt]];
        [| assumption |].
      - rewrite Hbefore in Hdet' by lia. discriminate.
      - rewrite Hbefore' in Hdet by lia. discriminate. }
    subst k'. repeat split; auto; lia.
Qed.

Lemma scan_result_unique det ret lo last r r' :
  scan_result det ret lo last r -> scan_result det ret lo last r' -> r = r'.
Proof.
  intros Hr Hr'.
  destruct (scan_result_same _ _ _ _ _ _ _ Hr Hr')
    as [(-> & ->) | (k & _ & _ & _ & -> & ->)]; reflexivity.
Qed.

Section BlockArithmetic.
Variables first last : Z.

Lemma blocks_end_le : blocks_end first last <= last.
Proof. unfold blocks_end. Z.div_mod_to_equations. lia. Qed.

Lemma blocks_end_short :
  last - first < 8 -> blocks_end first last <= first.
Proof. unfold blocks_end. intros. Z.div_mod_to_equations. lia. Qed.

Lemma blocks_end_long :
  8 <= last - first -> first + 8 <= blocks_end first last.
Proof. unfold blocks_end. intros. Z.div_mod_to_equations. lia. Qed.

Lemma blocks_end_step :
  8 <= last - first -> blocks_end (first + 8) last = blocks_end first last.
Proof. unfold blocks_end. intros. Z.div_mod_to_equations. lia. Qed.

Lemma block_start_step k :
  8 <= last - first ->
  block_start (first + 8) last k = block_start first last k.
Proof.
  intros Hge. unfold block_start. rewrite blocks_end_step by assumption.
  destruct (k <? blocks_end first last); [| reflexivity].
  Z.div_mod_to_equations. lia.
Qed.

Lemma block_start_short k :
  last - first < 8 -> first <= k -> block_start first last k = k.
Proof.
  intros Hlt Hk. unfold block_start. pose proof (blocks_end_short Hlt).
  destruct (Z.ltb_spec k (blocks_end first last)); [lia | reflexivity].
Qed.

Lemma block_start_first i :
  8 <= last - first -> 0 <= i < 8 -> block_start first last (first + i) = first.
Proof.
  intros Hge Hi. unfold block_start. pose proof (blocks_end_long Hge).
  destruct (Z.ltb_spec (first + i) (blocks_end first last)); [| lia].
  Z.div_mod_to_equations. lia.
Qed.

Lemma block_start_bounds k :
  first <= k -> first <= block_start first last k <= k.
Proof.
  intros Hk. unfold block_start.
  destruct (k <? blocks_end first last); [| lia].
  Z.div_mod_to_equations. lia.
Qed.
End BlockArithmetic.

Section AdjacentFacts.
Context {A R : Type} `{PredResult R}.
Variable pred : A -> A -> R.
Variable m : list A.

Local Abbreviation adjc := (adj (as_cond2 pred) m).
Local Abbreviation pair_int := (pair_int pred m).
Local Abbreviation adj_lane := (adj_lane pred m).
Local Abbreviation adj_seen := (adj_seen pred m).

Lemma pair_loads j :
  0 <= j -> j + 1 < Z.of_nat (length m) ->
  exists x y, load m j = Ret x /\ load m (j + 1) = Ret y /\
              adjc j = truth (pred x y) /\ pair_int j = to_int (pred x y).
Proof.
  intros H0 Hl.
  destruct (load_in_range m j) as (x & Hx); [lia |].
  destruct (load_in_range m (j + 1)) as (y & Hy); [lia |].
  exists x, y. unfold adj, pair_int, as_cond2. rewrite Hx, Hy. auto.
Qed.

Lemma adj_seen_short first last j :
  last - first < 8 -> first <= j -> adj_seen first last j = adjc j.
Proof.
  intros Hlt Hj. unfold adj_seen. pose proof (blocks_end_short first last Hlt).
  destruct (Z.ltb_spec j (blocks_end first last)); [lia | reflexivity].
Qed.

Lemma adj_seen_step first last j :
  8 <= last - first -> adj_seen (first + 8) last j = adj_seen first last j.
Proof.
  intros Hge. unfold adj_seen. rewrite blocks_end_step by assumption.
  replace ((j - (first + 8)) mod 8) with ((j - first) mod 8);
    [reflexivity |].
  Z.div_mod_to_equations. lia.
Qed.

(** What the block at [first] sees at its offset [i]. *)
Lemma adj_seen_block first last i :
  8 <= last - first -> 0 <= i < 8 ->
  adj_seen first last (first + i)
  = if i <? 7 then negb (pair_int (first + i) =? 0) else adjc (first + 7).
Proof.
  intros Hge Hi. unfold adj_seen. pose proof (blocks_end_long first last Hge).
  destruct (Z.ltb_spec (first + i) (blocks_end first last)); [| lia].
  replace ((first + i - first) mod 8) with i
    by (Z.div_mod_to_equations; lia).
  cbn [andb]. destruct (Z.ltb_spec i 7); [reflexivity |].
  replace i with 7 by lia. reflexivity.
Qed.

(** The rest tests the results as conditions and returns the position
    of the match. *)
Lemma simd_adjacent_find_rest_spec fuel :
  forall last first,
    0 <= first -> last <= Z.of_nat (length m) ->
    (Z.to_nat (last - first) < fuel)%nat ->
    exists r, simd_adjacent_find_rest pred m fuel last first = Ret r /\
              scan_result adjc (fun k => k) first last r.
Proof.
  induction fuel as [| fuel IH]; intros last first H0 Hl Hfuel; [lia |].
  cbn [simd_adjacent_find_rest].
  destruct (Z.gtb_spec (last - first) 1) as [Hgt | Hle].
  - destruct (pair_loads first) as (x & y & Hx & Hy & Ha & _); try lia.
    rewrite Hx, Hy. cbn [bind]. rewrite <- Ha. destruct (adjc first) eqn:Ea.
    + exists first. split; [reflexivity |]. right. exists first.
      split; [lia |]. split; [assumption |]. split; [intros; lia |].
      reflexivity.
    + destruct (IH last (first + 1)) as (r & Hr & Hres); try lia.
      exists r. split; [assumption |].
      apply scan_result_skip with (lo' := first + 1); [lia | | assumption].
      intros j Hj _. replace j with first by lia. assumption.
  - exists last. split; [reflexivity |]. left. split; [reflexivity |].
    intros; lia.
Qed.

(** The block loop and the rest after it: the pairs are tested as
    [adj_seen] says; a match in a block is answered by the start of the
    block in the existence-only mode. *)
Lemma simd_adjacent_find_blocks_spec os fuel :
  forall last first lane,
    0 <= first -> last <= Z.of_nat (length m) ->
    length lane = 8%nat -> load lane 7 = Ret 0 ->
    (Z.to_nat (last - first) < fuel)%nat ->
    exists r,
      simd_adjacent_find_blocks pred m fuel os last first lane = Ret r /\
      scan_result (adj_seen first last)
        (if os then block_start first last else fun k => k) first last r.
Proof.
  induction fuel as [| fuel IH]; intros last first lane H0 Hl Hlen H7 Hfuel;
    [lia |].
  cbn [simd_adjacent_find_blocks]. unfold block_size.
  destruct (Z.geb_spec (last - first) 8) as [Hge | Hlt].
  2:{ destruct (simd_adjacent_find_rest_spec (S fuel) last first)
        as (r & Hr & Hres); try lia.
      exists r. split; [assumption |].
      apply scan_result_ext with (det := adjc) (ret := fun k => k);
        [| | assumption].
      - intros j Hj. symmetry. apply adj_seen_short; lia.
      - intros k Hk. destruct os; [| reflexivity].
        symmetry. apply block_start_short; lia. }
  change (8 - 1) with 7.
  match goal with |- context [for_range _ _ ?b _] => set (body := b) end.
  destruct (lane_fill (adj_lane first last) body 7 lane)
    as (lane1 & found1 & Hfill & Hlen1 & Hlo1 & Hhi1 & Hz1);
    [lia | assumption | |].
  { intros i l f Hi. unfold body, adj_lane.
    destruct (Z.ltb_spec i 7); [| lia].
    destruct (pair_loads (first + i)) as (x & y & Hx & Hy & _ & Ha); try lia.
    rewrite Hx, Hy, Ha. reflexivity. }
  rewrite Hfill. cbn [bind].
  (* the state after the boundary pair *)
  assert (Hb :
    exists lane2 found2,
      (if first + 8 <? last then
         x <- load m (first + 7) ;;
         y <- load m (first + 7 + 1) ;;
         if truth (pred x y) then
           lane <- store lane1 7 1 ;; Ret (lane, 1)
         else Ret (lane1, found1)
       else Ret (lane1, found1)) = Ret (lane2, found2) /\
      length lane2 = 8%nat /\
      (forall i, 0 <= i < 8 -> load lane2 i = Ret (adj_lane first last i)) /\
      (found2 = 0 <-> forall i, 0 <= i < 8 -> adj_lane first last i = 0)).
  { assert (Hkeep :
      (first + 8 <? last) && adjc (first + 7) = false ->
      length lane1 = 8%nat /\
      (forall i, 0 <= i < 8 -> load lane1 i = Ret (adj_lane first last i)) /\
      (found1 = 0 <-> forall i, 0 <= i < 8 -> adj_lane first last i = 0)).
    { intros E7.
      assert (E : adj_lane first last 7 = 0).
      { unfold adj_lane. change (7 <? 7) with false. cbv iota.
        rewrite E7. reflexivity. }
      split; [assumption |]. split.
      - intros i Hi. destruct (Z.eq_dec i 7) as [-> | Hne].
        + rewrite Hhi1, H7, E by lia. reflexivity.
        + apply Hlo1. lia.
      - rewrite Hz1. split.
        + intros Ha i Hi. destruct (Z.eq_dec i 7) as [-> | Hne];
            [assumption | apply Ha; lia].
        + intros Ha i Hi. apply Ha. lia. }
    destruct (Z.ltb_spec (first + 8) last) as [Hlt | Hnlt].
    - destruct (pair_loads (first + 7)) as (x & y & Hx & Hy & Ha & _);
        try lia.
      rewrite Hx, Hy. cbn [bind]. rewrite <- Ha. cbn [andb] in Hkeep.
      destruct (adjc (first + 7)) eqn:E7.
      + rewrite store_in_range by (rewrite Hlen1; lia). cbn [bind].
        eexists _, _. split; [reflexivity |].
        assert (E : adj_lane first last 7 = 1).
        { unfold adj_lane. change (7 <? 7) with false. cbv iota.
          destruct (Z.ltb_spec (first + 8) last); [| lia].
          rewrite E7. reflexivity. }
        split; [rewrite length_upd; assumption |]. split.
        * intros i Hi. destruct (Z.eq_dec i 7) as [-> | Hne].
          -- rewrite E. apply load_upd_same. rewrite Hlen1. lia.
          -- rewrite load_upd_other by lia. apply Hlo1. lia.
        * split; [lia |]. intros Ha'. rewrite Ha' in E by lia. discriminate.
      + exists lane1, found1. split; [reflexivity |]. apply Hkeep. reflexivity.
    - exists lane1, found1. split; [reflexivity |]. apply Hkeep. reflexivity. }
  destruct Hb as (lane2 & found2 & Hb & Hlen2 & Hlo2 & Hz2).
  rewrite Hb. cbn [bind].
  assert (Hlane : forall i, 0 <= i < 8 -> adj_lane first last i <> 0 ->
                            first + i < last - 1 /\
                            adj_seen first last (first + i) = true).
  { intros i Hi. rewrite adj_seen_block by lia. unfold adj_lane.
    destruct (Z.ltb_spec i 7).
    - intros Ha. split; [lia |].
      destruct (Z.eqb_spec (pair_int (first + i)) 0); [contradiction |].
      reflexivity.
    - destruct (Z.ltb_spec (first + 8) last); cbn [andb];
        [| cbn; congruence].
      destruct (adjc (first + 7)); [| cbn; congruence].
      intros _. split; [lia | reflexivity]. }
  assert (Hlane' : forall i, 0 <= i < 8 -> adj_lane first last i = 0 ->
                             first + i < last - 1 ->
                             adj_seen first last (first + i) = false).
  { intros i Hi. rewrite adj_seen_block by lia. unfold adj_lane.
    destruct (Z.ltb_spec i 7).
    - intros ->. reflexivity.
    - replace i with 7 by lia.
      destruct (Z.ltb_spec (first + 8) last); cbn [andb]; [| lia].
      destruct (adjc (first + 7)); [cbn; discriminate | reflexivity]. }
  destruct (Z.eqb_spec found2 0) as [Hf0 | Hf0].
  - destruct (IH last (first + 8) lane2) as (r & Hr & Hres); try lia;
      try assumption.
    { rewrite Hlo2 by lia. rewrite (proj1 Hz2 Hf0) by lia. reflexivity. }
    exists r. split; [assumption |].
    apply scan_result_skip with (lo' := first + 8); [lia | |].
    + intros j Hj Hj'. replace j with (first + (j - first)) by lia.
      apply Hlane'; [lia | | lia]. apply (proj1 Hz2 Hf0). lia.
    + revert Hres. apply scan_result_ext.
      * intros j Hj. apply adj_seen_step. assumption.
      * intros k Hk. destruct os; [| reflexivity].
        apply block_start_step. assumption.
  - destruct (lane_scan_first_hit (adj_lane first last) lane2 Hlo2)
      as (r0 & Hr0 & (Hr1 & Hr2 & Hr3)).
    assert (r0 < 8).
    { destruct (Z.lt_ge_cases r0 8); [assumption |].
      exfalso. apply Hf0. apply Hz2. intros i Hi.
      specialize (Hr2 i ltac:(lia)). cbn beta in Hr2.
      destruct (Z.eqb_spec (adj_lane first last i) 0);
        [assumption | discriminate]. }
    assert (Hne : adj_lane first last r0 <> 0).
    { specialize (Hr3 ltac:(lia)). cbn beta in Hr3. intros E.
      rewrite E in Hr3. discriminate. }
    destruct (Hlane r0 ltac:(lia) Hne) as (Hin & Hseen).
    assert (Hres : forall r ret, r = ret (first + r0) ->
                     scan_result (adj_seen first last) ret first last r).
    { intros r ret Hr. right. exists (first + r0). split; [lia |].
      split; [assumption |]. split; [| assumption].
      intros j Hj. replace j with (first + (j - first)) by lia.
      apply Hlane'; [lia | | lia].
      specialize (Hr2 (j - first) ltac:(lia)). cbn beta in Hr2.
      destruct (Z.eqb_spec (adj_lane first last (j - first)) 0);
        [assumption | discriminate]. }
    destruct os.
    + exists first. split; [reflexivity |]. apply Hres.
      symmetry. apply block_start_first; lia.
    + rewrite Hr0. cbn [bind]. exists (first + r0).
      split; [reflexivity |]. apply Hres. reflexivity.
Qed.

(** The kernel, for every predicate: the early-exit body tests the
    results as conditions and returns the position of the match in
    either mode. *)
Lemma simd_adjacent_find_scan fuel earlyexit first last os :
  0 <= first -> last <= Z.of_nat (length m) ->
  (Z.to_nat (last - first) < fuel)%nat ->
  exists r, simd_adjacent_find pred m fuel earlyexit first last os = Ret r /\
            scan_result (if earlyexit then adjc else adj_seen first last)
              (if earlyexit then fun k => k
               else if os then block_start first last else fun k => k)
              first last r.
Proof.
  intros H0 Hl Hfuel. unfold simd_adjacent_find.
  destruct (Z.ltb_spec (last - first) 2) as [Hlt | Hge].
  { exists last. split; [reflexivity |]. left. split; [reflexivity |].
    intros; lia. }
  destruct earlyexit.
  - destruct (scan_range_first_hit
                (fun i => x <- load m (first + i) ;;
                          y <- load m (first + i + 1) ;;
                          Ret (truth (pred x y)))
                (fun i => adjc (first + i)) 0 (last - first - 1))
      as (r & Hr & (Hh1 & Hh2 & Hh3)).
    { lia. }
    { intros j Hj.
      destruct (pair_loads (first + j)) as (x & y & Hx & Hy & Ha & _);
        try lia.
      rewrite Hx, Hy, Ha. reflexivity. }
    rewrite Hr. cbn [bind]. eexists. split; [reflexivity |].
    destruct (Z.ltb_spec r (last - first - 1)) as [Hlt | Hnlt].
    + right. exists (first + r). split; [lia |].
      split; [apply Hh3; assumption |]. split; [| reflexivity].
      intros j Hj. replace j with (first + (j - first)) by lia.
      apply Hh2. lia.
    + left. split; [reflexivity |]. intros j Hj.
      replace j with (first + (j - first)) by lia. apply Hh2. lia.
  - apply simd_adjacent_find_blocks_spec; try lia; reflexivity.
Qed.

(** For a predicate whose results convert to a non-zero [int] exactly
    when they are true, the lanes record what the conditions test. *)
Lemma adj_seen_faithful first last j :
  (forall x y, int_faithful (pred x y)) ->
  adj_seen first last j = adjc j.
Proof.
  intros Hfaithful. unfold adj_seen.
  destruct ((j <? blocks_end first last) && ((j - first) mod 8 <? 7));
    [| reflexivity].
  unfold pair_int, adj, as_cond2.
  destruct (load m j) as [x | |]; try reflexivity.
  destruct (load m (j + 1)) as [y | |]; try reflexivity.
  symmetry. apply Hfaithful.
Qed.

(** The exact mode for such a predicate: the first pair whose result is
    true. *)
Lemma simd_adjacent_find_exact fuel earlyexit first last :
  (forall x y, int_faithful (pred x y)) ->
  0 <= first -> last <= Z.of_nat (length m) ->
  (Z.to_nat (last - first) < fuel)%nat ->
  exists r,
    simd_adjacent_find pred m fuel earlyexit first last false = Ret r /\
    scan_result adjc (fun k => k) first last r.
Proof.
  intros Hfaithful H0 Hl Hfuel.
  destruct (simd_adjacent_find_scan fuel earlyexit first last false
              H0 Hl Hfuel) as (r & Hr & Hres).
  exists r. split; [assumption |]. revert Hres. apply scan_result_ext.
  - intros j Hj. destruct earlyexit; [reflexivity |].
    apply adj_seen_faithful. assumption.
  - intros k Hk. destruct earlyexit; reflexivity.
Qed.
End AdjacentFacts.

Section AdjacentBool.
Context {A : Type}.
Variable pred : A -> A -> bool.
Variable m : list A.

Local Abbreviation adj := (adj pred m).
Local Abbreviation adj_result := (adj_result pred m).

(** For a predicate that returns [bool]. *)
Lemma simd_adjacent_find_spec fuel earlyexit first last os :
  0 <= first -> last <= Z.of_nat (length m) ->
  (Z.to_nat (last - first) < fuel)%nat ->
  exists r, simd_adjacent_find pred m fuel earlyexit first last os = Ret r /\
            adj_result os first last r.
Proof.
  intros H0 Hl Hfuel.
  destruct (simd_adjacent_find_scan pred m fuel earlyexit first last os
              H0 Hl Hfuel) as (r & Hr & Hres).
  exists r. split; [assumption |].
  apply scan_result_ext
    with (det' := adj)
         (ret' := if earlyexit then fun k => k
                  else if os then block_start first last else fun k => k)
    in Hres.
  2:{ intros j Hj. destruct earlyexit; [reflexivity |].
      rewrite (adj_seen_faithful pred m)
        by (intros x y; apply bool_int_faithful).
      reflexivity. }
  2:{ reflexivity. }
  destruct Hres as [(-> & Hnone) | (k & Hk & Hadj & Hbefore & ->)].
  - left. split; [reflexivity | assumption].
  - right. exists k. split; [assumption |]. split; [assumption |].
    split; [assumption |].
    pose proof (block_start_bounds first last k ltac:(lia)).
    destruct earlyexit, os; lia.
Qed.
End AdjacentBool.

(** ** [simd_search] *)

Lemma zrange_cons lo len : zrange lo (S len) = lo :: zrange (lo + 1) len.
Proof.
  unfold zrange. cbn [seq map]. rewrite Z.add_0_r. f_equal.
  rewrite <- seq_shift, map_map. apply map_ext. intros k. lia.
Qed.

Section SearchFacts.
Context {A B : Type}.
Variable p : B -> A -> bool.
Variable m : list A.
Variable sm : list B.
Variables first last s_first s_last : Z.

Local Abbreviation n1 := (last - first).
Local Abbreviation n2 := (s_last - s_first).

Hypothesis Hvalid : valid m first n1.
Hypothesis Hsvalid : valid sm s_first n2.

Local Abbreviation match_at := (match_at p m sm first s_first s_last).
Local Abbreviation search_result :=
  (search_result p m sm first last s_first s_last).

Lemma window_test fuel1 earlyexit k :
  0 <= k <= n1 - n2 -> (Z.to_nat n2 < fuel1)%nat ->
  exists r, simd_first2 (not_pred p) sm m fuel1 earlyexit s_first n2
              (first + k) = Ret r /\
            (r = s_last <-> match_at k).
Proof.
  intros Hk Hfuel.
  destruct Hvalid as (H0 & H1 & H2). destruct Hsvalid as (S0 & S1 & S2).
  assert (Hw : valid m (first + k) n2) by (unfold valid; lia).
  destruct (simd_first2_spec (not_pred p) sm m s_first (first + k) n2
              Hsvalid Hw fuel1 earlyexit Hfuel) as (k' & Hr & Hh1 & Hh2 & Hh3).
  exists (s_first + k'). split; [assumption |].
  assert (Hsat : forall j, 0 <= j < n2 ->
            exists y x, load sm (s_first + j) = Ret y /\
                        load m (first + k + j) = Ret x /\
                        sat2 (not_pred p) sm m s_first (first + k) j
                        = negb (p y x)).
  { intros j Hj.
    destruct (sat2_loads (not_pred p) sm m s_first (first + k) n2
                Hsvalid Hw j Hj) as (y & x & Hy & Hx & Hs).
    exists y, x. auto. }
  split.
  - intros E j Hj. destruct (Hsat j Hj) as (y & x & Hy & Hx & Hs).
    exists y, x. split; [assumption |]. split; [assumption |].
    rewrite Hh2 in Hs by lia. destruct (p y x); [reflexivity | discriminate].
  - intros Hm. destruct (Z.lt_ge_cases k' n2) as [Hlt | Hge]; [| lia].
    exfalso. specialize (Hh3 Hlt).
    destruct (Hsat k' ltac:(lia)) as (y & x & Hy & Hx & Hs).
    destruct (Hm k' ltac:(lia)) as (y' & x' & Hy' & Hx' & Hp).
    rewrite Hy in Hy'. rewrite Hx in Hx'.
    inversion Hy'; inversion Hx'; subst.
    rewrite Hh3, Hp in Hs. discriminate.
Qed.

Lemma simd_search_loop_spec fuel1 earlyexit b_first fuel :
  (Z.to_nat n2 < fuel1)%nat ->
  forall d result,
    0 <= d <= n1 - n2 + 1 ->
    (Z.to_nat (n1 - n2 + 1 - d) < fuel)%nat ->
    exists r, simd_search_loop p m sm fuel fuel1 earlyexit s_first s_last
                b_first (n1 - n2 - d) (first + d) result = Ret r /\
              search_result b_first d result r.
Proof.
  intros Hfuel1.
  induction fuel as [| fuel IH]; intros d result Hd Hfuel; [lia |].
  cbn [simd_search_loop].
  destruct (Z.geb_spec (n1 - n2 - d) 0) as [Hge | Hlt].
  2:{ exists result. split; [reflexivity |]. left. split; [reflexivity |].
      intros; lia. }
  destruct (window_test fuel1 earlyexit d) as (w & Hw & Hiff);
    [lia | assumption |].
  rewrite Hw. cbn [bind].
  replace (n1 - n2 - d - 1) with (n1 - n2 - (d + 1)) by lia.
  replace (first + d + 1) with (first + (d + 1)) by lia.
  destruct (Z.eqb_spec w s_last) as [He | Hne].
  - apply Hiff in He. destruct b_first.
    + exists (first + d). split; [reflexivity |]. right. exists d.
      split; [lia |]. split; [assumption |]. split; [reflexivity |].
      intros; lia.
    + destruct (IH (d + 1) (first + d)) as (r & Hr & Hres); try lia.
      exists r. split; [assumption |].
      destruct Hres as [(-> & Hnone) | (k & Hk & Hm & -> & Hafter)].
      * right. exists d. split; [lia |]. split; [assumption |].
        split; [reflexivity |]. intros k' Hk'. apply Hnone. lia.
      * right. exists k. split; [lia |]. split; [assumption |].
        split; [reflexivity | assumption].
  - assert (Hno : ~ match_at d) by (intros Hm; apply Hne, Hiff, Hm).
    destruct (IH (d + 1) result) as (r & Hr & Hres); try lia.
    exists r. split; [assumption |].
    destruct Hres as [(-> & Hnone) | (k & Hk & Hm & -> & Hrest)].
    + left. split; [reflexivity |]. intros k Hk.
      destruct (Z.eq_dec k d) as [-> | Hkd]; [assumption | apply Hnone; lia].
    + right. exists k. split; [lia |]. split; [assumption |].
      split; [reflexivity |]. destruct b_first; [| assumption].
      intros k' Hk'.
      destruct (Z.eq_dec k' d) as [-> | Hkd]; [assumption | apply Hrest; lia].
Qed.

(** With the first-occurrence semantic the windows are compared from
    the first start position onward, up to the first that matches. *)
Lemma simd_search_probes_first fuel1 earlyexit fuel :
  (Z.to_nat n2 < fuel1)%nat ->
  forall d,
    0 <= d <= n1 - n2 + 1 ->
    (Z.to_nat (n1 - n2 + 1 - d) < fuel)%nat ->
    exists e,
      simd_search_probes p m sm fuel fuel1 earlyexit s_first s_last true
        (n1 - n2 - d) (first + d)
      = zrange (first + d) (Z.to_nat (e - d)) /\
      ((e = n1 - n2 + 1 /\ forall k, d <= k <= n1 - n2 -> ~ match_at k) \/
       (d < e <= n1 - n2 + 1 /\ match_at (e - 1) /\
        forall k, d <= k < e - 1 -> ~ match_at k)).
Proof.
  intros Hfuel1.
  induction fuel as [| fuel IH]; intros d Hd Hfuel; [lia |].
  cbn [simd_search_probes].
  destruct (Z.geb_spec (n1 - n2 - d) 0) as [Hge | Hlt].
  2:{ exists d. rewrite Z.sub_diag. split; [reflexivity |].
      left. split; [lia |]. intros; lia. }
  destruct (window_test fuel1 earlyexit d) as (w & Hw & Hiff);
    [lia | assumption |].
  rewrite Hw.
  replace (n1 - n2 - d - 1) with (n1 - n2 - (d + 1)) by lia.
  replace (first + d + 1) with (first + (d + 1)) by lia.
  destruct (Z.eqb_spec w s_last) as [He | Hne]; cbn [andb].
  - apply Hiff in He. exists (d + 1).
    replace (Z.to_nat (d + 1 - d)) with 1%nat by lia.
    split; [unfold zrange; cbn; f_equal; lia |].
    right. replace (d + 1 - 1) with d by lia.
    split; [lia |]. split; [assumption |]. intros; lia.
  - assert (Hno : ~ match_at d) by (intros Hm; apply Hne, Hiff, Hm).
    destruct (IH (d + 1)) as (e & Hp & He); try lia.
    assert (d + 1 <= e) by (destruct He; lia).
    exists e. replace (Z.to_nat (e - d)) with (S (Z.to_nat (e - (d + 1))))
      by lia.
    rewrite zrange_cons, Hp. split; [do 2 f_equal; lia |].
    destruct He as [(-> & Hnone) | (He & Hm & Hbefore)].
    + left. split; [reflexivity |]. intros k Hk.
      destruct (Z.eq_dec k d) as [-> | Hkd]; [assumption | apply Hnone; lia].
    + right. split; [lia |]. split; [assumption |]. intros k Hk.
      destruct (Z.eq_dec k d) as [-> | Hkd];
        [assumption | apply Hbefore; lia].
Qed.
End SearchFacts.

(** * The kernels against their specification *)

Section SatFacts.
Context {A : Type}.
Variable pred : A -> bool.
Variable m : list A.

Lemma sat_true j :
  sat pred m j = true <-> exists x, load m j = Ret x /\ pred x = true.
Proof.
  unfold sat. split.
  - destruct (load m j) as [x | |]; try discriminate. eauto.
  - intros (x & -> & Hp). assumption.
Qed.

Lemma sat_false j :
  sat pred m j = false <-> forall x, load m j = Ret x -> pred x = false.
Proof.
  unfold sat. split.
  - intros H x Hx. rewrite Hx in H. assumption.
  - intros H. destruct (load m j) as [x | |]; auto.
Qed.

Lemma count_positive first n :
  valid m first n ->
  0 < Z.of_nat (length (filter pred (slice m first n))) <->
  exists j, first <= j < first + n /\ sat pred m j = true.
Proof.
  intros Hv. pose proof (length_slice m first n Hv) as Hlen.
  destruct Hv as (H0 & H1 & H2). split.
  - intros Hpos.
    destruct (filter pred (slice m first n)) as [| x l] eqn:E;
      [cbn in Hpos; lia |].
    assert (Hin : In x (filter pred (slice m first n)))
      by (rewrite E; left; reflexivity).
    apply filter_In in Hin. destruct Hin as (Hin & Hp).
    apply In_nth_error in Hin. destruct Hin as (k & Hk).
    assert (k < length (slice m first n))%nat
      by (apply nth_error_Some; congruence).
    exists (first + Z.of_nat k). split; [lia |].
    apply sat_true. exists x. split; [| assumption].
    rewrite <- (load_slice m first n) by lia.
    apply load_Ret. rewrite Nat2Z.id. split; [lia | assumption].
  - intros (j & Hj & Hs). apply sat_true in Hs. destruct Hs as (x & Hx & Hp).
    replace j with (first + (j - first)) in Hx by lia.
    rewrite <- (load_slice m first n) in Hx by lia.
    apply load_Ret in Hx. destruct Hx as (_ & Hx).
    apply nth_error_In in Hx.
    assert (Hin : In x (filter pred (slice m first n)))
      by (apply filter_In; auto).
    destruct (filter pred (slice m first n)); [contradiction |].
    cbn [length]. lia.
Qed.

(** From [2 ^ 32 - 4] elements on, none of them satisfying the
    predicate: the counter of the block-doubling body overflows, where
    the early-exit body returns [false] and [simd_count] 0. *)
Lemma simd_or_overflow_none fuel first n :
  valid m first n -> 4294967292 <= n ->
  (forall j, first <= j < first + n -> sat pred m j = false) ->
  simd_or pred m (30 + fuel) false first n = Fault /\
  simd_or pred m (30 + fuel) true first n = Ret false /\
  simd_count pred m first n = Ret 0.
Proof.
  intros Hv Hn Hnone. split; [| split].
  - apply simd_or_counter_overflow; [assumption | lia | lia |].
    intros j Hj. apply Hnone. lia.
  - destruct (simd_or_earlyexit_spec pred m (30 + fuel) first n Hv)
      as (b & Hb & Hiff).
    rewrite Hb. destruct b; [| reflexivity].
    destruct (proj1 Hiff eq_refl) as (j & Hj & Hs).
    rewrite Hnone in Hs by assumption. discriminate.
  - rewrite simd_count_spec by assumption.
    destruct (Z.eq_dec (Z.of_nat (length (filter pred (slice m first n)))) 0)
      as [-> | Hne]; [reflexivity |].
    destruct (proj1 (count_positive first n Hv) ltac:(lia)) as (j & Hj & Hs).
    rewrite Hnone in Hs by assumption. discriminate.
Qed.
End SatFacts.

(** C1, failing input.  The eight elements [[1; 2; 7; 4; 5; 6; 7; 8]]
    and the predicate [is_seven_half], which returns the fraction 1/2 at
    7 and 0 elsewhere, as a predicate that returns [double] can.  The
    element at index 2 satisfies the predicate: its result is true as a
    condition.  The block scan records the result converted to [int],
    which is 0, and returns [last]; the early-exit body returns the
    index 2, and so does the scalar remainder of the block scan when
    only the first seven elements are passed.  The two-stream kernel
    does the same with [equal_half] on the same elements against
    [[0; 0; 7; 0; 0; 0; 0; 0]]. *)
Theorem simd_first_block_drops_fraction :
  truth (is_seven_half 7) = true /\
  simd_first is_seven_half [1; 2; 7; 4; 5; 6; 7; 8] 9 false 0 8 = Ret 8 /\
  simd_first is_seven_half [1; 2; 7; 4; 5; 6; 7; 8] 9 true 0 8 = Ret 2 /\
  simd_first is_seven_half [1; 2; 7; 4; 5; 6; 7] 9 false 0 7 = Ret 2 /\
  simd_first2 equal_half [1; 2; 7; 4; 5; 6; 7; 8] [0; 0; 7; 0; 0; 0; 0; 0]
    9 false 0 8 0 = Ret 8 /\
  simd_first2 equal_half [1; 2; 7; 4; 5; 6; 7; 8] [0; 0; 7; 0; 0; 0; 0; 0]
    9 true 0 8 0 = Ret 2.
Proof. repeat split. Qed.

(** X24. For every predicate whose results convert to a non-zero [int]
    exactly when they are true as a condition, as every predicate that
    returns [bool] does, first-match returns [last] exactly when no
    element satisfies the predicate; otherwise it returns the index of
    the first satisfying element.  This holds for the one-stream and the
    two-stream kernel, for the early-exit body and for the block scan of
    lane width 8 with its lane buffer and scalar remainder, and for
    every size [n], the sizes below 8 included. *)
Theorem simd_first_correct {A B R R2 : Type} `{PredResult R}
    `{PredResult R2} (pred : A -> R) (pred2 : A -> B -> R2)
    (m m1 : list A) (m2 : list B) (fuel : nat)
    (earlyexit : bool) (first n first1 first2 : Z) :
  (forall x, int_faithful (pred x)) ->
  (forall x y, int_faithful (pred2 x y)) ->
  valid m first n -> valid m1 first1 n -> valid m2 first2 n ->
  (Z.to_nat n < fuel)%nat ->
  (exists r,
     simd_first pred m fuel earlyexit first n = Ret r /\
     first <= r <= first + n /\
     (r = first + n <->
      forall j x, first <= j < first + n -> load m j = Ret x ->
                  truth (pred x) = false) /\
     (r <> first + n ->
      (exists x, load m r = Ret x /\ truth (pred x) = true) /\
      forall j x, first <= j < r -> load m j = Ret x ->
                  truth (pred x) = false))
  /\
  (exists k,
     simd_first2 pred2 m1 m2 fuel earlyexit first1 n first2
     = Ret (first1 + k) /\
     0 <= k <= n /\
     (k = n <->
      forall j x y, 0 <= j < n -> load m1 (first1 + j) = Ret x ->
                    load m2 (first2 + j) = Ret y ->
                    truth (pred2 x y) = false) /\
     (k <> n ->
      (exists x y, load m1 (first1 + k) = Ret x /\
                   load m2 (first2 + k) = Ret y /\
                   truth (pred2 x y) = true) /\
      forall j x y, 0 <= j < k -> load m1 (first1 + j) = Ret x ->
                    load m2 (first2 + j) = Ret y ->
                    truth (pred2 x y) = false)).
Proof.
  intros Hf Hf2 Hv Hv1 Hv2 Hfuel. split.
  - destruct (simd_first_faithful pred m Hf fuel earlyexit first n Hv Hfuel)
      as (r & Hr & Hb & Hbefore & Hat).
    exists r. split; [assumption |]. split; [assumption |]. split; [split |].
    + intros -> j x Hj Hx.
      apply (proj1 (sat_false (as_cond pred) m j)); auto.
    + intros Hnone. destruct (Z.eq_dec r (first + n)); [assumption |].
      exfalso. specialize (Hat ltac:(lia)). apply sat_true in Hat.
      destruct Hat as (x & Hx & Hp). unfold as_cond in Hp.
      rewrite (Hnone r x) in Hp by (auto; lia).
      discriminate.
    + intros Hne. split.
      * apply (proj1 (sat_true (as_cond pred) m r)). apply Hat. lia.
      * intros j x Hj Hx.
        apply (proj1 (sat_false (as_cond pred) m j)); auto.
  - destruct (simd_first2_faithful pred2 m1 m2 first1 first2 n Hv1 Hv2 Hf2
                fuel earlyexit Hfuel) as (k & Hr & Hb & Hbefore & Hat).
    assert (Hs : forall j x y, load m1 (first1 + j) = Ret x ->
                               load m2 (first2 + j) = Ret y ->
                               sat2 (as_cond2 pred2) m1 m2 first1 first2 j
                               = truth (pred2 x y)).
    { intros j x y Hx Hy. unfold sat2. rewrite Hx, Hy. reflexivity. }
    exists k. split; [assumption |]. split; [assumption |]. split; [split |].
    + intros -> j x y Hj Hx Hy. rewrite <- (Hs j x y Hx Hy). auto.
    + intros Hnone. destruct (Z.eq_dec k n); [assumption |].
      exfalso. specialize (Hat ltac:(lia)).
      destruct (sat2_loads (as_cond2 pred2) m1 m2 first1 first2 n Hv1 Hv2 k)
        as (x & y & Hx & Hy & E); [lia |].
      unfold as_cond2 in E at 2.
      rewrite E, (Hnone k x y) in Hat by (auto; lia). discriminate.
    + intros Hne. split.
      * destruct (sat2_loads (as_cond2 pred2) m1 m2 first1 first2 n Hv1 Hv2 k)
          as (x & y & Hx & Hy & E); [lia |].
        exists x, y. unfold as_cond2 in E at 2. rewrite <- E.
        auto with zarith.
      * intros j x y Hj Hx Hy. rewrite <- (Hs j x y Hx Hy). auto.
Qed.

(** An instance: eleven elements, the first match in the scalar remainder
    after one full block; the predicate of the one-stream kernel returns
    an [int], the remainder of a division by 2 with its sign. *)
Lemma simd_first_correct_witness :
  (exists r,
     simd_first (fun x => Z.rem (x + 1) 2)
       [1; 3; 5; 7; 9; 11; 13; 15; 17; 2; 1] 12 false 0 11
     = Ret r /\
     0 <= r <= 0 + 11 /\
     (r = 0 + 11 <->
      forall j x, 0 <= j < 0 + 11 ->
                  load [1; 3; 5; 7; 9; 11; 13; 15; 17; 2; 1] j = Ret x ->
                  truth (Z.rem (x + 1) 2) = false) /\
     (r <> 0 + 11 ->
      (exists x, load [1; 3; 5; 7; 9; 11; 13; 15; 17; 2; 1] r = Ret x /\
                 truth (Z.rem (x + 1) 2) = true) /\
      forall j x, 0 <= j < r ->
                  load [1; 3; 5; 7; 9; 11; 13; 15; 17; 2; 1] j = Ret x ->
                  truth (Z.rem (x + 1) 2) = false))
  /\
  (exists k,
     simd_first2 Z.eqb [1; 2; 3; 4; 5; 6; 7; 8; 9; 10; 11]
       [0; 1; 0; 1; 0; 1; 0; 1; 0; 10; 11] 12 false 0 11 0
     = Ret (0 + k) /\
     0 <= k <= 11 /\
     (k = 11 <->
      forall j x y, 0 <= j < 11 ->
                    load [1; 2; 3; 4; 5; 6; 7; 8; 9; 10; 11] (0 + j) = Ret x ->
                    load [0; 1; 0; 1; 0; 1; 0; 1; 0; 10; 11] (0 + j) = Ret y ->
                    truth (Z.eqb x y) = false) /\
     (k <> 11 ->
      (exists x y,
         load [1; 2; 3; 4; 5; 6; 7; 8; 9; 10; 11] (0 + k) = Ret x /\
         load [0; 1; 0; 1; 0; 1; 0; 1; 0; 10; 11] (0 + k) = Ret y /\
         truth (Z.eqb x y) = true) /\
      forall j x y, 0 <= j < k ->
                    load [1; 2; 3; 4; 5; 6; 7; 8; 9; 10; 11] (0 + j) = Ret x ->
                    load [0; 1; 0; 1; 0; 1; 0; 1; 0; 10; 11] (0 + j) = Ret y ->
                    truth (Z.eqb x y) = false)).
Proof.
  apply (simd_first_correct (fun x => Z.rem (x + 1) 2) Z.eqb
           [1; 3; 5; 7; 9; 11; 13; 15; 17; 2; 1]
           [1; 2; 3; 4; 5; 6; 7; 8; 9; 10; 11]
           [0; 1; 0; 1; 0; 1; 0; 1; 0; 10; 11] 12 false 0 11 0 0);
    try (unfold valid; simpl; lia).
  - intros x. reflexivity.
  - intros x y. apply bool_int_faithful.
Defined.

(** C4, failing input.  A range of [2 ^ 32 - 4] elements, all 1, and the
    predicate [Z.even]: no element satisfies it, so that [simd_count]
    returns 0 and the early-exit body of [simd_or] returns [false].  The
    block-doubling body scans blocks of 4, 8, ..., [2 ^ 30] elements,
    which end at the element [2 ^ 31 - 4], and then a block of [2 ^ 31]
    elements, which its counter, an [int], cannot count: the increment
    at [int_max] overflows. *)
Theorem simd_or_blocks_counter_overflow :
  let m := repeat 1 (Z.to_nat 4294967292) in
  simd_or Z.even m 30 false 0 4294967292 = Fault /\
  simd_or Z.even m 30 true 0 4294967292 = Ret false /\
  simd_count Z.even m 0 4294967292 = Ret 0.
Proof.
  intros m.
  assert (Hlen : length m = Z.to_nat 4294967292) by apply repeat_length.
  assert (Hall : forall x, In x m -> x = 1)
    by (intros x Hx; apply (repeat_spec _ _ _ Hx)).
  clearbody m.
  apply simd_or_overflow_none.
  - unfold valid. lia.
  - lia.
  - intros j _. apply sat_false. intros x Hx. apply load_Ret in Hx.
    destruct Hx as (_ & Hx). apply nth_error_In in Hx.
    rewrite (Hall x Hx). reflexivity.
Qed.



(** C2. Copy-if writes exactly the elements of the range that satisfy the
    predicate, in their order, at the consecutive output positions that
    start at [result]; the number written is what count returns; for
    [n = 0] nothing is written. *)
Theorem simd_copy_if_filter {A : Type} (pred : A -> bool) (m : list A)
    (first n : Z) (out : list A) (result : Z) :
  valid m first n -> 0 <= result ->
  result + Z.of_nat (length (filter pred (slice m first n)))
  <= Z.of_nat (length out) ->
  exists out' cnt,
    simd_copy_if pred m first n out result = Ret (out', result + cnt) /\
    simd_count pred m first n = Ret cnt /\
    out' = splice out result (filter pred (slice m first n)) /\
    slice out' result cnt = filter pred (slice m first n) /\
    cnt = Z.of_nat (length (filter pred (slice m first n))) /\
    (n = 0 -> out' = out /\ cnt = 0).
Proof.
  intros Hv Hr Hcap.
  exists (splice out result (filter pred (slice m first n))),
         (Z.of_nat (length (filter pred (slice m first n)))).
  split; [apply simd_copy_if_spec; assumption |].
  split; [apply simd_count_spec; assumption |].
  split; [reflexivity |].
  split; [apply slice_splice; assumption |].
  split; [reflexivity |].
  intros ->. rewrite slice_zero. cbn [filter length Z.of_nat].
  rewrite splice_nil. auto.
Qed.

(** An instance: two even elements copied to the positions 1 and 2. *)
Lemma simd_copy_if_filter_witness :
  exists out' cnt,
    simd_copy_if Z.even [1; 3; 4; 7; 9; 11; 13; 15; 17; 2; 1] 0 11
      [0; 0; 0; 0; 0] 1 = Ret (out', 1 + cnt) /\
    simd_count Z.even [1; 3; 4; 7; 9; 11; 13; 15; 17; 2; 1] 0 11 = Ret cnt /\
    out' = splice [0; 0; 0; 0; 0] 1
             (filter Z.even
                (slice [1; 3; 4; 7; 9; 11; 13; 15; 17; 2; 1] 0 11)) /\
    slice out' 1 cnt
    = filter Z.even (slice [1; 3; 4; 7; 9; 11; 13; 15; 17; 2; 1] 0 11) /\
    cnt = Z.of_nat
            (length
               (filter Z.even
                  (slice [1; 3; 4; 7; 9; 11; 13; 15; 17; 2; 1] 0 11))) /\
    (11 = 0 -> out' = [0; 0; 0; 0; 0] /\ cnt = 0).
Proof.
  apply (simd_copy_if_filter Z.even [1; 3; 4; 7; 9; 11; 13; 15; 17; 2; 1]
           0 11 [0; 0; 0; 0; 0] 1); unfold valid; simpl; lia.
Defined.

(** C5. With a mask that holds [pred (element[i])] at every index
    [i < n], copy-by-mask writes the same elements to the same output
    positions as copy-if. *)
Theorem simd_copy_by_mask_agrees {A : Type} (pred : A -> bool) (m : list A)
    (first n : Z) (out : list A) (result : Z) (mk : list bool) (mask : Z) :
  valid m first n -> 0 <= result ->
  result + Z.of_nat (length (filter pred (slice m first n)))
  <= Z.of_nat (length out) ->
  (forall i x, 0 <= i < n -> load m (first + i) = Ret x ->
               load mk (mask + i) = Ret (pred x)) ->
  exists out' cnt,
    simd_copy_if pred m first n out result = Ret (out', result + cnt) /\
    simd_copy_by_mask m first n out result mk mask = Ret (out', tt) /\
    simd_copy_by_mask_loop m first n out result mk mask = Ret (out', cnt) /\
    slice out' result cnt = filter pred (slice m first n).
Proof.
  intros Hv Hr Hcap Hmask.
  exists (splice out result (filter pred (slice m first n))),
         (Z.of_nat (length (filter pred (slice m first n)))).
  pose proof (simd_copy_by_mask_loop_spec pred m first n Hv out result mk mask
                Hr Hcap Hmask) as L.
  split; [apply simd_copy_if_spec; assumption |].
  split; [unfold simd_copy_by_mask; rewrite L; reflexivity |].
  split; [assumption |].
  apply slice_splice; assumption.
Qed.

(** An instance: the mask of the even elements of [[1; 4; 6; 7]]. *)
Lemma simd_copy_by_mask_agrees_witness :
  exists out' cnt,
    simd_copy_if Z.even [1; 4; 6; 7] 0 4 [0; 0; 0] 0 = Ret (out', 0 + cnt) /\
    simd_copy_by_mask [1; 4; 6; 7] 0 4 [0; 0; 0] 0 [false; true; true; false] 0
    = Ret (out', tt) /\
    simd_copy_by_mask_loop [1; 4; 6; 7] 0 4 [0; 0; 0] 0
      [false; true; true; false] 0 = Ret (out', cnt) /\
    slice out' 0 cnt = filter Z.even (slice [1; 4; 6; 7] 0 4).
Proof.
  apply (simd_copy_by_mask_agrees Z.even [1; 4; 6; 7] 0 4 [0; 0; 0] 0
           [false; true; true; false] 0); unfold valid; simpl; try lia.
  intros i x Hi.
  assert (E : i = 0 \/ i = 1 \/ i = 2 \/ i = 3) by lia.
  destruct E as [-> | [-> | [-> | ->]]]; cbn; intros H; inversion H;
    reflexivity.
Defined.

Section SpliceAccess.
Context {A : Type}.

Lemma load_splice_in (m : list A) result l i :
  0 <= result -> result + Z.of_nat (length l) <= Z.of_nat (length m) ->
  0 <= i < Z.of_nat (length l) ->
  load (splice m result l) (result + i) = load l i.
Proof.
  intros Hr Hcap Hi.
  rewrite <- (load_slice (splice m result l) result (Z.of_nat (length l)))
    by lia.
  rewrite slice_splice by assumption. reflexivity.
Qed.

Lemma load_splice_out (m : list A) result l q :
  0 <= result -> result + Z.of_nat (length l) <= Z.of_nat (length m) ->
  q < result \/ result + Z.of_nat (length l) <= q ->
  load (splice m result l) q = load m q.
Proof.
  intros Hr Hcap Hq. unfold load.
  destruct (Z.ltb_spec q 0) as [| Hq0]; [reflexivity |].
  unfold splice.
  assert (Hlen : length (firstn (Z.to_nat result) m) = Z.to_nat result)
    by (rewrite length_firstn; lia).
  destruct Hq as [Hq | Hq].
  - rewrite nth_error_app1 by (rewrite Hlen; lia). rewrite nth_error_firstn.
    destruct (Nat.ltb_spec (Z.to_nat q) (Z.to_nat result)); [reflexivity | lia].
  - rewrite nth_error_app2 by (rewrite Hlen; lia). rewrite Hlen.
    rewrite nth_error_app2 by lia.
    rewrite nth_error_skipn.
    replace (Z.to_nat result + length l
             + (Z.to_nat q - Z.to_nat result - length l))%nat
      with (Z.to_nat q) by lia.
    reflexivity.
Qed.
End SpliceAccess.

Section PairMaskAccess.
Context {A : Type}.
Variable pred : A -> A -> bool.
Variable m : list A.
Variable first : Z.

Lemma load_pair_flags n i :
  0 <= i < n -> load (pair_flags pred m first n) i = Ret (fresh pred m first i).
Proof.
  intros Hi. apply load_Ret. split; [lia |]. unfold pair_flags.
  rewrite !nth_error_map, nth_error_seq.
  destruct (Nat.ltb_spec (Z.to_nat i) (Z.to_nat n)); [| lia].
  cbn [option_map Nat.add]. rewrite Z2Nat.id by lia. reflexivity.
Qed.
End PairMaskAccess.

(** C3, as the code has it.  The pairwise mask kernel computes
    [mask[i] = !pred(first[i], first[i - 1])] for every index [i] of
    [[0, n)], index 0 included: it reads the element before the first
    element of the range and writes [mask[0]].  A caller has to pass a
    range whose first element has a predecessor in the buffer.  Entries
    of the mask outside [[mask, mask + n)] are left as they were, and the
    kernel returns the number of [true] entries it wrote. *)
Theorem simd_calc_mask_2_all_indices {A : Type} (pred : A -> A -> bool)
    (m : list A) (first n : Z) (mk : list bool) (mask : Z) :
  0 <= n -> 1 <= first -> first + n <= Z.of_nat (length m) ->
  valid mk mask n ->
  exists mk' count,
    simd_calc_mask_2 pred m first n mk mask = Ret (mk', count) /\
    (forall i, 0 <= i < n ->
       exists x y, load m (first + i) = Ret x /\
                   load m (first + (i - 1)) = Ret y /\
                   load mk' (mask + i) = Ret (negb (pred x y))) /\
    (forall q, q < mask \/ mask + n <= q -> load mk' q = load mk q) /\
    count = Z.of_nat (length (filter (fun b : bool => b) (slice mk' mask n))).
Proof.
  intros Hn Hf Hl Hmv.
  pose proof (simd_calc_mask_2_spec pred m first n mk mask Hn Hf Hl Hmv) as E.
  destruct Hmv as (M0 & M1 & M2).
  assert (Hlen : Z.of_nat (length (pair_flags pred m first n)) = n).
  { rewrite length_pair_flags. lia. }
  eexists _, _. split; [exact E |]. split; [| split].
  - intros i Hi.
    destruct (load_in_range m (first + i)) as (x & Hx); [lia |].
    destruct (load_in_range m (first + (i - 1))) as (y & Hy); [lia |].
    exists x, y. split; [assumption |]. split; [assumption |].
    rewrite load_splice_in by lia. rewrite load_pair_flags by lia.
    unfold fresh. rewrite Hx, Hy. reflexivity.
  - intros q Hq. apply load_splice_out; lia.
  - pose proof (slice_splice mk mask (pair_flags pred m first n) M0
                  ltac:(lia)) as SS.
    rewrite Hlen in SS. rewrite SS. reflexivity.
Qed.

(** An instance: the range that starts at the second element of
    [[1; 2; 2; 3; 3; 3; 4]]. *)
Lemma simd_calc_mask_2_all_indices_witness :
  exists mk' count,
    simd_calc_mask_2 Z.eqb [1; 2; 2; 3; 3; 3; 4] 1 6
      [true; true; true; true; true; true; true] 1 = Ret (mk', count) /\
    (forall i, 0 <= i < 6 ->
       exists x y, load [1; 2; 2; 3; 3; 3; 4] (1 + i) = Ret x /\
                   load [1; 2; 2; 3; 3; 3; 4] (1 + (i - 1)) = Ret y /\
                   load mk' (1 + i) = Ret (negb (Z.eqb x y))) /\
    (forall q, q < 1 \/ 1 + 6 <= q ->
               load mk' q
               = load [true; true; true; true; true; true; true] q) /\
    count = Z.of_nat (length (filter (fun b : bool => b) (slice mk' 1 6))).
Proof.
  apply (simd_calc_mask_2_all_indices Z.eqb [1; 2; 2; 3; 3; 3; 4] 1 6
           [true; true; true; true; true; true; true] 1);
    unfold valid; simpl; lia.
Defined.

(** C3, counterexample.  The ranges [[1, 2)] of the buffers [[7; 7]] and
    [[5; 7]] hold the same element, yet the kernel returns different
    masks: it has read the element at index 0, before the range.  In the
    first run [mask[0]] is overwritten ([true] becomes [false]).  When
    the range starts at the beginning of the buffer, the read before it
    is a fault. *)
Lemma simd_calc_mask_2_index_0 :
  simd_calc_mask_2 Z.eqb [7; 7] 1 1 [true] 0 = Ret ([false], 0) /\
  simd_calc_mask_2 Z.eqb [5; 7] 1 1 [true] 0 = Ret ([true], 1) /\
  simd_calc_mask_2 Z.eqb [7] 0 1 [true] 0 = Fault.
Proof. repeat split. Qed.

Section CopyByMaskAny.
Context {A : Type}.
Variable m : list A.
Variables first n : Z.
Variable mk : list bool.
Variable mask : Z.
Hypothesis Hvalid : valid m first n.
Hypothesis Hmvalid : valid mk mask n.

Local Abbreviation mask_bit := (mask_bit mk mask).

Lemma simd_copy_by_mask_loop_any out result :
  valid out result n ->
  simd_copy_by_mask_loop m first n out result mk mask
  = Ret (splice out result (select mask_bit 0 (slice m first n)),
         Z.of_nat (length (select mask_bit 0 (slice m first n)))).
Proof.
  intros (R0 & R1 & R2). pose proof (length_slice m first n Hvalid) as Hlen.
  destruct Hvalid as (H0 & H1 & H2).
  unfold simd_copy_by_mask_loop.
  match goal with |- for_range _ _ ?b _ = _ => set (body := b) end.
  pose proof (compaction_loop m first n 0 result out mask_bit body []) as L.
  rewrite Z.add_0_r, Z.sub_0_r, splice_nil in L.
  cbn [app length Z.of_nat] in L.
  apply L; try assumption; try lia.
  - pose proof (length_select mask_bit 0 (slice m first n)). lia.
  - intros j o cnt x Hj Hx. unfold body, mask_bit.
    destruct (valid_load mk mask n j Hmvalid) as (b & Hb); [lia |].
    rewrite Hb. cbn [bind]. rewrite Hx. reflexivity.
Qed.
End CopyByMaskAny.

Lemma load_map {A B : Type} (f : A -> B) (l : list A) j x :
  load l j = Ret x -> load (map f l) j = Ret (f x).
Proof.
  intros H. apply load_Ret in H. destruct H as (Hj & H).
  apply load_Ret. split; [assumption |]. apply map_nth_error. assumption.
Qed.

(** X16. The two-pass path agrees with the one-pass path: with the mask
    that [simd_calc_mask_1] computes, [simd_copy_by_mask] leaves the
    output buffer that [simd_copy_if] leaves, and the count of the mask
    kernel is the number of elements that [simd_copy_if] returns. *)
Lemma simd_mask_then_compact {A : Type} (pred : A -> bool) (m : list A)
    (first n : Z) (out : list A) (result : Z) (mk : list bool) (mask : Z) :
  valid m first n -> valid mk mask n -> 0 <= result ->
  result + Z.of_nat (length (filter pred (slice m first n)))
  <= Z.of_nat (length out) ->
  exists mk' count out',
    simd_calc_mask_1 pred m first n mk mask = Ret (mk', count) /\
    simd_copy_by_mask m first n out result mk' mask = Ret (out', tt) /\
    simd_copy_if pred m first n out result = Ret (out', result + count).
Proof.
  intros Hv Hmv Hr Hcap.
  pose proof (length_slice m first n Hv) as Hlen.
  destruct Hv as (H0 & H1 & H2). destruct Hmv as (M0 & M1 & M2).
  assert (Hv : valid m first n) by (unfold valid; lia).
  assert (Hmv : valid mk mask n) by (unfold valid; lia).
  eexists _, _, _. split; [apply simd_calc_mask_1_spec; assumption |].
  split; [| apply simd_copy_if_spec; assumption].
  unfold simd_copy_by_mask.
  rewrite (simd_copy_by_mask_loop_spec pred m first n Hv out result); auto.
  intros i x Hi Hx.
  rewrite load_splice_in by (rewrite ?length_map; lia).
  apply load_map. rewrite load_slice by lia. assumption.
Qed.

(** C6, as the code has it.  Copy-if and unique-copy return one past the
    last output position they wrote, that is [result] plus the number of
    elements written, and that number is at most [n].  Copy-by-mask is
    declared [void]: it returns no value; the number of elements it
    writes, the final value of its counter, is at most [n] as well. *)
Theorem compaction_returns {A : Type} (pred : A -> bool)
    (pred2 : A -> A -> bool) (m : list A) (first n : Z) (out : list A)
    (result : Z) (mk : list bool) (mask : Z) :
  valid m first n -> valid out result n -> valid mk mask n ->
  (exists l,
     l = filter pred (slice m first n) /\
     simd_copy_if pred m first n out result
     = Ret (splice out result l, result + Z.of_nat (length l)) /\
     Z.of_nat (length l) <= n) /\
  (exists l,
     l = unique pred2 (slice m first n) /\
     simd_unique_copy pred2 m first n out result
     = Ret (splice out result l, result + Z.of_nat (length l)) /\
     Z.of_nat (length l) <= n) /\
  (exists l,
     l = select (mask_bit mk mask) 0 (slice m first n) /\
     simd_copy_by_mask m first n out result mk mask
     = Ret (splice out result l, tt) /\
     simd_copy_by_mask_loop m first n out result mk mask
     = Ret (splice out result l, Z.of_nat (length l)) /\
     Z.of_nat (length l) <= n).
Proof.
  intros Hv (R0 & R1 & R2) Hmv.
  pose proof (length_slice m first n Hv) as Hlen.
  assert (Hle : forall l : list A,
             (length l <= length (slice m first n))%nat ->
             Z.of_nat (length l) <= n) by (intros; lia).
  split; [| split].
  - exists (filter pred (slice m first n)). split; [reflexivity |].
    pose proof (filter_length_le pred (slice m first n)) as F.
    split; [apply simd_copy_if_spec; auto; lia | auto].
  - exists (unique pred2 (slice m first n)). split; [reflexivity |].
    pose proof (length_unique pred2 (slice m first n)) as F.
    split; [apply simd_unique_copy_spec; auto; lia | auto].
  - exists (select (mask_bit mk mask) 0 (slice m first n)).
    split; [reflexivity |].
    pose proof (length_select (mask_bit mk mask) 0 (slice m first n)) as F.
    pose proof (simd_copy_by_mask_loop_any m first n mk mask Hv Hmv out result
                  (conj R0 (conj R1 R2))) as L.
    split; [unfold simd_copy_by_mask; rewrite L; reflexivity |].
    split; [assumption | auto].
Qed.

(** An instance: the three kernels on [[1; 4; 6; 7]]. *)
Lemma compaction_returns_witness :
  (exists l,
     l = filter Z.even (slice [1; 4; 6; 7] 0 4) /\
     simd_copy_if Z.even [1; 4; 6; 7] 0 4 [0; 0; 0; 0] 0
     = Ret (splice [0; 0; 0; 0] 0 l, 0 + Z.of_nat (length l)) /\
     Z.of_nat (length l) <= 4) /\
  (exists l,
     l = unique Z.eqb (slice [1; 4; 6; 7] 0 4) /\
     simd_unique_copy Z.eqb [1; 4; 6; 7] 0 4 [0; 0; 0; 0] 0
     = Ret (splice [0; 0; 0; 0] 0 l, 0 + Z.of_nat (length l)) /\
     Z.of_nat (length l) <= 4) /\
  (exists l,
     l = select (mask_bit [true; false; false; true] 0) 0
           (slice [1; 4; 6; 7] 0 4) /\
     simd_copy_by_mask [1; 4; 6; 7] 0 4 [0; 0; 0; 0] 0
       [true; false; false; true] 0
     = Ret (splice [0; 0; 0; 0] 0 l, tt) /\
     simd_copy_by_mask_loop [1; 4; 6; 7] 0 4 [0; 0; 0; 0] 0
       [true; false; false; true] 0
     = Ret (splice [0; 0; 0; 0] 0 l, Z.of_nat (length l)) /\
     Z.of_nat (length l) <= 4).
Proof.
  apply (compaction_returns Z.even Z.eqb [1; 4; 6; 7] 0 4 [0; 0; 0; 0] 0
           [true; false; false; true] 0); unfold valid; simpl; lia.
Defined.

(** C6, counterexample.  Copy-by-mask hands the same value back to its
    caller whether it wrote one element or none: the value it returns
    does not tell the number of elements written. *)
Lemma simd_copy_by_mask_returns_unit :
  simd_copy_by_mask [5] 0 1 [0] 0 [true] 0 = Ret ([5], tt) /\
  simd_copy_by_mask_loop [5] 0 1 [0] 0 [true] 0 = Ret ([5], 1) /\
  simd_copy_by_mask [5] 0 1 [0] 0 [false] 0 = Ret ([0], tt) /\
  simd_copy_by_mask_loop [5] 0 1 [0] 0 [false] 0 = Ret ([0], 0).
Proof. repeat split. Qed.

(** C7. Unique-copy is idempotent.  For a symmetric and transitive
    predicate, as every equivalence is, a second run of unique-copy over
    the output of a first run returns the same number of elements and
    writes the same elements.  The first run keeps element 0 and every
    later element that the predicate does not relate to the element
    before it ([unique]). *)
Theorem simd_unique_copy_idempotent {A : Type} (pred : A -> A -> bool)
    (m : list A) (first n : Z) (out : list A) (result : Z)
    (out2 : list A) (result2 : Z) :
  (forall a b, pred a b = true -> pred b a = true) ->
  (forall a b c, pred a b = true -> pred b c = true -> pred a c = true) ->
  valid m first n -> valid out result n -> valid out2 result2 n ->
  exists out1 cnt,
    simd_unique_copy pred m first n out result = Ret (out1, result + cnt) /\
    0 <= cnt <= n /\
    slice out1 result cnt = unique pred (slice m first n) /\
    exists out3,
      simd_unique_copy pred out1 result cnt out2 result2
      = Ret (out3, result2 + cnt) /\
      slice out3 result2 cnt = slice out1 result cnt.
Proof.
  intros Hsym Htrans Hv (R0 & R1 & R2) (Q0 & Q1 & Q2).
  pose proof (length_slice m first n Hv) as Hlen.
  pose proof (simd_unique_copy_spec pred m first n Hv out result R0) as E1.
  pose proof (length_unique pred (slice m first n)) as HU.
  pose proof (unique_idempotent pred Hsym Htrans (slice m first n)) as HUU.
  remember (unique pred (slice m first n)) as U eqn:EU.
  exists (splice out result U), (Z.of_nat (length U)).
  split; [apply E1; lia |].
  split; [lia |].
  assert (HS : slice (splice out result U) result (Z.of_nat (length U)) = U)
    by (apply slice_splice; lia).
  split; [assumption |].
  assert (Hv1 : valid (splice out result U) result (Z.of_nat (length U))).
  { unfold valid. rewrite length_splice by lia. lia. }
  pose proof (simd_unique_copy_spec pred (splice out result U) result
                (Z.of_nat (length U)) Hv1 out2 result2 Q0) as E.
  rewrite HS, HUU in E.
  exists (splice out2 result2 U). split; [apply E; lia |].
  rewrite HS. apply slice_splice; lia.
Qed.

(** An instance: [[1; 2; 2; 3; 3; 3; 4]] with equality. *)
Lemma simd_unique_copy_idempotent_witness :
  exists out1 cnt,
    simd_unique_copy Z.eqb [1; 2; 2; 3; 3; 3; 4] 0 7 [0; 0; 0; 0; 0; 0; 0] 0
    = Ret (out1, 0 + cnt) /\
    0 <= cnt <= 7 /\
    slice out1 0 cnt = unique Z.eqb (slice [1; 2; 2; 3; 3; 3; 4] 0 7) /\
    exists out3,
      simd_unique_copy Z.eqb out1 0 cnt [9; 9; 9; 9; 9; 9; 9] 0
      = Ret (out3, 0 + cnt) /\
      slice out3 0 cnt = slice out1 0 cnt.
Proof.
  apply (simd_unique_copy_idempotent Z.eqb [1; 2; 2; 3; 3; 3; 4] 0 7
           [0; 0; 0; 0; 0; 0; 0] 0 [9; 9; 9; 9; 9; 9; 9] 0);
    unfold valid; simpl; intros; lia.
Defined.

Section AdjacentModes.
Context {A : Type}.
Variable pred : A -> A -> bool.
Variable m : list A.

Lemma adj_true j :
  adj pred m j = true <->
  exists x y, load m j = Ret x /\ load m (j + 1) = Ret y /\ pred x y = true.
Proof.
  unfold adj. split.
  - destruct (load m j) as [x | |]; try discriminate.
    destruct (load m (j + 1)) as [y | |]; try discriminate. eauto.
  - intros (x & y & -> & -> & Hp). assumption.
Qed.
End AdjacentModes.

(** C9, as the code has it.  For every range and every binary predicate,
    the call with [or_semantic = true] returns a value different from
    [last] if and only if the call with [or_semantic = false] does.  The
    value it returns is in general not [first]: in the block loop it is
    the start of the block of eight that holds the result of the exact
    mode ([block_start]); in the rest after the blocks and in the
    early-exit body it is the result of the exact mode itself.  For a
    predicate whose results convert to a non-zero [int] exactly when
    they are true as a condition, as every predicate that returns [bool]
    does, the result of the exact mode is the start of the first
    matching adjacent pair, and it differs from [last] exactly when
    there is a matching adjacent pair. *)
Theorem simd_adjacent_find_modes_agree {A R : Type} `{PredResult R}
    (pred : A -> A -> R) (m : list A) (fuel : nat) (earlyexit : bool)
    (first last : Z) :
  0 <= first -> last <= Z.of_nat (length m) ->
  (Z.to_nat (last - first) < fuel)%nat ->
  exists rt rf,
    simd_adjacent_find pred m fuel earlyexit first last true = Ret rt /\
    simd_adjacent_find pred m fuel earlyexit first last false = Ret rf /\
    (rt <> last <-> rf <> last) /\
    rt = (if earlyexit then rf else block_start first last rf) /\
    (rf <> last -> first <= rt <= rf) /\
    ((forall x y, int_faithful (pred x y)) ->
     (rf <> last <->
      exists j x y, first <= j < last - 1 /\ load m j = Ret x /\
                    load m (j + 1) = Ret y /\ truth (pred x y) = true) /\
     (rf <> last ->
      (exists x y, load m rf = Ret x /\ load m (rf + 1) = Ret y /\
                   truth (pred x y) = true) /\
      forall j x y, first <= j < rf -> load m j = Ret x ->
                    load m (j + 1) = Ret y -> truth (pred x y) = false)).
Proof.
  intros H0 Hl Hfuel.
  destruct (simd_adjacent_find_scan pred m fuel earlyexit first last true
              H0 Hl Hfuel) as (rt & Ht & Rt).
  destruct (simd_adjacent_find_scan pred m fuel earlyexit first last false
              H0 Hl Hfuel) as (rf & Hf & Rf).
  exists rt, rf. split; [assumption |]. split; [assumption |].
  assert (Hid : (if earlyexit then fun k : Z => k
                 else if false then block_start first last else fun k => k)
                = fun k => k) by (destruct earlyexit; reflexivity).
  rewrite Hid in Rf. clear Hid.
  pose proof (blocks_end_le first last) as Hend.
  destruct (scan_result_same _ _ _ _ _ _ _ Rt Rf)
    as [(-> & ->) | (k & Hk & Hdet & Hbefore & -> & ->)].
  - split; [reflexivity |]. split.
    { destruct earlyexit; [reflexivity |]. unfold block_start.
      destruct (Z.ltb_spec last (blocks_end first last)); [lia | reflexivity]. }
    split; [congruence |]. intros Hfaithful. split; [split |]; try congruence.
    intros (j & x & y & Hj & Hx & Hy & Hp). exfalso.
    destruct Rf as [(_ & Hnone) | (k & Hk & _ & _ & Hr)]; [| lia].
    specialize (Hnone j Hj).
    assert (E : adj (as_cond2 pred) m j = false).
    { destruct earlyexit; [assumption |].
      rewrite <- (adj_seen_faithful pred m first last j Hfaithful).
      assumption. }
    unfold adj, as_cond2 in E. rewrite Hx, Hy, Hp in E. discriminate.
  - pose proof (block_start_bounds first last k ltac:(lia)) as Hbs.
    assert (Hrt : (if earlyexit then fun k : Z => k
                   else if true then block_start first last else fun k => k) k
                  = if earlyexit then k else block_start first last k)
      by (destruct earlyexit; reflexivity).
    rewrite Hrt. clear Hrt.
    split; [destruct earlyexit; split; intros _; lia |].
    split; [reflexivity |].
    split; [intros _; destruct earlyexit; lia |].
    intros Hfaithful.
    assert (E : forall j, (if earlyexit then adj (as_cond2 pred) m
                           else adj_seen pred m first last) j
                          = adj (as_cond2 pred) m j).
    { intros j. destruct earlyexit; [reflexivity |].
      apply adj_seen_faithful. assumption. }
    rewrite E in Hdet.
    assert (Hat : exists x y, load m k = Ret x /\ load m (k + 1) = Ret y /\
                              truth (pred x y) = true).
    { apply (proj1 (adj_true (as_cond2 pred) m k)). assumption. }
    split; [split |].
    + intros _. destruct Hat as (x & y & Hx & Hy & Hp). exists k, x, y. auto.
    + intros _. lia.
    + intros _. split; [assumption |].
      intros j x y Hj Hx Hy. specialize (Hbefore j Hj). rewrite E in Hbefore.
      unfold adj, as_cond2 in Hbefore. rewrite Hx, Hy in Hbefore. assumption.
Qed.

(** An instance: seventeen elements, the matching pair at the index 9, in
    the second block, which starts at the index 8. *)
Lemma simd_adjacent_find_modes_agree_witness :
  exists rt rf,
    simd_adjacent_find Z.eqb
      [1; 2; 3; 4; 5; 6; 7; 8; 9; 10; 10; 11; 12; 13; 14; 15; 16] 18 false
      0 17 true = Ret rt /\
    simd_adjacent_find Z.eqb
      [1; 2; 3; 4; 5; 6; 7; 8; 9; 10; 10; 11; 12; 13; 14; 15; 16] 18 false
      0 17 false = Ret rf /\
    (rt <> 17 <-> rf <> 17) /\
    rt = block_start 0 17 rf /\
    (rf <> 17 -> 0 <= rt <= rf) /\
    (rf <> 17 <->
     exists j x y,
       0 <= j < 17 - 1 /\
       load [1; 2; 3; 4; 5; 6; 7; 8; 9; 10; 10; 11; 12; 13; 14; 15; 16] j
       = Ret x /\
       load [1; 2; 3; 4; 5; 6; 7; 8; 9; 10; 10; 11; 12; 13; 14; 15; 16]
         (j + 1) = Ret y /\
       Z.eqb x y = true) /\
    (rf <> 17 ->
     (exists x y,
        load [1; 2; 3; 4; 5; 6; 7; 8; 9; 10; 10; 11; 12; 13; 14; 15; 16] rf
        = Ret x /\
        load [1; 2; 3; 4; 5; 6; 7; 8; 9; 10; 10; 11; 12; 13; 14; 15; 16]
          (rf + 1) = Ret y /\
        Z.eqb x y = true) /\
     forall j x y,
       0 <= j < rf ->
       load [1; 2; 3; 4; 5; 6; 7; 8; 9; 10; 10; 11; 12; 13; 14; 15; 16] j
       = Ret x ->
       load [1; 2; 3; 4; 5; 6; 7; 8; 9; 10; 10; 11; 12; 13; 14; 15; 16]
         (j + 1) = Ret y ->
       Z.eqb x y = false).
Proof.
  destruct (simd_adjacent_find_modes_agree Z.eqb
              [1; 2; 3; 4; 5; 6; 7; 8; 9; 10; 10; 11; 12; 13; 14; 15; 16]
              18 false 0 17)
    as (rt & rf & Ht & Hf & Hiff & Hrt & Hb & Hfaithful);
    [simpl; lia .. |].
  destruct Hfaithful as (Hex & Hfirst);
    [intros x y; apply bool_int_faithful |].
  exists rt, rf.
  split; [exact Ht |]. split; [exact Hf |]. split; [exact Hiff |].
  split; [exact Hrt |]. split; [exact Hb |].
  split; [exact Hex | exact Hfirst].
Defined.

(** C9, counterexample.  On [[1; 2; 2]] the existence-only mode returns
    the position 1 of the matching pair, which is not [first], although
    the exact mode returns a value different from [last]. *)
Lemma simd_adjacent_find_or_semantic_not_first :
  simd_adjacent_find Z.eqb [1; 2; 2] 4 false 0 3 true = Ret 1 /\
  simd_adjacent_find Z.eqb [1; 2; 2] 4 false 0 3 false = Ret 1 /\
  ~ (1 = 0 <-> 1 <> 3).
Proof. repeat split. intros [_ H]. specialize (H ltac:(lia)). lia. Qed.

(** The same with the early-exit body, and in the block loop, where the
    existence-only mode returns the start of the block that holds the
    match. *)
Example simd_adjacent_find_or_semantic_earlyexit :
  simd_adjacent_find Z.eqb [1; 2; 2] 4 true 0 3 true = Ret 1.
Proof. reflexivity. Qed.

Example simd_adjacent_find_or_semantic_block :
  simd_adjacent_find Z.eqb
    [1; 2; 3; 4; 5; 6; 7; 8; 9; 10; 10; 11; 12; 13; 14; 15; 16] 18 false
    0 17 true = Ret 8 /\
  simd_adjacent_find Z.eqb
    [1; 2; 3; 4; 5; 6; 7; 8; 9; 10; 10; 11; 12; 13; 14; 15; 16] 18 false
    0 17 false = Ret 9.
Proof. split; reflexivity. Qed.

(** With a predicate whose result is a fraction the lanes 0 to 6 of a
    block record 0 for a matching pair, while the pair on the boundary
    of a block, the rest and the early-exit body test the result as a
    condition. *)
Example simd_adjacent_find_drops_fraction :
  simd_adjacent_find equal_half [1; 2; 2; 4; 5; 6; 7; 8; 9; 10] 11 false
    0 10 false = Ret 10 /\
  simd_adjacent_find equal_half [1; 2; 2; 4; 5; 6; 7; 8; 9; 10] 11 true
    0 10 false = Ret 1 /\
  simd_adjacent_find equal_half [1; 2; 3; 4; 5; 6; 7; 8; 8; 9] 11 false
    0 10 false = Ret 7.
Proof. repeat split. Qed.

(** C8, as the code has it.  With the first-occurrence semantic the
    candidate start positions are compared in ascending order, from
    [first] on, and the loop is left at the first window that matches:
    the kernel returns the leftmost occurrence, or [last] when no window
    matches, and no position after the returned one is compared. *)
Theorem simd_search_first_occurrence {A B : Type} (p : B -> A -> bool)
    (m : list A) (sm : list B) (fuel : nat) (earlyexit : bool)
    (first last s_first s_last : Z) :
  valid m first (last - first) -> valid sm s_first (s_last - s_first) ->
  1 <= s_last - s_first <= last - first ->
  (Z.to_nat (last - first) < fuel)%nat ->
  exists r e,
    simd_search p m sm fuel earlyexit first last s_first s_last true = Ret r /\
    simd_search_probes p m sm fuel fuel earlyexit s_first s_last true
      (last - first - (s_last - s_first)) first
    = zrange first (Z.to_nat e) /\
    ((r = last /\ e = last - first - (s_last - s_first) + 1 /\
      forall k, 0 <= k <= last - first - (s_last - s_first) ->
                ~ match_at p m sm first s_first s_last k) \/
     (exists k, 0 <= k <= last - first - (s_last - s_first) /\
                r = first + k /\ e = k + 1 /\
                match_at p m sm first s_first s_last k /\
                forall k', 0 <= k' < k ->
                           ~ match_at p m sm first s_first s_last k')).
Proof.
  intros Hv Hsv Hn Hfuel.
  assert (Hfuel1 : (Z.to_nat (s_last - s_first) < fuel)%nat) by lia.
  destruct (simd_search_loop_spec p m sm first last s_first s_last Hv Hsv
              fuel earlyexit true fuel Hfuel1 0 last) as (r & Hr & Hres);
    [lia | lia |].
  destruct (simd_search_probes_first p m sm first last s_first s_last Hv Hsv
              fuel earlyexit fuel Hfuel1 0) as (e & He & Hspec); [lia | lia |].
  rewrite Z.sub_0_r, Z.add_0_r in Hr, He.
  replace (e - 0) with e in He by lia.
  exists r, e. split.
  - unfold simd_search.
    destruct (Z.ltb_spec (s_last - s_first) 1); [lia |].
    destruct (Z.ltb_spec (last - first) (s_last - s_first)); [lia |].
    assumption.
  - split; [assumption |].
    destruct Hres as [(-> & Hnone) | (k & Hk & Hm & -> & Hbefore)].
    + left. split; [reflexivity |]. split; [| assumption].
      destruct Hspec as [(-> & _) | (He' & Hm & _)]; [reflexivity |].
      exfalso. apply (Hnone (e - 1)); [lia | assumption].
    + right. exists k. split; [assumption |]. split; [reflexivity |].
      split; [| auto].
      destruct Hspec as [(-> & Hnone) | (He' & Hm' & Hbefore')].
      * exfalso. apply (Hnone k); assumption.
      * destruct (Z.lt_trichotomy (e - 1) k) as [Hlt | [Heq | Hgt]]; [| lia |].
        -- exfalso. apply (Hbefore (e - 1)); [lia | assumption].
        -- exfalso. apply (Hbefore' k); [lia | assumption].
Qed.

(** An instance: [[3; 4]] searched in [[1; 2; 3; 4; 5]]. *)
Lemma simd_search_first_occurrence_witness :
  exists r e,
    simd_search Z.eqb [1; 2; 3; 4; 5] [3; 4] 6 false 0 5 0 2 true = Ret r /\
    simd_search_probes Z.eqb [1; 2; 3; 4; 5] [3; 4] 6 6 false 0 2 true
      (5 - 0 - (2 - 0)) 0
    = zrange 0 (Z.to_nat e) /\
    ((r = 5 /\ e = 5 - 0 - (2 - 0) + 1 /\
      forall k, 0 <= k <= 5 - 0 - (2 - 0) ->
                ~ match_at Z.eqb [1; 2; 3; 4; 5] [3; 4] 0 0 2 k) \/
     (exists k, 0 <= k <= 5 - 0 - (2 - 0) /\
                r = 0 + k /\ e = k + 1 /\
                match_at Z.eqb [1; 2; 3; 4; 5] [3; 4] 0 0 2 k /\
                forall k', 0 <= k' < k ->
                           ~ match_at Z.eqb [1; 2; 3; 4; 5] [3; 4] 0 0 2 k')).
Proof.
  apply (simd_search_first_occurrence Z.eqb [1; 2; 3; 4; 5] [3; 4] 6 false
           0 5 0 2); unfold valid; simpl; lia.
Defined.

(** C8, counterexample.  For the sequence [[1; 2; 3; 4; 5]] and the
    searched-for [[3; 4]] the last valid start position is 3.  The
    windows compared are those at 0, 1 and 2, in this order: the first
    one compared is not the one at 3, which is never compared, and the
    loop is left at the match at 2 without returning to position 0. *)
Lemma simd_search_probes_ascending :
  simd_search_probes Z.eqb [1; 2; 3; 4; 5] [3; 4] 6 6 false 0 2 true
    (5 - 0 - (2 - 0)) 0 = [0; 1; 2] /\
  simd_search Z.eqb [1; 2; 3; 4; 5] [3; 4] 6 false 0 5 0 2 true = Ret 2.
Proof. split; reflexivity. Qed.

(** C10. Without the first-occurrence semantic the kernel returns the
    start of the last occurrence; and for every input it returns [last]
    when the searched-for sequence is empty or longer than the sequence
    searched in. *)
Theorem simd_search_last_occurrence {A B : Type} (p : B -> A -> bool)
    (m : list A) (sm : list B) (fuel : nat) (earlyexit : bool)
    (first last s_first s_last : Z) :
  (forall b_first,
     s_last - s_first < 1 \/ last - first < s_last - s_first ->
     simd_search p m sm fuel earlyexit first last s_first s_last b_first
     = Ret last) /\
  (valid m first (last - first) -> valid sm s_first (s_last - s_first) ->
   (Z.to_nat (last - first) < fuel)%nat ->
   forall k,
     0 <= k <= last - first - (s_last - s_first) ->
     1 <= s_last - s_first ->
     match_at p m sm first s_first s_last k ->
     (forall k', k < k' <= last - first - (s_last - s_first) ->
                 ~ match_at p m sm first s_first s_last k') ->
     simd_search p m sm fuel earlyexit first last s_first s_last false
     = Ret (first + k)).
Proof.
  split.
  - intros b_first Hdeg. unfold simd_search.
    destruct (Z.ltb_spec (s_last - s_first) 1); [reflexivity |].
    destruct (Z.ltb_spec (last - first) (s_last - s_first)); [reflexivity |].
    lia.
  - intros Hv Hsv Hfuel k Hk Hn Hm Hafter.
    assert (Hfuel1 : (Z.to_nat (s_last - s_first) < fuel)%nat) by lia.
    destruct (simd_search_loop_spec p m sm first last s_first s_last Hv Hsv
                fuel earlyexit false fuel Hfuel1 0 last) as (r & Hr & Hres);
      [lia | lia |].
    rewrite Z.sub_0_r, Z.add_0_r in Hr. unfold simd_search.
    destruct (Z.ltb_spec (s_last - s_first) 1); [lia |].
    destruct (Z.ltb_spec (last - first) (s_last - s_first)); [lia |].
    rewrite Hr. f_equal.
    destruct Hres as [(-> & Hnone) | (k0 & Hk0 & Hm0 & -> & Hafter0)].
    + exfalso. apply (Hnone k); [lia | assumption].
    + destruct (Z.lt_trichotomy k0 k) as [Hlt | [Heq | Hgt]]; [| lia |].
      * exfalso. apply (Hafter0 k); [lia | assumption].
      * exfalso. apply (Hafter k0); [lia | assumption].
Qed.

(** An instance: [[3; 4]] occurs at 2 and at 5 in
    [[1; 2; 3; 4; 5; 3; 4]]. *)
Lemma simd_search_last_occurrence_witness :
  (forall b_first,
     2 - 0 < 1 \/ 7 - 0 < 2 - 0 ->
     simd_search Z.eqb [1; 2; 3; 4; 5; 3; 4] [3; 4] 8 false 0 7 0 2 b_first
     = Ret 7) /\
  simd_search Z.eqb [1; 2; 3; 4; 5; 3; 4] [3; 4] 8 false 0 7 0 2 false
  = Ret (0 + 5).
Proof.
  destruct (simd_search_last_occurrence Z.eqb [1; 2; 3; 4; 5; 3; 4] [3; 4]
              8 false 0 7 0 2) as [H1 H2].
  split; [exact H1 |].
  apply H2; unfold valid; simpl; try lia.
  - intros j Hj. assert (E : j = 0 \/ j = 1) by lia.
    destruct E as [-> | ->];
      [exists 3, 3 | exists 4, 4]; repeat split.
Defined.

(** The concrete cases of the specification. *)
Example simd_unique_copy_example :
  simd_unique_copy Z.eqb [1; 2; 2; 3; 3; 3; 4] 0 7 [0; 0; 0; 0; 0; 0; 0] 0
  = Ret ([1; 2; 3; 4; 0; 0; 0], 4).
Proof. reflexivity. Qed.

Example simd_search_example :
  simd_search Z.eqb [1; 2; 3; 4; 5] [3; 4] 6 false 0 5 0 2 true = Ret 2 /\
  simd_search Z.eqb [1; 2; 3; 4; 5] [3; 4] 6 true 0 5 0 2 true = Ret 2.
Proof. split; reflexivity. Qed.

Example simd_search_several_occurrences :
  simd_search Z.eqb [3; 4; 3; 4; 5; 3; 4] [3; 4] 8 false 0 7 0 2 false
  = Ret 5 /\
  simd_search Z.eqb [3; 4; 3; 4; 5; 3; 4] [3; 4] 8 false 0 7 0 2 true = Ret 0.
Proof. split; reflexivity. Qed.

Example simd_first_short_range :
  simd_first Z.even [1; 3; 4] 4 false 0 3 = Ret 2 /\
  simd_first Z.even [1; 3; 5] 4 false 0 3 = Ret 3 /\
  simd_first Z.even [] 1 false 0 0 = Ret 0.
Proof. repeat split. Qed.

(** * The remaining kernels *)

Section ListMore.
Context {A B : Type}.

Lemma combine_snoc (l1 : list A) (l2 : list B) x y :
  length l1 = length l2 ->
  combine (l1 ++ [x]) (l2 ++ [y]) = combine l1 l2 ++ [(x, y)].
Proof.
  revert l2; induction l1 as [| a l1 IH]; intros [| b l2] H;
    try discriminate; [reflexivity |].
  cbn [app combine]. f_equal. apply IH. cbn [length] in H. lia.
Qed.

Lemma map_fst_combine (l1 : list A) (l2 : list B) :
  length l1 = length l2 -> map fst (combine l1 l2) = l1.
Proof.
  revert l2; induction l1 as [| a l1 IH]; intros [| b l2] H;
    try discriminate; [reflexivity |].
  cbn [combine map fst]. f_equal. apply IH. cbn [length] in H. lia.
Qed.

Lemma map_snd_combine (l1 : list A) (l2 : list B) :
  length l1 = length l2 -> map snd (combine l1 l2) = l2.
Proof.
  revert l2; induction l1 as [| a l1 IH]; intros [| b l2] H;
    try discriminate; [reflexivity |].
  cbn [combine map snd]. f_equal. apply IH. cbn [length] in H. lia.
Qed.
End ListMore.

Section WalkListFacts.
Context {E St : Type}.

Lemma walk_list_snoc (h : St -> E -> St * E) l :
  forall s x,
    walk_list h s (l ++ [x])
    = (fst (h (fst (walk_list h s l)) x),
       snd (walk_list h s l) ++ [snd (h (fst (walk_list h s l)) x)]).
Proof.
  induction l as [| a l IH]; intros s x.
  - cbn. destruct (h s x); reflexivity.
  - cbn [app walk_list]. destruct (h s a) as [s1 a'].
    rewrite IH. destruct (walk_list h s1 l) as [s2 r]. reflexivity.
Qed.

Lemma length_walk_list (h : St -> E -> St * E) l :
  forall s, length (snd (walk_list h s l)) = length l.
Proof.
  induction l as [| a l IH]; intros s; [reflexivity |].
  cbn [walk_list]. destruct (h s a) as [s1 a']. specialize (IH s1).
  destruct (walk_list h s1 l) as [s2 r]. cbn [snd length] in *. lia.
Qed.

Lemma walk_list_pure (h : St -> E -> St * E) (k : E -> E) l :
  (forall s x, h s x = (s, k x)) ->
  forall s, walk_list h s l = (s, map k l).
Proof.
  intros Hh. induction l as [| a l IH]; intros s; [reflexivity |].
  cbn [walk_list map]. rewrite Hh, IH. reflexivity.
Qed.

Lemma gen_list_snoc (g : St -> St * E) k :
  forall s,
    gen_list g s (S k)
    = (fst (g (fst (gen_list g s k))),
       snd (gen_list g s k) ++ [snd (g (fst (gen_list g s k)))]).
Proof.
  induction k as [| k IH]; intros s.
  - cbn. destruct (g s); reflexivity.
  - change (gen_list g s (S (S k)))
      with (let '(s1, v) := g s in
            let '(s2, r) := gen_list g s1 (S k) in (s2, v :: r)).
    cbn [gen_list] in IH |- *. destruct (g s) as [s1 v].
    rewrite (IH s1). destruct (gen_list g s1 k) as [s2 r]. reflexivity.
Qed.

Lemma length_gen_list (g : St -> St * E) k :
  forall s, length (snd (gen_list g s k)) = k.
Proof.
  induction k as [| k IH]; intros s; [reflexivity |].
  cbn [gen_list]. destruct (g s) as [s1 v]. specialize (IH s1).
  destruct (gen_list g s1 k) as [s2 r]. cbn [snd length] in *. lia.
Qed.

Lemma gen_list_constant (v : E) k :
  forall s : St, gen_list (fun s => (s, v)) s k = (s, repeat v k).
Proof.
  induction k as [| k IH]; intros s; [reflexivity |].
  cbn [gen_list repeat]. rewrite IH. reflexivity.
Qed.
End WalkListFacts.

Section WriteLoops.
Context {A : Type}.

Lemma simd_copy_n_run (m : list A) first n out result :
  valid m first n -> valid out result n ->
  simd_copy_n m first n out result
  = Ret (splice out result (slice m first n), result + n).
Proof.
  intros Hv (R0 & R1 & R2).
  pose proof Hv as (H0 & H1 & H2). unfold simd_copy_n.
  match goal with |- bind (for_range _ _ ?b _) _ = _ => set (body := b) end.
  destruct
    (for_range_inv
       (fun j o => 0 <= j <= n /\ o = splice out result (slice m first j))
       body 0 n out) as (o & Ho & _ & ->).
  - lia.
  - split; [lia |]. rewrite slice_zero, splice_nil. reflexivity.
  - intros j o Hj (_ & ->).
    destruct (valid_load m first n j Hv) as (x & Hx); [lia |].
    unfold body. rewrite Hx. cbn [bind].
    pose proof (length_slice m first j ltac:(unfold valid; lia)) as Hlen.
    pose proof (store_splice_snoc out result (slice m first j) x R0
                  ltac:(lia)) as St.
    replace (result + Z.of_nat (length (slice m first j)))
      with (result + j) in St by lia.
    rewrite St. eexists. split; [reflexivity |]. split; [lia |].
    rewrite (slice_snoc m first j x) by (auto; lia). reflexivity.
  - rewrite Ho. reflexivity.
Qed.

Lemma simd_fill_n_run (m : list A) first n value :
  valid m first n ->
  simd_fill_n m first n value
  = Ret (splice m first (repeat value (Z.to_nat n)), first + n).
Proof.
  intros (H0 & H1 & H2). unfold simd_fill_n.
  match goal with |- bind (for_range _ _ ?b _) _ = _ => set (body := b) end.
  destruct
    (for_range_inv
       (fun j o => 0 <= j <= n /\
                   o = splice m first (repeat value (Z.to_nat j)))
       body 0 n m) as (o & Ho & _ & ->).
  - lia.
  - split; [lia |]. cbn [Z.to_nat repeat]. rewrite splice_nil. reflexivity.
  - intros j o Hj (_ & ->). unfold body.
    pose proof (store_splice_snoc m first (repeat value (Z.to_nat j)) value
                  H0) as St.
    rewrite repeat_length in St.
    replace (first + Z.of_nat (Z.to_nat j)) with (first + j) in St by lia.
    rewrite St by lia. eexists. split; [reflexivity |]. split; [lia |].
    replace (Z.to_nat (j + 1)) with (Z.to_nat j + 1)%nat by lia.
    rewrite repeat_app. reflexivity.
  - rewrite Ho. reflexivity.
Qed.

Lemma simd_generate_n_run {St : Type} (g : St -> St * A) (m : list A)
    first size s :
  valid m first size ->
  simd_generate_n g m first size s
  = Ret (splice m first (snd (gen_list g s (Z.to_nat size))),
         fst (gen_list g s (Z.to_nat size)), first + size).
Proof.
  intros (H0 & H1 & H2). unfold simd_generate_n.
  match goal with |- bind (for_range _ _ ?b _) _ = _ => set (body := b) end.
  destruct
    (for_range_inv
       (fun j st => 0 <= j <= size /\
                    st = (splice m first (snd (gen_list g s (Z.to_nat j))),
                          fst (gen_list g s (Z.to_nat j))))
       body 0 size (m, s)) as (st & Hst & _ & ->).
  - lia.
  - split; [lia |]. cbn [Z.to_nat gen_list fst snd]. rewrite splice_nil.
    reflexivity.
  - intros j st Hj (_ & ->). unfold body.
    replace (Z.to_nat (j + 1)) with (S (Z.to_nat j)) by lia.
    rewrite gen_list_snoc.
    pose proof (length_gen_list g (Z.to_nat j) s) as Hlen.
    destruct (gen_list g s (Z.to_nat j)) as [sj lj]. cbn [fst snd] in *.
    destruct (g sj) as [s' v]. cbn [fst snd].
    pose proof (store_splice_snoc m first lj v H0) as St'.
    replace (first + Z.of_nat (length lj)) with (first + j) in St' by lia.
    rewrite St' by lia. eexists. split; [reflexivity |]. split; [lia |].
    reflexivity.
  - rewrite Hst. reflexivity.
Qed.
End WriteLoops.

Section SpliceMore.
Context {A : Type}.

Lemma splice_slice_id (m : list A) first n :
  valid m first n -> splice m first (slice m first n) = m.
Proof.
  intros Hv. pose proof (length_slice m first n Hv) as Hlen.
  destruct Hv as (H0 & H1 & H2). unfold splice. rewrite Hlen.
  unfold slice. rewrite (Nat.add_comm (Z.to_nat first)), <- skipn_skipn.
  rewrite firstn_skipn. apply firstn_skipn.
Qed.

Lemma load_repeat (v : A) k j :
  0 <= j < Z.of_nat k -> load (repeat v k) j = Ret v.
Proof.
  intros Hj. apply load_Ret. split; [lia |].
  apply nth_error_repeat. lia.
Qed.

Lemma filter_repeat (pred : A -> bool) v k :
  filter pred (repeat v k) = if pred v then repeat v k else [].
Proof.
  induction k as [| k IH]; cbn [repeat filter].
  - destruct (pred v); reflexivity.
  - rewrite IH. destruct (pred v); reflexivity.
Qed.

Lemma filter_false (l : list A) : filter (fun _ => false) l = [].
Proof. induction l as [| a l IH]; [reflexivity | exact IH]. Qed.

(** What a kernel that writes the list [l] at [result] leaves behind. *)
Lemma splice_written (m : list A) result l :
  0 <= result -> result + Z.of_nat (length l) <= Z.of_nat (length m) ->
  slice (splice m result l) result (Z.of_nat (length l)) = l /\
  (forall q, q < result \/ result + Z.of_nat (length l) <= q ->
             load (splice m result l) q = load m q) /\
  length (splice m result l) = length m.
Proof.
  intros Hr Hcap. split; [apply slice_splice; assumption |].
  split; [intros q Hq; apply load_splice_out; assumption |].
  apply length_splice; assumption.
Qed.
End SpliceMore.

(** X5. [simd_copy_n] copies the [n] elements of the range to the output
    positions [result .. result + n - 1], leaves the rest of the output
    buffer as it was and returns [result + n]. *)
Theorem simd_copy_n_copies {A : Type} (m : list A) (first n : Z)
    (out : list A) (result : Z) :
  valid m first n -> valid out result n ->
  exists out',
    simd_copy_n m first n out result = Ret (out', result + n) /\
    slice out' result n = slice m first n /\
    (forall q, q < result \/ result + n <= q -> load out' q = load out q) /\
    length out' = length out.
Proof.
  intros Hv Ho. pose proof (length_slice m first n Hv) as Hlen.
  pose proof Ho as (R0 & R1 & R2).
  destruct (splice_written out result (slice m first n) R0 ltac:(lia))
    as (W1 & W2 & W3).
  replace (Z.of_nat (length (slice m first n))) with n in W1, W2 by lia.
  exists (splice out result (slice m first n)).
  split; [apply simd_copy_n_run; assumption | auto].
Qed.

Lemma simd_copy_n_copies_witness :
  exists out',
    simd_copy_n [1; 2; 3; 4] 1 3 [0; 0; 0; 0; 0] 2 = Ret (out', 2 + 3) /\
    slice out' 2 3 = slice [1; 2; 3; 4] 1 3 /\
    (forall q, q < 2 \/ 2 + 3 <= q -> load out' q = load [0; 0; 0; 0; 0] q) /\
    length out' = length [0; 0; 0; 0; 0].
Proof.
  apply (simd_copy_n_copies [1; 2; 3; 4] 1 3 [0; 0; 0; 0; 0] 2);
    unfold valid; simpl; lia.
Defined.

(** X6. With a predicate that always holds [simd_copy_if] is
    [simd_copy_n]; with a predicate that never holds it writes nothing
    and returns [result]. *)
Theorem simd_copy_if_constant {A : Type} (m : list A) (first n : Z)
    (out : list A) (result : Z) :
  valid m first n -> valid out result n ->
  simd_copy_if (fun _ => true) m first n out result
  = simd_copy_n m first n out result /\
  simd_copy_if (fun _ => false) m first n out result = Ret (out, result).
Proof.
  intros Hv Ho. pose proof (length_slice m first n Hv) as Hlen.
  pose proof Ho as (R0 & R1 & R2).
  pose proof (simd_copy_if_spec (fun _ => true) m first n Hv out result R0)
    as Et.
  pose proof (simd_copy_if_spec (fun _ => false) m first n Hv out result R0)
    as Ef.
  rewrite filter_true in Et. rewrite filter_false, splice_nil in Ef.
  cbn [length Z.of_nat] in Ef. rewrite Z.add_0_r in Ef.
  split; [| apply Ef; lia].
  rewrite Et by lia. rewrite simd_copy_n_run by assumption.
  do 2 f_equal. lia.
Qed.

Lemma simd_copy_if_constant_witness :
  simd_copy_if (fun _ => true) [1; 2; 3; 4] 1 3 [0; 0; 0; 0; 0] 2
  = simd_copy_n [1; 2; 3; 4] 1 3 [0; 0; 0; 0; 0] 2 /\
  simd_copy_if (fun _ => false) [1; 2; 3; 4] 1 3 [0; 0; 0; 0; 0] 2
  = Ret ([0; 0; 0; 0; 0], 2).
Proof.
  apply (simd_copy_if_constant [1; 2; 3; 4] 1 3 [0; 0; 0; 0; 0] 2);
    unfold valid; simpl; lia.
Defined.

(** X7. [simd_fill] sets every element of [[first, last)] to [value] and
    leaves the other elements as they were; [simd_fill_n] does the same
    over [[first, first + n)] and returns [first + n].  A range with
    [last <= first] is left untouched, whatever the buffer. *)
Theorem simd_fill_fills {A : Type} (m : list A) (first last : Z) (value : A) :
  (last <= first -> simd_fill m first last value = Ret m) /\
  (valid m first (last - first) ->
   exists m',
     simd_fill m first last value = Ret m' /\
     simd_fill_n m first (last - first) value = Ret (m', last) /\
     (forall q, first <= q < last -> load m' q = Ret value) /\
     (forall q, q < first \/ last <= q -> load m' q = load m q) /\
     length m' = length m).
Proof.
  split.
  - intros Hle. unfold simd_fill, simd_fill_n, for_range.
    replace (Z.to_nat (last - first - 0)) with O by lia. reflexivity.
  - intros Hv. pose proof Hv as (H0 & H1 & H2).
    pose proof (simd_fill_n_run m first (last - first) value Hv) as E.
    replace (first + (last - first)) with last in E by lia.
    destruct (splice_written m first (repeat value (Z.to_nat (last - first)))
                H0 ltac:(rewrite repeat_length; lia)) as (W1 & W2 & W3).
    rewrite repeat_length in W1, W2.
    exists (splice m first (repeat value (Z.to_nat (last - first)))).
    split; [unfold simd_fill; rewrite E; reflexivity |].
    split; [assumption |]. split; [| split; [| assumption]].
    + intros q Hq. replace q with (first + (q - first)) by lia.
      rewrite load_splice_in by (rewrite ?repeat_length; lia).
      apply load_repeat. lia.
    + intros q Hq. apply W2. lia.
Qed.

Lemma simd_fill_fills_witness :
  (3 <= 1 -> simd_fill [1; 2; 3; 4] 1 3 9 = Ret [1; 2; 3; 4]) /\
  exists m',
    simd_fill [1; 2; 3; 4] 1 3 9 = Ret m' /\
    simd_fill_n [1; 2; 3; 4] 1 (3 - 1) 9 = Ret (m', 3) /\
    (forall q, 1 <= q < 3 -> load m' q = Ret 9) /\
    (forall q, q < 1 \/ 3 <= q -> load m' q = load [1; 2; 3; 4] q) /\
    length m' = length [1; 2; 3; 4].
Proof.
  destruct (simd_fill_fills [1; 2; 3; 4] 1 3 9) as [H1 H2].
  split; [exact H1 |]. apply H2. unfold valid; simpl; lia.
Defined.

(** X8. [simd_generate] with a generator that always returns [value]
    and has no state to change sets every element of [[first, last)] to
    [value], as [simd_fill] does, and leaves the other elements as they
    were. *)
Theorem simd_generate_constant_fills {A St : Type} (m : list A)
    (first last : Z) (value : A) (s : St) :
  valid m first (last - first) ->
  exists m',
    simd_generate (fun s => (s, value)) m first last s = Ret (m', s) /\
    simd_fill m first last value = Ret m' /\
    (forall q, first <= q < last -> load m' q = Ret value) /\
    (forall q, q < first \/ last <= q -> load m' q = load m q) /\
    length m' = length m.
Proof.
  intros Hv. pose proof Hv as (H0 & H1 & H2).
  destruct (splice_written m first (repeat value (Z.to_nat (last - first)))
              H0 ltac:(rewrite repeat_length; lia)) as (W1 & W2 & W3).
  rewrite repeat_length in W1, W2.
  exists (splice m first (repeat value (Z.to_nat (last - first)))).
  split; [| split; [| split; [| split; [| assumption]]]].
  - unfold simd_generate. rewrite simd_generate_n_run by assumption.
    rewrite gen_list_constant. reflexivity.
  - unfold simd_fill. rewrite simd_fill_n_run by assumption. reflexivity.
  - intros q Hq. replace q with (first + (q - first)) by lia.
    rewrite load_splice_in by (rewrite ?repeat_length; lia).
    apply load_repeat. lia.
  - intros q Hq. apply W2. lia.
Qed.

Lemma simd_generate_constant_fills_witness :
  exists m',
    simd_generate (fun s : unit => (s, 9)) [1; 2; 3; 4] 1 3 tt
    = Ret (m', tt) /\
    simd_fill [1; 2; 3; 4] 1 3 9 = Ret m' /\
    (forall q, 1 <= q < 3 -> load m' q = Ret 9) /\
    (forall q, q < 1 \/ 3 <= q -> load m' q = load [1; 2; 3; 4] q) /\
    length m' = length [1; 2; 3; 4].
Proof.
  apply (simd_generate_constant_fills [1; 2; 3; 4] 1 3 9 tt);
    unfold valid; simpl; lia.
Defined.

(** X9. Generating with a generator that always returns [value] is
    filling with [value]: the two kernels leave the same buffer and
    return the same position, and the state of the generator is
    unchanged. *)
Theorem simd_generate_constant_is_fill {A St : Type} (m : list A)
    (first n : Z) (value : A) (s : St) :
  valid m first n ->
  exists m',
    simd_fill_n m first n value = Ret (m', first + n) /\
    simd_generate_n (fun s => (s, value)) m first n s
    = Ret (m', s, first + n).
Proof.
  intros Hv. exists (splice m first (repeat value (Z.to_nat n))).
  split; [apply simd_fill_n_run; assumption |].
  rewrite simd_generate_n_run by assumption.
  rewrite gen_list_constant. reflexivity.
Qed.

Lemma simd_generate_constant_is_fill_witness :
  exists m',
    simd_fill_n [1; 2; 3; 4] 1 2 9 = Ret (m', 1 + 2) /\
    simd_generate_n (fun s : unit => (s, 9)) [1; 2; 3; 4] 1 2 tt
    = Ret (m', tt, 1 + 2).
Proof.
  apply (simd_generate_constant_is_fill [1; 2; 3; 4] 1 2 9 tt);
    unfold valid; simpl; lia.
Defined.

(** X10. After [simd_fill_n] with [value], [simd_count] over the filled
    range returns [n] when [value] satisfies the predicate and 0 when it
    does not. *)
Theorem simd_fill_then_count {A : Type} (pred : A -> bool) (m : list A)
    (first n : Z) (value : A) :
  valid m first n ->
  exists m',
    simd_fill_n m first n value = Ret (m', first + n) /\
    simd_count pred m' first n = Ret (if pred value then n else 0).
Proof.
  intros Hv. pose proof Hv as (H0 & H1 & H2).
  exists (splice m first (repeat value (Z.to_nat n))).
  split; [apply simd_fill_n_run; assumption |].
  destruct (splice_written m first (repeat value (Z.to_nat n)) H0
              ltac:(rewrite repeat_length; lia)) as (W1 & _ & W3).
  rewrite repeat_length in W1. replace (Z.of_nat (Z.to_nat n)) with n in W1
    by lia.
  rewrite simd_count_spec by (unfold valid; rewrite W3; lia).
  rewrite W1, filter_repeat. f_equal.
  destruct (pred value); cbn [length]; [rewrite repeat_length |]; lia.
Qed.

Lemma simd_fill_then_count_witness :
  exists m',
    simd_fill_n [1; 2; 3; 4] 1 2 8 = Ret (m', 1 + 2) /\
    simd_count Z.even m' 1 2 = Ret (if Z.even 8 then 2 else 0).
Proof.
  apply (simd_fill_then_count Z.even [1; 2; 3; 4] 1 2 8);
    unfold valid; simpl; lia.
Defined.

Section WalkRuns.
Context {A B C St : Type}.

Lemma simd_walk_1_run (f : St -> A -> St * A) (m : list A) first n s :
  valid m first n ->
  simd_walk_1 f m first n s
  = Ret (splice m first (snd (walk_list f s (slice m first n))),
         fst (walk_list f s (slice m first n))).
Proof.
  intros Hv. pose proof Hv as (H0 & H1 & H2). unfold simd_walk_1.
  match goal with |- for_range _ _ ?b _ = _ => set (body := b) end.
  destruct
    (for_range_inv
       (fun j st => 0 <= j <= n /\
                    st = (splice m first
                            (snd (walk_list f s (slice m first j))),
                          fst (walk_list f s (slice m first j))))
       body 0 n (m, s)) as (st & Hst & _ & ->).
  - lia.
  - split; [lia |]. rewrite slice_zero. cbn [walk_list fst snd].
    rewrite splice_nil. reflexivity.
  - intros j st Hj (_ & ->). unfold body.
    destruct (valid_load m first n j Hv) as (x & Hx); [lia |].
    pose proof (length_slice m first j ltac:(unfold valid; lia)) as Hlen.
    pose proof (length_walk_list f (slice m first j) s) as HW.
    rewrite (slice_snoc m first j x) by (auto; lia). rewrite walk_list_snoc.
    destruct (walk_list f s (slice m first j)) as [sj lj].
    cbn [fst snd] in *.
    rewrite load_splice_out, Hx by lia. cbn [bind].
    destruct (f sj x) as [s' x']. cbn [fst snd].
    pose proof (store_splice_snoc m first lj x' H0) as St'.
    replace (first + Z.of_nat (length lj)) with (first + j) in St' by lia.
    rewrite St' by lia. eexists. split; [reflexivity |]. split; [lia |].
    reflexivity.
  - exact Hst.
Qed.

Lemma simd_walk_2_run (f : St -> A -> B -> St * (A * B)) (m1 : list A)
    (m2 : list B) first1 n first2 s :
  valid m1 first1 n -> valid m2 first2 n ->
  simd_walk_2 f m1 m2 first1 n first2 s
  = Ret (splice m1 first1
           (map fst (snd (walk_list (pair_call f) s
                            (combine (slice m1 first1 n)
                                     (slice m2 first2 n))))),
         splice m2 first2
           (map snd (snd (walk_list (pair_call f) s
                            (combine (slice m1 first1 n)
                                     (slice m2 first2 n))))),
         fst (walk_list (pair_call f) s
                (combine (slice m1 first1 n) (slice m2 first2 n))),
         first2 + n).
Proof.
  intros Hv1 Hv2. pose proof Hv1 as (H0 & H1 & H2).
  pose proof Hv2 as (G0 & G1 & G2). unfold simd_walk_2.
  match goal with |- bind (for_range _ _ ?b _) _ = _ => set (body := b) end.
  set (W := fun j => walk_list (pair_call f) s
                       (combine (slice m1 first1 j) (slice m2 first2 j))).
  destruct
    (for_range_inv
       (fun j st => 0 <= j <= n /\
                    st = (splice m1 first1 (map fst (snd (W j))),
                          splice m2 first2 (map snd (snd (W j))),
                          fst (W j)))
       body 0 n (m1, m2, s)) as (st & Hst & _ & ->).
  - lia.
  - split; [lia |]. unfold W. rewrite !slice_zero.
    cbn [combine walk_list fst snd map]. rewrite !splice_nil. reflexivity.
  - intros j st Hj (_ & ->). unfold body.
    destruct (valid_load m1 first1 n j Hv1) as (x & Hx); [lia |].
    destruct (valid_load m2 first2 n j Hv2) as (y & Hy); [lia |].
    pose proof (length_slice m1 first1 j ltac:(unfold valid; lia)) as L1.
    pose proof (length_slice m2 first2 j ltac:(unfold valid; lia)) as L2.
    assert (HW : length (snd (W j)) = Z.to_nat j).
    { unfold W. rewrite length_walk_list, length_combine. lia. }
    assert (HS : W (j + 1)
                 = (fst (f (fst (W j)) x y),
                    snd (W j) ++ [snd (f (fst (W j)) x y)])).
    { unfold W. rewrite (slice_snoc m1 first1 j x) by (auto; lia).
      rewrite (slice_snoc m2 first2 j y) by (auto; lia).
      rewrite combine_snoc by lia. rewrite walk_list_snoc. reflexivity. }
    rewrite HS. destruct (W j) as [sj lj]. cbn [fst snd] in *.
    rewrite load_splice_out, Hx by (rewrite ?length_map; lia). cbn [bind].
    rewrite load_splice_out, Hy by (rewrite ?length_map; lia). cbn [bind].
    destruct (f sj x y) as [s' [x' y']]. cbn [fst snd].
    pose proof (store_splice_snoc m1 first1 (map fst lj) x' H0) as S1.
    pose proof (store_splice_snoc m2 first2 (map snd lj) y' G0) as S2.
    rewrite length_map in S1, S2.
    replace (first1 + Z.of_nat (length lj)) with (first1 + j) in S1 by lia.
    replace (first2 + Z.of_nat (length lj)) with (first2 + j) in S2 by lia.
    rewrite S1 by lia. cbn [bind]. rewrite S2 by lia. cbn [bind].
    eexists. split; [reflexivity |]. split; [lia |].
    rewrite !map_app. reflexivity.
  - rewrite Hst. reflexivity.
Qed.

Lemma simd_walk_3_run (f : St -> A -> B -> C -> St * (A * B * C))
    (m1 : list A) (m2 : list B) (m3 : list C) first1 n first2 first3 s :
  valid m1 first1 n -> valid m2 first2 n -> valid m3 first3 n ->
  simd_walk_3 f m1 m2 m3 first1 n first2 first3 s
  = Ret (splice m1 first1
           (map (fun t => fst (fst t))
              (snd (walk_list (triple_call f) s
                      (combine (combine (slice m1 first1 n)
                                        (slice m2 first2 n))
                               (slice m3 first3 n))))),
         splice m2 first2
           (map (fun t => snd (fst t))
              (snd (walk_list (triple_call f) s
                      (combine (combine (slice m1 first1 n)
                                        (slice m2 first2 n))
                               (slice m3 first3 n))))),
         splice m3 first3
           (map snd
              (snd (walk_list (triple_call f) s
                      (combine (combine (slice m1 first1 n)
                                        (slice m2 first2 n))
                               (slice m3 first3 n))))),
         fst (walk_list (triple_call f) s
                (combine (combine (slice m1 first1 n) (slice m2 first2 n))
                         (slice m3 first3 n))),
         first3 + n).
Proof.
  intros Hv1 Hv2 Hv3. pose proof Hv1 as (H0 & H1 & H2).
  pose proof Hv2 as (G0 & G1 & G2). pose proof Hv3 as (K0 & K1 & K2).
  unfold simd_walk_3.
  match goal with |- bind (for_range _ _ ?b _) _ = _ => set (body := b) end.
  set (W := fun j => walk_list (triple_call f) s
                       (combine (combine (slice m1 first1 j)
                                         (slice m2 first2 j))
                                (slice m3 first3 j))).
  destruct
    (for_range_inv
       (fun j st => 0 <= j <= n /\
                    st = (splice m1 first1
                            (map (fun t => fst (fst t)) (snd (W j))),
                          splice m2 first2
                            (map (fun t => snd (fst t)) (snd (W j))),
                          splice m3 first3 (map snd (snd (W j))),
                          fst (W j)))
       body 0 n (m1, m2, m3, s)) as (st & Hst & _ & ->).
  - lia.
  - split; [lia |]. unfold W. rewrite !slice_zero.
    cbn [combine walk_list fst snd map]. rewrite !splice_nil. reflexivity.
  - intros j st Hj (_ & ->). unfold body.
    destruct (valid_load m1 first1 n j Hv1) as (x & Hx); [lia |].
    destruct (valid_load m2 first2 n j Hv2) as (y & Hy); [lia |].
    destruct (valid_load m3 first3 n j Hv3) as (z & Hz); [lia |].
    pose proof (length_slice m1 first1 j ltac:(unfold valid; lia)) as L1.
    pose proof (length_slice m2 first2 j ltac:(unfold valid; lia)) as L2.
    pose proof (length_slice m3 first3 j ltac:(unfold valid; lia)) as L3.
    assert (HW : length (snd (W j)) = Z.to_nat j).
    { unfold W. rewrite length_walk_list, !length_combine. lia. }
    assert (HS : W (j + 1)
                 = (fst (f (fst (W j)) x y z),
                    snd (W j) ++ [snd (f (fst (W j)) x y z)])).
    { unfold W. rewrite (slice_snoc m1 first1 j x) by (auto; lia).
      rewrite (slice_snoc m2 first2 j y) by (auto; lia).
      rewrite (slice_snoc m3 first3 j z) by (auto; lia).
      rewrite combine_snoc by lia.
      rewrite combine_snoc by (rewrite length_combine; lia).
      rewrite walk_list_snoc. reflexivity. }
    rewrite HS. destruct (W j) as [sj lj]. cbn [fst snd] in *.
    rewrite load_splice_out, Hx by (rewrite ?length_map; lia). cbn [bind].
    rewrite load_splice_out, Hy by (rewrite ?length_map; lia). cbn [bind].
    rewrite load_splice_out, Hz by (rewrite ?length_map; lia). cbn [bind].
    destruct (f sj x y z) as [s' [[x' y'] z']]. cbn [fst snd].
    pose proof (store_splice_snoc m1 first1
                  (map (fun t => fst (fst t)) lj) x' H0) as S1.
    pose proof (store_splice_snoc m2 first2
                  (map (fun t => snd (fst t)) lj) y' G0) as S2.
    pose proof (store_splice_snoc m3 first3 (map snd lj) z' K0) as S3.
    rewrite length_map in S1, S2, S3.
    replace (first1 + Z.of_nat (length lj)) with (first1 + j) in S1 by lia.
    replace (first2 + Z.of_nat (length lj)) with (first2 + j) in S2 by lia.
    replace (first3 + Z.of_nat (length lj)) with (first3 + j) in S3 by lia.
    rewrite S1 by lia. cbn [bind]. rewrite S2 by lia. cbn [bind].
    rewrite S3 by lia. cbn [bind].
    eexists. split; [reflexivity |]. split; [lia |].
    rewrite !map_app. reflexivity.
  - rewrite Hst. reflexivity.
Qed.
End WalkRuns.

Section ZipFacts.
Context {A B C : Type}.

Lemma combine_fst_snd (l : list (A * B)) :
  combine (map fst l) (map snd l) = l.
Proof.
  induction l as [| [a b] l IH]; [reflexivity |].
  cbn [map combine fst snd]. rewrite IH. reflexivity.
Qed.

Lemma combine_triple (l : list (A * B * C)) :
  combine (combine (map (fun t => fst (fst t)) l)
                   (map (fun t => snd (fst t)) l))
          (map snd l) = l.
Proof.
  induction l as [| [[a b] c] l IH]; [reflexivity |].
  cbn [map combine fst snd]. rewrite IH. reflexivity.
Qed.
End ZipFacts.

(** X1. With a callable that has no state of its own, which replaces an
    element [x] by [k x], [simd_walk_1] replaces every element of the
    range by its image under [k] and leaves the elements outside the
    range as they were. *)
Theorem simd_walk_1_applies {A St : Type} (f : St -> A -> St * A)
    (k : A -> A) (m : list A) (first n : Z) (s : St) :
  (forall s x, f s x = (s, k x)) ->
  valid m first n ->
  exists m',
    simd_walk_1 f m first n s = Ret (m', s) /\
    slice m' first n = map k (slice m first n) /\
    (forall q, q < first \/ first + n <= q -> load m' q = load m q) /\
    length m' = length m.
Proof.
  intros Hf Hv. pose proof Hv as (H0 & H1 & H2).
  pose proof (simd_walk_1_run f m first n s Hv) as E.
  rewrite (walk_list_pure f k _ Hf) in E. cbn [fst snd] in E.
  pose proof (length_slice m first n Hv) as L.
  destruct (splice_written m first (map k (slice m first n)) H0
              ltac:(rewrite length_map; lia)) as (W1 & W2 & W3).
  rewrite length_map in W1, W2.
  replace (Z.of_nat (length (slice m first n))) with n in W1, W2 by lia.
  exists (splice m first (map k (slice m first n))). auto.
Qed.

Lemma simd_walk_1_applies_witness :
  exists m',
    simd_walk_1 (fun (s : unit) x => (s, 2 * x)) [1; 2; 3; 4] 1 2 tt
    = Ret (m', tt) /\
    slice m' 1 2 = map (fun x => 2 * x) (slice [1; 2; 3; 4] 1 2) /\
    (forall q, q < 1 \/ 1 + 2 <= q -> load m' q = load [1; 2; 3; 4] q) /\
    length m' = length [1; 2; 3; 4].
Proof.
  apply (simd_walk_1_applies (fun (s : unit) x => (s, 2 * x))
           (fun x => 2 * x) [1; 2; 3; 4] 1 2 tt);
    [reflexivity | unfold valid; simpl; lia].
Defined.

(** X2. With a callable that has no state of its own, which replaces a
    pair of elements [x], [y] by the pair [k x y], [simd_walk_2]
    replaces every pair of elements of the two zipped ranges by its
    image under [k], leaves the elements outside the two ranges as they
    were and returns [first2 + n]. *)
Theorem simd_walk_2_applies {A B St : Type}
    (f : St -> A -> B -> St * (A * B)) (k : A -> B -> A * B)
    (m1 : list A) (m2 : list B) (first1 n first2 : Z) (s : St) :
  (forall s x y, f s x y = (s, k x y)) ->
  valid m1 first1 n -> valid m2 first2 n ->
  exists m1' m2',
    simd_walk_2 f m1 m2 first1 n first2 s = Ret (m1', m2', s, first2 + n) /\
    combine (slice m1' first1 n) (slice m2' first2 n)
    = map (fun p => k (fst p) (snd p))
        (combine (slice m1 first1 n) (slice m2 first2 n)) /\
    (forall q, q < first1 \/ first1 + n <= q -> load m1' q = load m1 q) /\
    (forall q, q < first2 \/ first2 + n <= q -> load m2' q = load m2 q) /\
    length m1' = length m1 /\ length m2' = length m2.
Proof.
  intros Hf Hv1 Hv2. pose proof Hv1 as (H0 & H1 & H2).
  pose proof Hv2 as (G0 & G1 & G2).
  pose proof (simd_walk_2_run f m1 m2 first1 n first2 s Hv1 Hv2) as E.
  rewrite (walk_list_pure (pair_call f) (fun p => k (fst p) (snd p)))
    in E by (intros s0 p; apply Hf).
  cbn [fst snd] in E.
  set (l := map (fun p => k (fst p) (snd p))
              (combine (slice m1 first1 n) (slice m2 first2 n))) in *.
  assert (HW : length l = Z.to_nat n).
  { unfold l. rewrite length_map, length_combine,
      (length_slice m1 first1 n Hv1), (length_slice m2 first2 n Hv2). lia. }
  destruct (splice_written m1 first1 (map fst l) H0
              ltac:(rewrite length_map; lia)) as (W1 & W2 & W3).
  destruct (splice_written m2 first2 (map snd l) G0
              ltac:(rewrite length_map; lia)) as (V1 & V2 & V3).
  rewrite length_map in W1, W2, V1, V2.
  replace (Z.of_nat (length l)) with n in W1, W2, V1, V2 by lia.
  exists (splice m1 first1 (map fst l)), (splice m2 first2 (map snd l)).
  rewrite W1, V1, combine_fst_snd. auto 10.
Qed.

Lemma simd_walk_2_applies_witness :
  exists m1' m2',
    simd_walk_2 (fun (s : unit) x y => (s, (y, x))) [1; 2; 3] [7; 8; 9]
      0 2 1 tt
    = Ret (m1', m2', tt, 1 + 2) /\
    combine (slice m1' 0 2) (slice m2' 1 2)
    = map (fun p => (snd p, fst p))
        (combine (slice [1; 2; 3] 0 2) (slice [7; 8; 9] 1 2)) /\
    (forall q, q < 0 \/ 0 + 2 <= q -> load m1' q = load [1; 2; 3] q) /\
    (forall q, q < 1 \/ 1 + 2 <= q -> load m2' q = load [7; 8; 9] q) /\
    length m1' = length [1; 2; 3] /\ length m2' = length [7; 8; 9].
Proof.
  apply (simd_walk_2_applies (fun (s : unit) x y => (s, (y, x)))
           (fun x y => (y, x)) [1; 2; 3] [7; 8; 9] 0 2 1 tt);
    [reflexivity | unfold valid; simpl; lia ..].
Defined.

(** X3. With a callable that has no state of its own, which replaces a
    triple of elements [x], [y], [z] by the triple [k x y z],
    [simd_walk_3] replaces every triple of elements of the three zipped
    ranges by its image under [k], leaves the elements outside the
    three ranges as they were and returns [first3 + n]. *)
Theorem simd_walk_3_applies {A B C St : Type}
    (f : St -> A -> B -> C -> St * (A * B * C)) (k : A -> B -> C -> A * B * C)
    (m1 : list A) (m2 : list B) (m3 : list C)
    (first1 n first2 first3 : Z) (s : St) :
  (forall s x y z, f s x y z = (s, k x y z)) ->
  valid m1 first1 n -> valid m2 first2 n -> valid m3 first3 n ->
  exists m1' m2' m3',
    simd_walk_3 f m1 m2 m3 first1 n first2 first3 s
    = Ret (m1', m2', m3', s, first3 + n) /\
    combine (combine (slice m1' first1 n) (slice m2' first2 n))
            (slice m3' first3 n)
    = map (fun t => k (fst (fst t)) (snd (fst t)) (snd t))
        (combine (combine (slice m1 first1 n) (slice m2 first2 n))
                 (slice m3 first3 n)) /\
    (forall q, q < first1 \/ first1 + n <= q -> load m1' q = load m1 q) /\
    (forall q, q < first2 \/ first2 + n <= q -> load m2' q = load m2 q) /\
    (forall q, q < first3 \/ first3 + n <= q -> load m3' q = load m3 q) /\
    length m1' = length m1 /\ length m2' = length m2 /\
    length m3' = length m3.
Proof.
  intros Hf Hv1 Hv2 Hv3. pose proof Hv1 as (H0 & H1 & H2).
  pose proof Hv2 as (G0 & G1 & G2). pose proof Hv3 as (K0 & K1 & K2).
  pose proof (simd_walk_3_run f m1 m2 m3 first1 n first2 first3 s
                Hv1 Hv2 Hv3) as E.
  rewrite (walk_list_pure (triple_call f)
             (fun t => k (fst (fst t)) (snd (fst t)) (snd t)))
    in E by (intros s0 t; apply Hf).
  cbn [fst snd] in E.
  set (l := map (fun t => k (fst (fst t)) (snd (fst t)) (snd t))
              (combine (combine (slice m1 first1 n) (slice m2 first2 n))
                       (slice m3 first3 n))) in *.
  assert (HW : length l = Z.to_nat n).
  { unfold l. rewrite length_map, !length_combine,
      (length_slice m1 first1 n Hv1), (length_slice m2 first2 n Hv2),
      (length_slice m3 first3 n Hv3). lia. }
  destruct (splice_written m1 first1 (map (fun t => fst (fst t)) l) H0
              ltac:(rewrite length_map; lia)) as (W1 & W2 & W3).
  destruct (splice_written m2 first2 (map (fun t => snd (fst t)) l) G0
              ltac:(rewrite length_map; lia)) as (V1 & V2 & V3).
  destruct (splice_written m3 first3 (map snd l) K0
              ltac:(rewrite length_map; lia)) as (U1 & U2 & U3).
  rewrite length_map in W1, W2, V1, V2, U1, U2.
  replace (Z.of_nat (length l)) with n in W1, W2, V1, V2, U1, U2 by lia.
  exists (splice m1 first1 (map (fun t => fst (fst t)) l)),
         (splice m2 first2 (map (fun t => snd (fst t)) l)),
         (splice m3 first3 (map snd l)).
  rewrite W1, V1, U1, combine_triple. auto 12.
Qed.

Lemma simd_walk_3_applies_witness :
  exists m1' m2' m3',
    simd_walk_3 (fun (s : unit) x y z => (s, (x, y, x + y))) [1; 2; 3; 4]
      [10; 20; 30; 40] [0; 0; 0; 0; 0] 0 4 0 1 tt
    = Ret (m1', m2', m3', tt, 1 + 4) /\
    combine (combine (slice m1' 0 4) (slice m2' 0 4)) (slice m3' 1 4)
    = map (fun t => (fst (fst t), snd (fst t), fst (fst t) + snd (fst t)))
        (combine (combine (slice [1; 2; 3; 4] 0 4)
                          (slice [10; 20; 30; 40] 0 4))
                 (slice [0; 0; 0; 0; 0] 1 4)) /\
    (forall q, q < 0 \/ 0 + 4 <= q -> load m1' q = load [1; 2; 3; 4] q) /\
    (forall q, q < 0 \/ 0 + 4 <= q ->
               load m2' q = load [10; 20; 30; 40] q) /\
    (forall q, q < 1 \/ 1 + 4 <= q -> load m3' q = load [0; 0; 0; 0; 0] q) /\
    length m1' = length [1; 2; 3; 4] /\
    length m2' = length [10; 20; 30; 40] /\
    length m3' = length [0; 0; 0; 0; 0].
Proof.
  apply (simd_walk_3_applies (fun (s : unit) x y z => (s, (x, y, x + y)))
           (fun x y z => (x, y, x + y))
           [1; 2; 3; 4] [10; 20; 30; 40] [0; 0; 0; 0; 0] 0 4 0 1 tt);
    [reflexivity | unfold valid; simpl; lia ..].
Defined.

(** X4. [simd_walk_2] with a callable that assigns [g x] to the element
    of the second range leaves the first buffer as it was and writes the
    images under [g] of the elements of the first range; with the
    identity for [g] it does what [simd_copy_n] does. *)
Theorem simd_walk_2_transform {A B St : Type} (g : A -> B) (m1 : list A)
    (m2 : list B) (out : list A) (first1 n first2 : Z) (s : St) :
  valid m1 first1 n -> valid m2 first2 n -> valid out first2 n ->
  (exists m2',
     simd_walk_2 (fun s x _ => (s, (x, g x))) m1 m2 first1 n first2 s
     = Ret (m1, m2', s, first2 + n) /\
     slice m2' first2 n = map g (slice m1 first1 n) /\
     (forall q, q < first2 \/ first2 + n <= q -> load m2' q = load m2 q)) /\
  simd_walk_2 (fun s x _ => (s, (x, x))) m1 out first1 n first2 s
  = ('(o, p) <- simd_copy_n m1 first1 n out first2 ;; Ret (m1, o, s, p)).
Proof.
  intros Hv1 Hv2 Hvo. pose proof Hv2 as (G0 & G1 & G2).
  pose proof (length_slice m1 first1 n Hv1) as L1.
  assert (Run : forall (D : Type) (k : A -> D) (mo : list D),
             valid mo first2 n ->
             simd_walk_2 (fun s x _ => (s, (x, k x))) m1 mo first1 n first2 s
             = Ret (m1, splice mo first2 (map k (slice m1 first1 n)), s,
                    first2 + n)).
  { intros D k mo Hmo. pose proof (length_slice mo first2 n Hmo) as L2.
    rewrite simd_walk_2_run by assumption.
    rewrite (walk_list_pure _ (fun p => (fst p, k (fst p))))
      by reflexivity.
    cbn [fst snd].
    assert (E1 : map fst (map (fun p : A * D => (fst p, k (fst p)))
                            (combine (slice m1 first1 n)
                                     (slice mo first2 n)))
                 = slice m1 first1 n).
    { rewrite map_map. cbn [fst].
      transitivity (map fst (combine (slice m1 first1 n)
                                     (slice mo first2 n)));
        [reflexivity | apply map_fst_combine; lia]. }
    assert (E2 : map snd (map (fun p : A * D => (fst p, k (fst p)))
                            (combine (slice m1 first1 n)
                                     (slice mo first2 n)))
                 = map k (slice m1 first1 n)).
    { rewrite map_map. cbn [snd]. rewrite <- (map_map fst k).
      f_equal. apply map_fst_combine. lia. }
    rewrite E1, E2, splice_slice_id by assumption. reflexivity. }
  split.
  - exists (splice m2 first2 (map g (slice m1 first1 n))).
    split; [apply Run; assumption |].
    destruct (splice_written m2 first2 (map g (slice m1 first1 n)) G0
                ltac:(rewrite length_map; lia)) as (W1 & W2 & _).
    rewrite length_map in W1, W2.
    replace (Z.of_nat (length (slice m1 first1 n))) with n in W1, W2 by lia.
    auto.
  - rewrite (Run A (fun x => x)) by assumption.
    rewrite simd_copy_n_run by assumption. rewrite map_id. reflexivity.
Qed.

Lemma simd_walk_2_transform_witness :
  (exists m2',
     simd_walk_2 (fun (s : unit) x _ => (s, (x, Z.even x))) [1; 2; 3; 4]
       [false; false; false] 1 2 0 tt
     = Ret ([1; 2; 3; 4], m2', tt, 0 + 2) /\
     slice m2' 0 2 = map Z.even (slice [1; 2; 3; 4] 1 2) /\
     (forall q, q < 0 \/ 0 + 2 <= q ->
                load m2' q = load [false; false; false] q)) /\
  simd_walk_2 (fun (s : unit) x _ => (s, (x, x))) [1; 2; 3; 4] [0; 0; 0]
    1 2 0 tt
  = ('(o, p) <- simd_copy_n [1; 2; 3; 4] 1 2 [0; 0; 0] 0 ;;
     Ret ([1; 2; 3; 4], o, tt, p)).
Proof.
  apply (simd_walk_2_transform Z.even [1; 2; 3; 4] [false; false; false]
           [0; 0; 0] 1 2 0 tt); unfold valid; simpl; lia.
Defined.

Section ReduceFacts.
Context {A B T : Type}.
Variable plus : T -> T -> T.

Lemma for_loop_ext {S : Type} (body1 body2 : Z -> S -> outcome S) k :
  (forall i s, body1 i s = body2 i s) ->
  forall i s, for_loop k i body1 s = for_loop k i body2 s.
Proof.
  intros Hb. induction k as [| k IH]; intros i s; [reflexivity |].
  cbn [for_loop]. rewrite Hb. destruct (body2 i s); cbn [bind]; auto.
Qed.

Lemma simd_transform_reduce_run (unary_op : A -> T) (m : list A) first n
    init :
  valid m first n ->
  simd_transform_reduce plus unary_op m first n init
  = Ret (fold_left (fun acc x => plus acc (unary_op x)) (slice m first n)
           init).
Proof.
  intros Hv. pose proof Hv as (H0 & H1 & H2). unfold simd_transform_reduce.
  match goal with |- for_range _ _ ?b _ = _ => set (body := b) end.
  destruct
    (for_range_inv
       (fun j acc => 0 <= j <= n /\
                     acc = fold_left (fun acc x => plus acc (unary_op x))
                             (slice m first j) init)
       body 0 n init) as (acc & Hacc & _ & ->).
  - lia.
  - split; [lia | reflexivity].
  - intros j acc Hj (_ & ->). unfold body.
    destruct (valid_load m first n j Hv) as (x & Hx); [lia |].
    rewrite Hx. cbn [bind]. eexists. split; [reflexivity |].
    split; [lia |].
    rewrite (slice_snoc m first j x) by (auto; lia).
    rewrite fold_left_app. reflexivity.
  - exact Hacc.
Qed.

Lemma simd_transform_reduce2_run (binary_op : A -> B -> T) (m1 : list A)
    (m2 : list B) first1 n first2 init :
  valid m1 first1 n -> valid m2 first2 n ->
  simd_transform_reduce2 plus binary_op m1 m2 first1 n first2 init
  = Ret (fold_left (fun acc p => plus acc (binary_op (fst p) (snd p)))
           (combine (slice m1 first1 n) (slice m2 first2 n)) init).
Proof.
  intros Hv1 Hv2. pose proof Hv1 as (H0 & H1 & H2).
  pose proof Hv2 as (G0 & G1 & G2). unfold simd_transform_reduce2.
  match goal with |- for_range _ _ ?b _ = _ => set (body := b) end.
  destruct
    (for_range_inv
       (fun j acc =>
          0 <= j <= n /\
          acc = fold_left (fun acc p => plus acc (binary_op (fst p) (snd p)))
                  (combine (slice m1 first1 j) (slice m2 first2 j)) init)
       body 0 n init) as (acc & Hacc & _ & ->).
  - lia.
  - split; [lia | reflexivity].
  - intros j acc Hj (_ & ->). unfold body.
    destruct (valid_load m1 first1 n j Hv1) as (x & Hx); [lia |].
    destruct (valid_load m2 first2 n j Hv2) as (y & Hy); [lia |].
    pose proof (length_slice m1 first1 j ltac:(unfold valid; lia)) as L1.
    pose proof (length_slice m2 first2 j ltac:(unfold valid; lia)) as L2.
    rewrite Hx, Hy. cbn [bind]. eexists. split; [reflexivity |].
    split; [lia |].
    rewrite (slice_snoc m1 first1 j x) by (auto; lia).
    rewrite (slice_snoc m2 first2 j y) by (auto; lia).
    rewrite combine_snoc by lia. rewrite fold_left_app. reflexivity.
  - exact Hacc.
Qed.

Lemma fold_left_seed {E : Type} (h : E -> T) (l : list E) :
  (forall a b c, plus (plus a b) c = plus a (plus b c)) ->
  forall a b,
    fold_left (fun acc e => plus acc (h e)) l (plus a b)
    = plus a (fold_left (fun acc e => plus acc (h e)) l b).
Proof.
  intros Hassoc. induction l as [| e l IH]; intros a b; [reflexivity |].
  cbn [fold_left]. rewrite Hassoc. apply IH.
Qed.

Section Sums.
Variable zero : T.
Hypothesis Hassoc : forall x y z, plus (plus x y) z = plus x (plus y z).
Hypothesis Hcomm : forall x y, plus x y = plus y x.
Hypothesis Hzero : forall x, plus zero x = x.

Lemma fold_left_map {E : Type} (h : E -> T) (l : list E) :
  forall a, fold_left (fun acc e => plus acc (h e)) l a
            = fold_left plus (map h l) a.
Proof.
  induction l as [| e l IH]; intros a; [reflexivity |].
  cbn [fold_left map]. apply IH.
Qed.

(** A left fold from [init] is [init] plus the sum from [zero]. *)
Lemma fold_left_sum {E : Type} (h : E -> T) (l : list E) init :
  fold_left (fun acc e => plus acc (h e)) l init
  = plus init (sum_of plus zero (map h l)).
Proof.
  unfold sum_of. rewrite <- fold_left_map.
  rewrite <- (Hzero init) at 1. rewrite (Hcomm zero init).
  apply fold_left_seed. assumption.
Qed.

Lemma fold_left_permutation (l l' : list T) :
  Permutation l l' ->
  forall a, fold_left plus l a = fold_left plus l' a.
Proof.
  induction 1 as [| x l l' _ IH | x y l | l l' l'' _ IH1 _ IH2]; intros a.
  - reflexivity.
  - cbn [fold_left]. apply IH.
  - cbn [fold_left]. f_equal.
    rewrite !Hassoc. f_equal. apply Hcomm.
  - rewrite IH1. apply IH2.
Qed.

Lemma sum_of_permutation (l l' : list T) :
  Permutation l l' -> sum_of plus zero l = sum_of plus zero l'.
Proof. intros Hp. apply fold_left_permutation. assumption. Qed.
End Sums.
End ReduceFacts.

(** X11. For an addition of the accumulator type that is associative
    and commutative and has a neutral element [zero], both overloads of
    [simd_transform_reduce] return [init] plus the sum of the images of
    the elements, or of the pairs of elements of the two zipped ranges;
    the sum does not depend on the order in which the images are
    added. *)
Theorem simd_transform_reduce_folds {A B T : Type} (plus : T -> T -> T)
    (zero : T) (unary_op : A -> T) (binary_op : A -> B -> T) (m1 : list A)
    (m2 : list B) (first1 n first2 : Z) (init : T) :
  (forall x y z, plus (plus x y) z = plus x (plus y z)) ->
  (forall x y, plus x y = plus y x) ->
  (forall x, plus zero x = x) ->
  valid m1 first1 n -> valid m2 first2 n ->
  simd_transform_reduce plus unary_op m1 first1 n init
  = Ret (plus init (sum_of plus zero (map unary_op (slice m1 first1 n)))) /\
  simd_transform_reduce2 plus binary_op m1 m2 first1 n first2 init
  = Ret (plus init
           (sum_of plus zero
              (map (fun p => binary_op (fst p) (snd p))
                 (combine (slice m1 first1 n) (slice m2 first2 n))))) /\
  (forall l l', Permutation l l' -> sum_of plus zero l = sum_of plus zero l').
Proof.
  intros Hassoc Hcomm Hzero Hv1 Hv2. split; [| split].
  - rewrite simd_transform_reduce_run by assumption. f_equal.
    apply fold_left_sum; assumption.
  - rewrite simd_transform_reduce2_run by assumption. f_equal.
    apply (fold_left_sum plus zero Hassoc Hcomm Hzero
             (fun p : A * B => binary_op (fst p) (snd p))).
  - apply sum_of_permutation; assumption.
Qed.

Lemma simd_transform_reduce_folds_witness :
  simd_transform_reduce Z.add (fun x => x * x) [1; 2; 3] 0 3 7
  = Ret (7 + sum_of Z.add 0 (map (fun x => x * x) (slice [1; 2; 3] 0 3))) /\
  simd_transform_reduce2 Z.add Z.mul [1; 2; 3] [4; 5; 6] 0 3 0 7
  = Ret (7 + sum_of Z.add 0
               (map (fun p => fst p * snd p)
                  (combine (slice [1; 2; 3] 0 3) (slice [4; 5; 6] 0 3)))) /\
  (forall l l', Permutation l l' -> sum_of Z.add 0 l = sum_of Z.add 0 l').
Proof.
  apply (simd_transform_reduce_folds Z.add 0 (fun x => x * x) Z.mul
           [1; 2; 3] [4; 5; 6] 0 3 0 7);
    try (unfold valid; simpl; lia); intros; lia.
Defined.

(** X12. For an addition of the accumulator type that is associative
    and commutative and has a neutral element [zero], a range can be
    reduced in two chunks, each from [zero]: the reduction of
    [[first, first + n1 + n2)] from [init] is [init] plus the two
    partial results, added in either order. *)
Theorem simd_transform_reduce_chunks {A T : Type} (plus : T -> T -> T)
    (zero : T) (unary_op : A -> T) (m : list A) (first n1 n2 : Z)
    (init : T) :
  (forall x y z, plus (plus x y) z = plus x (plus y z)) ->
  (forall x y, plus x y = plus y x) ->
  (forall x, plus zero x = x) ->
  valid m first (n1 + n2) -> 0 <= n1 -> 0 <= n2 ->
  exists r1 r2,
    simd_transform_reduce plus unary_op m first n1 zero = Ret r1 /\
    simd_transform_reduce plus unary_op m (first + n1) n2 zero = Ret r2 /\
    simd_transform_reduce plus unary_op m first (n1 + n2) init
    = Ret (plus init (plus r1 r2)) /\
    simd_transform_reduce plus unary_op m first (n1 + n2) init
    = Ret (plus init (plus r2 r1)).
Proof.
  intros Hassoc Hcomm Hzero Hv Hn1 Hn2. pose proof Hv as (H0 & H1 & H2).
  assert (Hv1 : valid m first n1) by (unfold valid; lia).
  assert (Hv2 : valid m (first + n1) n2) by (unfold valid; lia).
  exists (sum_of plus zero (map unary_op (slice m first n1))),
         (sum_of plus zero (map unary_op (slice m (first + n1) n2))).
  assert (Run : forall f k a,
            valid m f k ->
            simd_transform_reduce plus unary_op m f k a
            = Ret (plus a (sum_of plus zero (map unary_op (slice m f k))))).
  { intros f k a Hvk. rewrite simd_transform_reduce_run by assumption.
    f_equal. apply fold_left_sum; assumption. }
  split; [rewrite Run, Hzero by assumption; reflexivity |].
  split; [rewrite Run, Hzero by assumption; reflexivity |].
  assert (E : simd_transform_reduce plus unary_op m first (n1 + n2) init
              = Ret (plus init
                       (plus
                          (sum_of plus zero
                             (map unary_op (slice m first n1)))
                          (sum_of plus zero
                             (map unary_op (slice m (first + n1) n2)))))).
  { rewrite simd_transform_reduce_run by assumption. f_equal.
    rewrite (slice_split m first n1 (n1 + n2)) by lia.
    rewrite fold_left_app. replace (n1 + n2 - n1) with n2 by lia.
    rewrite !(fold_left_sum plus zero Hassoc Hcomm Hzero unary_op).
    apply Hassoc. }
  split; [exact E |]. rewrite E. do 2 f_equal. apply Hcomm.
Qed.

Lemma simd_transform_reduce_chunks_witness :
  exists r1 r2,
    simd_transform_reduce Z.add (fun x => x * x) [1; 2; 3] 0 1 0 = Ret r1 /\
    simd_transform_reduce Z.add (fun x => x * x) [1; 2; 3] (0 + 1) 2 0
    = Ret r2 /\
    simd_transform_reduce Z.add (fun x => x * x) [1; 2; 3] 0 (1 + 2) 5
    = Ret (5 + (r1 + r2)) /\
    simd_transform_reduce Z.add (fun x => x * x) [1; 2; 3] 0 (1 + 2) 5
    = Ret (5 + (r2 + r1)).
Proof.
  apply (simd_transform_reduce_chunks Z.add 0 (fun x => x * x) [1; 2; 3]
           0 1 2 5);
    try (unfold valid; simpl; lia); intros; lia.
Defined.

(** X13. Counting is a transform-reduce: for every input, [simd_count]
    is [simd_transform_reduce] over the integers with the operation that
    maps an element to 1 when it satisfies the predicate and to 0 when it
    does not, and the initial value 0. *)
Theorem simd_count_is_transform_reduce {A : Type} (pred : A -> bool)
    (m : list A) (first n : Z) :
  simd_count pred m first n
  = simd_transform_reduce Z.add (fun x => Z.b2z (pred x)) m first n 0.
Proof.
  unfold simd_count, simd_transform_reduce, for_range.
  apply for_loop_ext. intros i c.
  destruct (load m (first + i)) as [x | |]; cbn [bind]; try reflexivity.
  destruct (pred x); cbn [Z.b2z]; [reflexivity |].
  rewrite Z.add_0_r. reflexivity.
Qed.

(** X14. [simd_count] returns a value between 0 and [n]; the count for
    the negated predicate is [n] minus the count for the predicate; and
    the count over a range is the sum of the counts over its two
    parts. *)
Theorem simd_count_partition {A : Type} (pred : A -> bool) (m : list A)
    (first n1 n2 : Z) :
  valid m first (n1 + n2) -> 0 <= n1 -> 0 <= n2 ->
  exists c c1 c2,
    simd_count pred m first (n1 + n2) = Ret c /\
    0 <= c <= n1 + n2 /\
    simd_count (fun x => negb (pred x)) m first (n1 + n2)
    = Ret (n1 + n2 - c) /\
    simd_count pred m first n1 = Ret c1 /\
    simd_count pred m (first + n1) n2 = Ret c2 /\
    c = c1 + c2.
Proof.
  intros Hv Hn1 Hn2. pose proof Hv as (H0 & H1 & H2).
  assert (Hv1 : valid m first n1) by (unfold valid; lia).
  assert (Hv2 : valid m (first + n1) n2) by (unfold valid; lia).
  pose proof (length_slice m first (n1 + n2) Hv) as Hlen.
  pose proof (filter_length pred (slice m first (n1 + n2))) as Hf.
  eexists _, _, _.
  split; [apply simd_count_spec; assumption |].
  split; [lia |].
  split; [rewrite simd_count_spec by assumption; f_equal; lia |].
  split; [apply simd_count_spec; assumption |].
  split; [apply simd_count_spec; assumption |].
  rewrite (slice_split m first n1 (n1 + n2)) by lia.
  rewrite filter_app, length_app. replace (n1 + n2 - n1) with n2 by lia.
  lia.
Qed.

Lemma simd_count_partition_witness :
  exists c c1 c2,
    simd_count Z.even [1; 2; 4; 5; 6] 0 (2 + 3) = Ret c /\
    0 <= c <= 2 + 3 /\
    simd_count (fun x => negb (Z.even x)) [1; 2; 4; 5; 6] 0 (2 + 3)
    = Ret (2 + 3 - c) /\
    simd_count Z.even [1; 2; 4; 5; 6] 0 2 = Ret c1 /\
    simd_count Z.even [1; 2; 4; 5; 6] (0 + 2) 3 = Ret c2 /\
    c = c1 + c2.
Proof.
  apply (simd_count_partition Z.even [1; 2; 4; 5; 6] 0 2 3);
    unfold valid; simpl; lia.
Defined.

(** X15. [simd_calc_mask_1] sets [mask[i]] to the value of the predicate
    at [element[i]] for every [i < n], leaves the other mask entries as
    they were and returns what [simd_count] returns. *)
Theorem simd_calc_mask_1_entries {A : Type} (pred : A -> bool) (m : list A)
    (first n : Z) (mk : list bool) (mask : Z) :
  valid m first n -> valid mk mask n ->
  exists mk' count,
    simd_calc_mask_1 pred m first n mk mask = Ret (mk', count) /\
    (forall i x, 0 <= i < n -> load m (first + i) = Ret x ->
                 load mk' (mask + i) = Ret (pred x)) /\
    (forall q, q < mask \/ mask + n <= q -> load mk' q = load mk q) /\
    simd_count pred m first n = Ret count.
Proof.
  intros Hv Hmv. pose proof (length_slice m first n Hv) as Hlen.
  pose proof Hv as (H0 & H1 & H2). pose proof Hmv as (M0 & M1 & M2).
  eexists _, _. split; [apply simd_calc_mask_1_spec; assumption |].
  split; [| split; [| apply simd_count_spec; assumption]].
  - intros i x Hi Hx.
    rewrite load_splice_in by (rewrite ?length_map; lia).
    apply load_map. rewrite load_slice by lia. assumption.
  - intros q Hq. apply load_splice_out; rewrite ?length_map; lia.
Qed.

Lemma simd_calc_mask_1_entries_witness :
  exists mk' count,
    simd_calc_mask_1 Z.even [1; 4; 6; 7] 1 2 [false; false; false] 1
    = Ret (mk', count) /\
    (forall i x, 0 <= i < 2 -> load [1; 4; 6; 7] (1 + i) = Ret x ->
                 load mk' (1 + i) = Ret (Z.even x)) /\
    (forall q, q < 1 \/ 1 + 2 <= q ->
               load mk' q = load [false; false; false] q) /\
    simd_count Z.even [1; 4; 6; 7] 1 2 = Ret count.
Proof.
  apply (simd_calc_mask_1_entries Z.even [1; 4; 6; 7] 1 2
           [false; false; false] 1); unfold valid; simpl; lia.
Defined.

Section SelectMore.
Context {A : Type}.

Lemma select_ext keep keep' i (l : list A) :
  (forall j, i <= j < i + Z.of_nat (length l) -> keep j = keep' j) ->
  select keep i l = select keep' i l.
Proof.
  revert i; induction l as [| x l IH]; intros i H; [reflexivity |].
  cbn [select]. cbn [length] in H.
  rewrite (H i) by lia. rewrite (IH (i + 1)) by (intros; apply H; lia).
  reflexivity.
Qed.

Lemma length_select_flags keep keep' (l : list A) :
  forall i a,
    (forall k, (k < length l)%nat ->
               keep (i + Z.of_nat k) = keep' (Z.of_nat (a + k))) ->
    length (select keep i l)
    = length (filter (fun b : bool => b)
                (map keep' (map Z.of_nat (seq a (length l))))).
Proof.
  induction l as [| x l IH]; intros i a H; [reflexivity |].
  cbn [select length seq map filter].
  pose proof (H O ltac:(cbn [length]; lia)) as H0.
  rewrite Z.add_0_r, Nat.add_0_r in H0. rewrite <- H0.
  assert (E : length (select keep (i + 1) l)
              = length (filter (fun b : bool => b)
                          (map keep' (map Z.of_nat (seq (S a) (length l)))))).
  { apply IH. intros k Hk. specialize (H (S k) ltac:(cbn [length]; lia)).
    replace (i + 1 + Z.of_nat k) with (i + Z.of_nat (S k)) by lia.
    rewrite H. f_equal. lia. }
  destruct (keep i); cbn [length]; rewrite E; reflexivity.
Qed.
End SelectMore.

Section ChainFacts.
Context {A : Type}.
Variable pred : A -> A -> bool.
Hypothesis pred_sym : forall a b, pred a b = true -> pred b a = true.
Hypothesis pred_trans :
  forall a b c, pred a b = true -> pred b c = true -> pred a c = true.

Lemma chain_free_class a b l :
  (forall z, pred z a = pred z b) ->
  chain_free pred a l -> chain_free pred b l.
Proof.
  intros Hab. destruct l as [| y r]; [auto |].
  cbn [chain_free]. rewrite Hab. auto.
Qed.

Lemma chain_free_uniq_from l :
  forall prev, chain_free pred prev (uniq_from pred prev l).
Proof.
  induction l as [| x l IH]; intros prev; [exact I |].
  cbn [uniq_from]. destruct (pred x prev) eqn:E.
  - apply chain_free_class with (a := x); [| apply IH].
    intros z. apply (pred_same_class pred pred_sym pred_trans). assumption.
  - cbn [chain_free]. auto.
Qed.

Lemma chain_free_load l :
  forall prev i a b,
    chain_free pred prev l -> 0 <= i ->
    load (prev :: l) i = Ret a -> load (prev :: l) (i + 1) = Ret b ->
    pred a b = false.
Proof.
  induction l as [| y r IH]; intros prev i a b Hc Hi Ha Hb.
  - apply load_bounds in Hb. cbn [length] in Hb. lia.
  - destruct Hc as (Hy & Hc). destruct (Z.eq_dec i 0) as [-> | Hne].
    + cbn in Ha, Hb. inversion Ha; inversion Hb; subst.
      destruct (pred a b) eqn:E; [| reflexivity].
      rewrite (pred_sym _ _ E) in Hy. discriminate.
    + replace i with (i - 1 + 1) in Ha by lia.
      rewrite load_cons_succ in Ha, Hb by lia.
      apply (IH y (i - 1) a b); try assumption; try lia.
      replace (i - 1 + 1) with i by lia. assumption.
Qed.
End ChainFacts.

(** An instance: the even elements of [[1; 4; 6; 7]], by mask. *)
Lemma simd_mask_then_compact_witness :
  exists mk' count out',
    simd_calc_mask_1 Z.even [1; 4; 6; 7] 0 4 [false; false; false; false] 0
    = Ret (mk', count) /\
    simd_copy_by_mask [1; 4; 6; 7] 0 4 [0; 0; 0] 0 mk' 0 = Ret (out', tt) /\
    simd_copy_if Z.even [1; 4; 6; 7] 0 4 [0; 0; 0] 0 = Ret (out', 0 + count).
Proof.
  apply (simd_mask_then_compact Z.even [1; 4; 6; 7] 0 4 [0; 0; 0] 0
           [false; false; false; false] 0); unfold valid; simpl; lia.
Defined.

(** X17. The two-pass removal of consecutive duplicates agrees with
    [simd_unique_copy]: with [mask[0]] set to [true] and the other mask
    entries computed by [simd_calc_mask_2] over the range that starts at
    the second element, [simd_copy_by_mask] leaves the output buffer that
    [simd_unique_copy] leaves, and one plus the count of the mask kernel
    is the number of elements that [simd_unique_copy] returns. *)
Theorem simd_two_pass_unique {A : Type} (pred : A -> A -> bool)
    (m : list A) (first n : Z) (out : list A) (result : Z)
    (mk : list bool) (mask : Z) :
  valid m first n -> 1 <= n -> valid out result n -> valid mk mask n ->
  exists mk0 mk1 c out',
    store mk mask true = Ret mk0 /\
    simd_calc_mask_2 pred m (first + 1) (n - 1) mk0 (mask + 1)
    = Ret (mk1, c) /\
    simd_copy_by_mask m first n out result mk1 mask = Ret (out', tt) /\
    simd_unique_copy pred m first n out result
    = Ret (out', result + (1 + c)).
Proof.
  intros Hv Hn Ho Hmv. pose proof Hv as (H0 & H1 & H2).
  pose proof Ho as (R0 & R1 & R2). pose proof Hmv as (M0 & M1 & M2).
  pose proof (length_slice m first n Hv) as Hlen.
  set (mk0 := upd (Z.to_nat mask) true mk).
  assert (Hl0 : length mk0 = length mk) by apply length_upd.
  set (flags := pair_flags pred m (first + 1) (n - 1)).
  assert (Hfl : Z.of_nat (length flags) = n - 1).
  { unfold flags. rewrite length_pair_flags. lia. }
  set (mk1 := splice mk0 (mask + 1) flags).
  assert (Hl1 : length mk1 = length mk).
  { unfold mk1. rewrite length_splice by lia. assumption. }
  assert (Hmv1 : valid mk1 mask n) by (unfold valid; lia).
  destruct (valid_load m first n 0 Hv) as (x0 & Hx0); [lia |].
  rewrite Z.add_0_r in Hx0.
  pose proof (slice_cons m first n x0 H0 ltac:(lia) Hx0) as Hs.
  set (rest := slice m (first + 1) (n - 1)) in *.
  assert (Hrest : length rest = Z.to_nat (n - 1)).
  { unfold rest. apply length_slice. unfold valid. lia. }
  (* the mask bits *)
  assert (Hb0 : mask_bit mk1 mask 0 = true).
  { unfold mask_bit, mk1. rewrite Z.add_0_r.
    rewrite load_splice_out by lia. unfold mk0.
    rewrite load_upd_same by lia. reflexivity. }
  assert (Hbj : forall j, 1 <= j < n ->
                          mask_bit mk1 mask j = fresh pred m first j).
  { intros j Hj. unfold mask_bit, mk1.
    replace (mask + j) with (mask + 1 + (j - 1)) by lia.
    rewrite load_splice_in by lia. unfold flags.
    rewrite load_pair_flags by lia. unfold fresh.
    replace (first + 1 + (j - 1)) with (first + j) by lia.
    replace (first + 1 + (j - 1 - 1)) with (first + (j - 1)) by lia.
    reflexivity. }
  assert (Hsel : select (mask_bit mk1 mask) 0 (slice m first n)
                 = unique pred (slice m first n)).
  { rewrite Hs. cbn [select unique]. rewrite Hb0. f_equal.
    rewrite (select_ext _ (fresh pred m first))
      by (intros j Hj; apply Hbj; lia).
    apply select_fresh.
    - replace (first + (0 + 1 - 1)) with first by lia. assumption.
    - intros j Hj. unfold rest. rewrite load_slice by lia.
      f_equal; lia. }
  assert (Hcnt : Z.of_nat (length (unique pred (slice m first n)))
                 = 1 + Z.of_nat (length (filter (fun b : bool => b) flags))).
  { rewrite Hs. cbn [unique length].
    rewrite <- (select_fresh pred m first rest 1 x0).
    - rewrite (length_select_flags (fresh pred m first)
                 (fresh pred m (first + 1)) rest 1 O).
      + unfold flags, pair_flags. rewrite Hrest. lia.
      + intros k Hk. unfold fresh. cbn [Nat.add].
        replace (first + 1 + Z.of_nat k) with (first + (1 + Z.of_nat k))
          by lia.
        replace (first + 1 + (Z.of_nat k - 1))
          with (first + (1 + Z.of_nat k - 1)) by lia.
        reflexivity.
    - replace (first + (1 - 1)) with first by lia. assumption.
    - intros j Hj. unfold rest. rewrite load_slice by lia. reflexivity. }
  pose proof (length_unique pred (slice m first n)) as HU.
  exists mk0, mk1, (Z.of_nat (length (filter (fun b : bool => b) flags))),
         (splice out result (unique pred (slice m first n))).
  split; [apply store_in_range; lia |].
  split; [apply simd_calc_mask_2_spec; unfold valid; lia |].
  split.
  - unfold simd_copy_by_mask.
    rewrite (simd_copy_by_mask_loop_any m first n mk1 mask Hv Hmv1 out
               result Ho).
    rewrite Hsel. reflexivity.
  - rewrite simd_unique_copy_spec by (auto; lia). rewrite Hcnt. reflexivity.
Qed.

Lemma simd_two_pass_unique_witness :
  exists mk0 mk1 c out',
    store [false; false; false; false; false; false; false] 0 true
    = Ret mk0 /\
    simd_calc_mask_2 Z.eqb [1; 2; 2; 3; 3; 3; 4] (0 + 1) (7 - 1) mk0 (0 + 1)
    = Ret (mk1, c) /\
    simd_copy_by_mask [1; 2; 2; 3; 3; 3; 4] 0 7 [0; 0; 0; 0; 0; 0; 0] 0
      mk1 0 = Ret (out', tt) /\
    simd_unique_copy Z.eqb [1; 2; 2; 3; 3; 3; 4] 0 7 [0; 0; 0; 0; 0; 0; 0] 0
    = Ret (out', 0 + (1 + c)).
Proof.
  apply (simd_two_pass_unique Z.eqb [1; 2; 2; 3; 3; 3; 4] 0 7
           [0; 0; 0; 0; 0; 0; 0] 0
           [false; false; false; false; false; false; false] 0);
    unfold valid; simpl; lia.
Defined.

(** X18. The output of [simd_unique_copy] has no two adjacent elements
    that the predicate relates: for a symmetric and transitive
    predicate, [simd_adjacent_find] over the written output returns its
    [last], in both modes and with both bodies. *)
Theorem simd_unique_copy_no_adjacent {A : Type} (pred : A -> A -> bool)
    (m : list A) (first n : Z) (out : list A) (result : Z) (fuel : nat)
    (earlyexit or_semantic : bool) :
  (forall a b, pred a b = true -> pred b a = true) ->
  (forall a b c, pred a b = true -> pred b c = true -> pred a c = true) ->
  valid m first n -> valid out result n -> (Z.to_nat n < fuel)%nat ->
  exists out1 cnt,
    simd_unique_copy pred m first n out result = Ret (out1, result + cnt) /\
    simd_adjacent_find pred out1 fuel earlyexit result (result + cnt)
      or_semantic = Ret (result + cnt).
Proof.
  intros Hsym Htrans Hv Ho Hfuel. pose proof Ho as (R0 & R1 & R2).
  pose proof (length_slice m first n Hv) as Hlen.
  pose proof (length_unique pred (slice m first n)) as HU.
  set (U := unique pred (slice m first n)) in *.
  exists (splice out result U), (Z.of_nat (length U)).
  split; [apply simd_unique_copy_spec; auto; fold U; lia |].
  destruct (simd_adjacent_find_spec pred (splice out result U) fuel
              earlyexit result (result + Z.of_nat (length U)) or_semantic)
    as (r & Hr & Hres); [lia | rewrite length_splice by lia; lia | lia |].
  rewrite Hr. f_equal.
  destruct Hres as [(-> & _) | (k & Hk & Hadj & _)]; [reflexivity |].
  exfalso. unfold adj in Hadj.
  replace k with (result + (k - result)) in Hadj by lia.
  replace (result + (k - result) + 1) with (result + (k - result + 1))
    in Hadj by lia.
  rewrite !load_splice_in in Hadj by lia.
  destruct (load U (k - result)) as [a | |] eqn:Ea; try discriminate.
  destruct (load U (k - result + 1)) as [b | |] eqn:Eb; try discriminate.
  subst U. destruct (slice m first n) as [| x l]; cbn [unique] in *.
  - cbn [length] in Hk. lia.
  - rewrite (chain_free_load pred Hsym (uniq_from pred x l) x (k - result)
               a b) in Hadj; try assumption; try lia; try discriminate.
    apply chain_free_uniq_from; assumption.
Qed.

Lemma simd_unique_copy_no_adjacent_witness :
  exists out1 cnt,
    simd_unique_copy Z.eqb [1; 2; 2; 3; 3; 3; 4] 0 7 [0; 0; 0; 0; 0; 0; 0] 0
    = Ret (out1, 0 + cnt) /\
    simd_adjacent_find Z.eqb out1 8 false 0 (0 + cnt) false = Ret (0 + cnt).
Proof.
  apply (simd_unique_copy_no_adjacent Z.eqb [1; 2; 2; 3; 3; 3; 4] 0 7
           [0; 0; 0; 0; 0; 0; 0] 0 8 false false);
    unfold valid; simpl; intros; lia.
Defined.





(** X21. For a predicate whose results convert to a non-zero [int]
    exactly when they are true as a condition, the exact mode of
    [simd_adjacent_find] is a first-match over the range zipped with
    itself shifted by one: when the two-stream [simd_first] over
    [[first, last - 1)] and [[first + 1, last)] returns [first + k],
    [simd_adjacent_find] returns [first + k] if [k] is below
    [last - first - 1], and [last] otherwise. *)
Theorem simd_adjacent_find_is_first2 {A R : Type} `{PredResult R}
    (pred : A -> A -> R) (m : list A) (fuel : nat)
    (earlyexit earlyexit' : bool) (first last : Z) :
  (forall x y, int_faithful (pred x y)) ->
  0 <= first -> last <= Z.of_nat (length m) -> 1 <= last - first ->
  (Z.to_nat (last - first) < fuel)%nat ->
  exists k,
    simd_first2 pred m m fuel earlyexit first (last - first - 1) (first + 1)
    = Ret (first + k) /\
    simd_adjacent_find pred m fuel earlyexit' first last false
    = Ret (if k <? last - first - 1 then first + k else last).
Proof.
  intros Hfaithful H0 Hl Hn Hfuel.
  assert (Hv1 : valid m first (last - first - 1)) by (unfold valid; lia).
  assert (Hv2 : valid m (first + 1) (last - first - 1))
    by (unfold valid; lia).
  destruct (simd_first2_faithful pred m m first (first + 1)
              (last - first - 1) Hv1 Hv2 Hfaithful fuel earlyexit
              ltac:(lia)) as (k & Hk & Hb & Hbef & Hat).
  destruct (simd_adjacent_find_exact pred m fuel earlyexit' first last
              Hfaithful H0 Hl Hfuel) as (r & Hr & Hres).
  exists k. split; [assumption |]. rewrite Hr. f_equal.
  assert (Hs : forall j, sat2 (as_cond2 pred) m m first (first + 1) j
                         = adj (as_cond2 pred) m (first + j)).
  { intros j. unfold sat2, adj.
    replace (first + 1 + j) with (first + j + 1) by lia. reflexivity. }
  apply (scan_result_unique _ _ _ _ _ _ Hres).
  destruct (Z.ltb_spec k (last - first - 1)) as [Hlt | Hge].
  - right. exists (first + k). split; [lia |].
    split; [rewrite <- Hs; apply Hat; lia |]. split; [| reflexivity].
    intros j Hj. replace j with (first + (j - first)) by lia.
    rewrite <- Hs. apply Hbef. lia.
  - left. split; [reflexivity |]. intros j Hj.
    replace j with (first + (j - first)) by lia.
    rewrite <- Hs. apply Hbef. lia.
Qed.

Lemma simd_adjacent_find_is_first2_witness :
  exists k,
    simd_first2 Z.eqb [1; 2; 2; 3] [1; 2; 2; 3] 5 false 0 (4 - 0 - 1) (0 + 1)
    = Ret (0 + k) /\
    simd_adjacent_find Z.eqb [1; 2; 2; 3] 5 false 0 4 false
    = Ret (if k <? 4 - 0 - 1 then 0 + k else 4).
Proof.
  apply (simd_adjacent_find_is_first2 Z.eqb [1; 2; 2; 3] 5 false false 0 4);
    [intros x y; apply bool_int_faithful | simpl; lia ..].
Defined.

Section SearchUnique.
Context {A B : Type}.
Variable p : B -> A -> bool.
Variable m : list A.
Variable sm : list B.
Variables first last s_first s_last : Z.

End SearchUnique.



(** X23. On an empty range no kernel reads or writes an element: each
    returns its neutral result, the buffers unchanged, for every buffer
    and every position of the range, also one outside the buffer. *)
Theorem kernels_on_empty_range {A B St T : Type} (pred : A -> bool)
    (pred2 : A -> B -> bool) (pred3 : A -> A -> bool)
    (f : St -> A -> St * A) (g : St -> St * A) (plus : T -> T -> T)
    (unary_op : A -> T) (binary_op : A -> B -> T) (m out : list A)
    (m2 : list B) (mk : list bool) (fuel : nat) (earlyexit or_semantic : bool)
    (first first2 result mask : Z) (value : A) (s : St) (init : T) :
  simd_or pred m (S fuel) earlyexit first 0 = Ret false /\
  simd_first pred m (S fuel) earlyexit first 0 = Ret first /\
  simd_first2 pred2 m m2 (S fuel) earlyexit first 0 first2 = Ret first /\
  simd_count pred m first 0 = Ret 0 /\
  simd_copy_if pred m first 0 out result = Ret (out, result) /\
  simd_unique_copy pred3 m first 0 out result = Ret (out, result) /\
  simd_copy_n m first 0 out result = Ret (out, result) /\
  simd_calc_mask_1 pred m first 0 mk mask = Ret (mk, 0) /\
  simd_calc_mask_2 pred3 m first 0 mk mask = Ret (mk, 0) /\
  simd_copy_by_mask m first 0 out result mk mask = Ret (out, tt) /\
  simd_walk_1 f m first 0 s = Ret (m, s) /\
  simd_fill m first first value = Ret m /\
  simd_generate g m first first s = Ret (m, s) /\
  simd_transform_reduce plus unary_op m first 0 init = Ret init /\
  simd_transform_reduce2 plus binary_op m m2 first 0 first2 init = Ret init /\
  simd_adjacent_find pred3 m fuel earlyexit first first or_semantic
  = Ret first.
Proof.
  assert (E8 : (first + 0 - first >=? block_size) = false).
  { unfold block_size. destruct (Z.geb_spec (first + 0 - first) 8);
      [lia | reflexivity]. }
  repeat match goal with |- _ /\ _ => split end.
  1:{ unfold simd_or. destruct earlyexit; [reflexivity |].
      cbn [simd_or_blocks]. rewrite Z.add_0_r, Z.eqb_refl. reflexivity. }
  1:{ unfold simd_first. destruct earlyexit.
      - cbn. rewrite Z.add_0_r. reflexivity.
      - cbn [simd_first_blocks simd_first_rest]. rewrite E8.
        rewrite Z.add_0_r, Z.eqb_refl. reflexivity. }
  1:{ unfold simd_first2. destruct earlyexit.
      - cbn. rewrite Z.add_0_r. reflexivity.
      - cbn [simd_first2_blocks simd_first2_rest]. rewrite E8.
        rewrite Z.add_0_r, Z.eqb_refl. reflexivity. }
  all: unfold simd_copy_if, simd_copy_n, simd_copy_by_mask,
         simd_copy_by_mask_loop, simd_fill, simd_fill_n, simd_generate,
         simd_generate_n, simd_adjacent_find;
       rewrite ?Z.sub_diag; cbn; rewrite ?Z.add_0_r; reflexivity.
Qed.
